(** * aci_proactive_audit: a shallow embedding of the audit-finding core

    The development follows [aci_proactive_audit.py].  Python values that
    come out of [json.load] are modelled by the inductive type [json];
    a Python [dict] is an insertion-ordered association list with
    pairwise distinct keys ([pydict]); a call of [exit(1)] and an
    exception that no handler of the function catches are the two ways
    in which a function does not return ([Exit], [Raise]).

    The first part holds the functions of the program, in the order of
    the components: schema version adapter, recommendation path
    extractor, remote assurance client, text report analyzer, finding
    merge and summarizer.  The second part holds their properties. *)

From Stdlib Require Import ZArith QArith Ascii String.
From stdpp Require Import base list strings pretty gmap.

Open Scope string_scope.
Set Warnings "-register-all".

(** ** Outcomes of a call *)

(** The messages logged right before [exit(1)]. *)
Inductive exit_msg :=
  | UnexpectedKey_2_0_8 (key : string)
  | UnexpectedKey_2_0_0 (key : string)
  | FormatNotIdentified
  | UnmappedKey (key : string)
  | UnmappedChildKey (child_key : string)
  | DuplicatedData (key : string)
  | UnsupportedNesting
  | AnalysisNotFound
  | UnexpectedStatus (status : string)
  | AllInputsDisabled.

(** Python exceptions that escape the function. *)
Inductive pyexn :=
  | AttributeError
  | TypeError
  | ValueError
  | KeyError (key : string)
  | IndexError
  | YAMLError.

Inductive outcome (A : Type) :=
  | Ok (a : A)
  | Exit (msg : exit_msg)
  | Raise (e : pyexn).
Arguments Ok {A} a.
Arguments Exit {A} msg.
Arguments Raise {A} e.

#[global] Instance outcome_ret : MRet outcome := fun _ a => Ok a.
#[global] Instance outcome_bind : MBind outcome := fun _ _ f m =>
  match m with
  | Ok a => f a
  | Exit msg => Exit msg
  | Raise e => Raise e
  end.

(** ** Python dictionaries *)

Module PyDict.

Definition pydict (V : Type) := list (string * V).

Section Ops.
Context {V : Type}.

Definition keys (d : pydict V) : list string := d.*1.

(** [d.get(k)], [None] when the key is absent *)
Fixpoint get (k : string) (d : pydict V) : option V :=
  match d with
  | [] => None
  | (k', v) :: d' => if String.eqb k k' then Some v else get k d'
  end.

(** [k in d.keys()] *)
Definition mem (k : string) (d : pydict V) : bool :=
  match get k d with Some _ => true | None => false end.

(** [d[k] = v]: the value is replaced in place when the key exists,
    the item is appended otherwise *)
Fixpoint set (k : string) (v : V) (d : pydict V) : pydict V :=
  match d with
  | [] => [(k, v)]
  | (k', v') :: d' =>
      if String.eqb k k' then (k', v) :: d' else (k', v') :: set k v d'
  end.

End Ops.

End PyDict.
Import PyDict.

(** ** JSON values *)

(** The values of a loaded export.  The code under study passes numbers on
    and never computes with them; they are integers here. *)
Inductive json :=
  | JNull
  | JBool (b : bool)
  | JNum (n : Z)
  | JStr (s : string)
  | JList (l : list json)
  | JDict (d : list (string * json)).

(** Membership of a string in a list of strings ([key in list]). *)
Definition str_in (k : string) (l : list string) : bool :=
  existsb (String.eqb k) l.

(** * Schema version adapter *)

Inductive dataformat := dataformat_2_0_0 | dataformat_2_0_8.

Definition vetr_2_0_0_keys : list string :=
  [ "meta"; "firmware"; "admin"; "fabricStats"; "eol"; "epLoopProtection";
    "rogueEPControl"; "ipAging"; "remoteEPlearning"; "enforceSubnetCheck";
    "portTracking"; "coopStrict"; "bfdFabricInt"; "domainValidation"; "mcp";
    "dom"; "multipod"; "isisMetric"; "tenantStats"; "bdStats";
    "ingressPolicyEnforcement"; "vzAny"; "l3outRedundancy"; "scale";
    "health"; "ssd" ].

Definition vetr_2_0_8_keys : list string :=
  [ "meta"; "stats"; "apic"; "system"; "faults"; "tenant"; "health";
    "fabric"; "access"; "admin"; "apps"; "scale"; "eol" ].

(** The loop [for key in vetr_data.keys(): if key not in expected: exit(1)];
    it stops at the first key outside [expected]. *)
Fixpoint first_unexpected (ks expected : list string) : option string :=
  match ks with
  | [] => None
  | k :: ks' => if str_in k expected then first_unexpected ks' expected
                else Some k
  end.

Definition vetr_check_dataformat (vetr_data : pydict json) : outcome dataformat :=
  if (length (keys vetr_data) =? length vetr_2_0_8_keys)%nat then
    match first_unexpected (keys vetr_data) vetr_2_0_8_keys with
    | Some key => Exit (UnexpectedKey_2_0_8 key)
    | None => Ok dataformat_2_0_8
    end
  else if (length (keys vetr_data) =? length vetr_2_0_0_keys)%nat then
    match first_unexpected (keys vetr_data) vetr_2_0_0_keys with
    | Some key => Exit (UnexpectedKey_2_0_0 key)
    | None => Ok dataformat_2_0_0
    end
  else Exit FormatNotIdentified.

(** Two key lists denote the same key set. *)
Definition same_keys (l1 l2 : list string) : Prop := ∀ k, k ∈ l1 ↔ k ∈ l2.

(** A format error: one of the three exits of [vetr_check_dataformat]. *)
Definition is_format_error (r : outcome dataformat) : Prop :=
  match r with
  | Exit (UnexpectedKey_2_0_8 _) | Exit (UnexpectedKey_2_0_0 _)
  | Exit FormatNotIdentified => True
  | _ => False
  end.

(** ** Migration of the vetR 2.0.0 format *)

(** The static table [__conversion]: a value is a qualifier string or a
    nested table for the child keys. *)
Inductive conv :=
  | CStr (s : string)
  | CDict (d : list (string * conv)).

(** The table as it stands after the assignments of the function (the
    second assignment to ["rogueEPControl"] stores the same string). *)
Definition conversion : pydict conv :=
  [ ("meta", CStr "meta");
    ("firmware", CStr "admin_firmwareVersion");
    ("admin", CDict [("encryptedBackups", CStr "system_encryptedBackups")]);
    ("fabricStats", CStr "stats_fabric");
    ("eol", CDict [("apic", CStr "eol_apic")]);
    ("epLoopProtection", CStr "system_epLoopProtection");
    ("rogueEPControl", CStr "system_rogueEPControl");
    ("ipAging", CStr "system_ipAging");
    ("remoteEPlearning", CStr "system_remoteEPlearning");
    ("enforceSubnetCheck", CStr "system_enforceSubnetCheck");
    ("portTracking", CStr "system_portTracking");
    ("coopStrict", CStr "fabric_coopStrict");
    ("bfdFabricInt", CStr "fabric_bfdFabricInt");
    ("domainValidation", CStr "system_domainValidation");
    ("mcp", CDict [("interface", CStr "access_mcpInterface");
                   ("global", CStr "fabric_mcpGlobal")]);
    ("dom", CStr "fabric_dom");
    ("multipod", CStr "stats_multipod");
    ("isisMetric", CStr "fabric_isisMetric");
    ("tenantStats", CStr "tenant_stats");
    ("bdStats", CStr "tenant_bdStats");
    ("ingressPolicyEnforcement", CStr "tenant_ingressPolicyEnforcement");
    ("vzAny", CStr "tenant_vzAny");
    ("l3outRedundancy", CStr "tenant_l3outRedundancy");
    ("scale", CDict [("fabric", CStr "scale_fabric");
                     ("guide", CStr "scale_guide");
                     ("switch", CStr "scale_switch")]);
    ("health", CStr "health");
    ("ssd", CStr "faults_ssd") ].

(** [s.split("_")] *)
Fixpoint split_underscore (s : string) : list string :=
  match s with
  | EmptyString => [EmptyString]
  | String c s' =>
      if Ascii.eqb c "_"%char then EmptyString :: split_underscore s'
      else match split_underscore s' with
           | h :: t => String c h :: t
           | [] => [String c EmptyString]
           end
  end.

(** The block that writes [value] at [mapping_elements]; the function has
    it twice, once for a child key and once for a top-level key, and the
    copies differ only in the key named by the duplicate-data message
    ([dup1] for one element, [dup2] for two).  [out[e0].keys()] raises
    [AttributeError] when the section holds a value that is no dict.  A
    value written as a whole section stays shared with the input; the
    table writes no field into such a section, so values are copied here. *)
Definition store (mapping_elements : list string) (value : json)
    (dup1 dup2 : string) (out : pydict json) : outcome (pydict json) :=
  match mapping_elements with
  | [e0] =>
      if mem e0 out then Exit (DuplicatedData dup1)
      else Ok (set e0 value out)
  | [e0; e1] =>
      let out1 := if mem e0 out then out else set e0 (JDict []) out in
      match get e0 out1 with
      | Some (JDict sec) =>
          if mem e1 sec then Exit (DuplicatedData dup2)
          else Ok (set e0 (JDict (set e1 value sec)) out1)
      | _ => Raise AttributeError
      end
  | _ => Exit UnsupportedNesting
  end.

(** [for child_key in vetr_data[key].keys(): ...] *)
Fixpoint convert_children (tbl : pydict conv) (key : string)
    (children : pydict json) (out : pydict json) : outcome (pydict json) :=
  match children with
  | [] => Ok out
  | (child_key, value) :: rest =>
      match get child_key tbl with
      | None => Exit (UnmappedChildKey child_key)
      | Some (CDict _) => Exit UnsupportedNesting
      | Some (CStr base_mapping_result) =>
          out' ← store (split_underscore base_mapping_result) value
                   child_key key out;
          convert_children tbl key rest out'
      end
  end.

(** The body of [for key in vetr_data.keys(): ...] *)
Definition convert_key (key : string) (value : json) (out : pydict json)
    : outcome (pydict json) :=
  match get key conversion with
  | None => Exit (UnmappedKey key)
  | Some (CDict tbl) =>
      match value with
      | JDict children => convert_children tbl key children out
      | _ => Raise AttributeError
      end
  | Some (CStr base_mapping_result) =>
      store (split_underscore base_mapping_result) value key key out
  end.

Fixpoint convert_keys (items : pydict json) (out : pydict json)
    : outcome (pydict json) :=
  match items with
  | [] => Ok out
  | (key, value) :: rest =>
      out' ← convert_key key value out; convert_keys rest out'
  end.

Definition vetr_convert_dataformat (vetr_data : pydict json)
    : outcome (pydict json) :=
  convert_keys vetr_data [].

(** Reading the converted export at a canonical location
    [section] or [section; field]. *)
Definition canonical_get (out : pydict json) (path : list string) : option json :=
  match path with
  | [s] => get s out
  | [s; f] => match get s out with
              | Some (JDict sec) => get f sec
              | _ => None
              end
  | _ => None
  end.

(** The sections the table can write. *)
Definition converted_sections : list string :=
  [ "meta"; "admin"; "system"; "stats"; "eol"; "fabric"; "access";
    "tenant"; "scale"; "health"; "faults" ].

(** A legacy export: every key once, every nested key holding a mapping
    of mapped child keys. *)
Definition legacy_example : pydict json :=
  [ ("meta", JDict [("vetrVersion", JStr "2.0.0")]);
    ("firmware", JStr "4.2(7f)");
    ("admin", JDict [("encryptedBackups", JBool false)]);
    ("fabricStats", JNum 1);
    ("eol", JDict [("apic", JNum 2)]);
    ("epLoopProtection", JNum 3);
    ("rogueEPControl", JNum 4);
    ("ipAging", JNum 5);
    ("remoteEPlearning", JNum 6);
    ("enforceSubnetCheck", JNum 7);
    ("portTracking", JNum 8);
    ("coopStrict", JNum 9);
    ("bfdFabricInt", JNum 10);
    ("domainValidation", JNum 11);
    ("mcp", JDict [("interface", JNum 12); ("global", JNum 13)]);
    ("dom", JNum 14);
    ("multipod", JNum 15);
    ("isisMetric", JNum 16);
    ("tenantStats", JNum 17);
    ("bdStats", JNum 18);
    ("ingressPolicyEnforcement", JNum 19);
    ("vzAny", JNum 20);
    ("l3outRedundancy", JNum 21);
    ("scale", JDict [("fabric", JNum 22); ("guide", JNum 23);
                     ("switch", JNum 24)]);
    ("health", JNum 25);
    ("ssd", JNum 26) ].

(** * Recommendation path extractor *)

(** What the generator appends to the path buffer: a mapping key [k]
    ([__path.append(k)]) or, below a sequence, the element itself
    ([__path.append(d)]). *)
Inductive path_elem :=
  | PKey (k : string)
  | PElem (d : json).

(** [if len(__path) > 0: __path.pop()] *)
Definition pop (path : list path_elem) : list path_elem := removelast path.

(** The generator, with the shared path buffer passed explicitly: the
    result is the list of yielded pairs, each with the contents of the
    buffer at the moment of the [yield], and the buffer as the call
    leaves it. *)
Fixpoint walk (var : json) (key : string) (path : list path_elem)
    {struct var} : list (list path_elem * json) * list path_elem :=
  let '(yielded, path') :=
    match var with
    | JDict d =>
        if mem key d then ([(path, var)], path)
        else
          (fix items (l : list (string * json)) (path : list path_elem) :=
             match l with
             | [] => ([], path)
             | (k, v) :: l' =>
                 match v with
                 | JDict _ | JList _ =>
                     let '(ys1, p1) := walk v key (path ++ [PKey k])%list in
                     let '(ys2, p2) := items l' p1 in
                     ((ys1 ++ ys2)%list, p2)
                 | _ => items l' path
                 end
             end) d path
    | JList l =>
        (fix elems (l : list json) (path : list path_elem) :=
           match l with
           | [] => ([], path)
           | d :: l' =>
               let '(ys1, p1) := walk d key (path ++ [PElem d])%list in
               let '(ys2, p2) := elems l' p1 in
               ((ys1 ++ ys2)%list, p2)
           end) l path
    | _ => ([], path)
    end in
  (yielded, pop path').

(** A call with the default argument [__path=[]]. *)
Definition get_nested_dict_entries_containing_key (var : json) (key : string)
    : list (list path_elem * json) :=
  (walk var key []).1.

(** A marker record inside a sequence. *)
Definition marker_in_sequence : json :=
  JDict [("a", JList [JDict [("m", JBool true)]])].

(** * Remote assurance client *)

(** ** Job monitor, variant [ndi] *)

Record job_entry := { jobId : string; operSt : string }.

(** [for entry in result["entries"]: if entry["jobId"] == jobname: ...];
    the status of the last matching entry *)
Definition find_status (jobname : string) (entries : list job_entry)
    : option string :=
  fold_left (fun status entry =>
               if String.eqb (jobId entry) jobname then Some (operSt entry)
               else status) entries None.

(** One round of [while True:] *)
Inductive round :=
  | SleepAndPoll (retry_count : nat)   (* [time.sleep(10)], next round *)
  | Break                              (* leaves the loop, [return True] *)
  | Fatal (msg : exit_msg).            (* [exit(1)] *)

Definition max_retry_count : nat := 6.

Definition monitor_round (jobname : string) (retry_count : nat)
    (entries : list job_entry) : round :=
  match find_status jobname entries with
  | None =>
      if (retry_count <? max_retry_count)%nat then SleepAndPoll retry_count
      else Fatal AnalysisNotFound
  | Some status =>
      if String.eqb status "QUEUED" then SleepAndPoll retry_count
      else if String.eqb status "SCHEDULED" then SleepAndPoll retry_count
      else if String.eqb status "RUNNING" then SleepAndPoll retry_count
      else if String.eqb status "COMPLETE" then Break
      else Fatal (UnexpectedStatus status)
  end.

(** The loop run against the job listings the service answers with, one
    per poll.  [sleeps] counts the calls of [time.sleep(10)]. *)
Inductive monitor_result :=
  | Returned (sleeps : nat)
  | Exited (msg : exit_msg) (sleeps : nat)
  | StillPolling (retry_count sleeps : nat).

Fixpoint monitor_loop (jobname : string) (retry_count sleeps : nat)
    (listings : list (list job_entry)) : monitor_result :=
  match listings with
  | [] => StillPolling retry_count sleeps
  | entries :: rest =>
      match monitor_round jobname retry_count entries with
      | SleepAndPoll retry_count' =>
          monitor_loop jobname retry_count' (S sleeps) rest
      | Break => Returned sleeps
      | Fatal msg => Exited msg sleeps
      end
  end.

(** [nae_monitor_analysis] for [self.version == "ndi"] *)
Definition nae_monitor_analysis (jobname : string)
    (listings : list (list job_entry)) : monitor_result :=
  monitor_loop jobname 0 0 listings.

(** ** Paginated retrieval of the smart-event summary, variant [ndi] *)

Record ndi_event := {
  mnemonicTitle : string;
  anomalyStr : string;
  ev_severity : string }.

Record ndi_response := {
  totalResultsCount : option Z;
  entries : list ndi_event }.

Record smart_event := {
  event_list : list json;
  severity : string;
  description : string;
  data_source : option string }.

Definition max_response_count : Z := 100.

(** [-(-int(total) // __max_response_count)] *)
Definition total_page_count (total : Z) : Z :=
  - ((- total) / max_response_count).

(** The body of [for __event in __response["entries"]] on page 0, which
    also sets [data_source]. *)
Definition add_event_first (output : pydict smart_event) (ev : ndi_event)
    : pydict smart_event :=
  let event_name := "nae_" ++ mnemonicTitle ev in
  let old := get event_name output in
  set event_name
    {| event_list := from_option event_list [] old;
       severity := ev_severity ev;
       description := anomalyStr ev;
       data_source := Some "ndi" |} output.

(** The same body on the following pages. *)
Definition add_event_next (output : pydict smart_event) (ev : ndi_event)
    : pydict smart_event :=
  let event_name := "nae_" ++ mnemonicTitle ev in
  let old := get event_name output in
  set event_name
    {| event_list := from_option event_list [] old;
       severity := ev_severity ev;
       description := anomalyStr ev;
       data_source := old ≫= data_source |} output.

(** [for __event in __response["entries"]: ...;
     __current_page_count = __current_page_count + 1]: the counter is
    incremented in the body of the [for], once for every event. *)
Fixpoint next_page_events (evs : list ndi_event) (output : pydict smart_event)
    (current_page_count : Z) : pydict smart_event * Z :=
  match evs with
  | [] => (output, current_page_count)
  | ev :: evs' =>
      next_page_events evs' (add_event_next output ev) (current_page_count + 1)
  end.

(** What a run of the retrieval leaves: the result and the offsets
    requested from the service, in order. *)
Record retrieval := {
  result : outcome (bool * pydict smart_event);
  requested : list Z }.

(** [while __current_page_count < __total_page_count:]; the loop need not
    end (a page without entries leaves the counter as it is), so the
    model runs it for [fuel] rounds; [None] when they do not suffice. *)
Fixpoint next_pages (fuel : nat) (fetch : Z → option ndi_response)
    (total_pages current_page_count : Z) (output : pydict smart_event)
    (requested : list Z) : option retrieval :=
  if (current_page_count <? total_pages)%Z then
    match fuel with
    | O => None
    | S fuel' =>
        let offset := (current_page_count * max_response_count)%Z in
        match fetch offset with
        | Some response =>
            let '(output', current') :=
              next_page_events (entries response) output current_page_count in
            next_pages fuel' fetch total_pages current' output'
              (requested ++ [offset])%list
        | None =>
            Some {| result := Ok (false, []);
                    requested := (requested ++ [offset])%list |}
        end
    end
  else Some {| result := Ok (true, output); requested := requested |}.

(** The summary part of [ndi_get_smart_events_by_fabric_name].  [fetch]
    is [ndi_get_smart_events_summary_by_assurance_group_and_offset] as a
    function of the offset, [None] for [(False, "")].  A failure of the
    first request applies [%] to the [None] that [logger.error] returns. *)
Definition ndi_get_smart_events_summary (fuel : nat)
    (fetch : Z → option ndi_response) : option retrieval :=
  match fetch 0%Z with
  | None => Some {| result := Raise TypeError; requested := [0%Z] |}
  | Some response =>
      match totalResultsCount response with
      | None => Some {| result := Ok (true, []); requested := [0%Z] |}
      | Some total =>
          let output := fold_left add_event_first (entries response) [] in
          if (1 <? total_page_count total)%Z then
            next_pages fuel fetch (total_page_count total) 1 output [0%Z]
          else Some {| result := Ok (true, output); requested := [0%Z] |}
      end
  end.

(** A service holding [total] distinct smart events, answering every
    request with the (at most 100) events from the offset on. *)
Definition nth_event (i : nat) : ndi_event :=
  {| mnemonicTitle := "EVENT_" ++ pretty i;
     anomalyStr := "anomaly";
     ev_severity := "major" |}.

Definition paged_service (total : nat) (offset : Z) : option ndi_response :=
  let first := Z.to_nat offset in
  Some {| totalResultsCount := Some (Z.of_nat total);
          entries := nth_event <$> seq first (Nat.min 100 (total - first)) |}.

(** * Threshold-based text report analyzer *)

(** ** Lines and the three patterns

    The report is ASCII text.  [is_space] is [str.isspace] and the
    pattern class [\s] on it, [is_digit] is [\d], and [.] is every
    character but the line feed. *)

Definition LF : ascii := ascii_of_nat 10.

Definition is_space (c : ascii) : bool :=
  let n := nat_of_ascii c in
  ((9 <=? n) && (n <=? 13) || (28 <=? n) && (n <=? 32))%nat.

Definition is_digit (c : ascii) : bool :=
  let n := nat_of_ascii c in ((48 <=? n) && (n <=? 57))%nat.

Definition is_dot (c : ascii) : bool := negb (Ascii.eqb c LF).

Fixpoint all_chars (p : ascii → bool) (s : string) : bool :=
  match s with
  | EmptyString => true
  | String c s' => p c && all_chars p s'
  end.

Definition nonempty (s : string) : bool :=
  match s with EmptyString => false | _ => true end.

Fixpoint lstrip (s : string) : string :=
  match s with
  | EmptyString => EmptyString
  | String c s' => if is_space c then lstrip s' else s
  end.

Fixpoint rstrip (s : string) : string :=
  match s with
  | EmptyString => EmptyString
  | String c s' =>
      match rstrip s' with
      | EmptyString => if is_space c then EmptyString else String c EmptyString
      | r => String c r
      end
  end.

(** [s.strip()] *)
Definition strip (s : string) : string := rstrip (lstrip s).

(** [s.startswith(p)] *)
Definition startswith (p s : string) : bool := String.prefix p s.

(** The rest of [s] behind the literal [p], if [s] starts with it. *)
Fixpoint after_literal (p s : string) : option string :=
  match p, s with
  | EmptyString, _ => Some s
  | String a p', String b s' =>
      if Ascii.eqb a b then after_literal p' s' else None
  | String _ _, EmptyString => None
  end.

(** [re.search("^Node: (\d+)$", line)], group 1 *)
Definition re_node (line : string) : option string :=
  match after_literal "Node: " line with
  | Some ds => if nonempty ds && all_chars is_digit ds then Some ds else None
  | None => None
  end.

(** [re.search("^Model: (.+)$", line)], group 1 *)
Definition re_model (line : string) : option string :=
  match after_literal "Model: " line with
  | Some m => if nonempty m && all_chars is_dot m then Some m else None
  | None => None
  end.

(** The longest prefix of [s] whose characters satisfy [p], and the rest. *)
Fixpoint span (p : ascii → bool) (s : string) : string * string :=
  match s with
  | EmptyString => (EmptyString, EmptyString)
  | String c s' =>
      if p c then let '(a, b) := span p s' in (String c a, b)
      else (EmptyString, s)
  end.

(** [(.+)%\)$] against the whole of [s]: group 3 *)
Fixpoint re_percent (s : string) : option string :=
  match s with
  | EmptyString => None
  | String c s' =>
      if String.eqb s' "%)" then
        if is_dot c then Some (String c EmptyString) else None
      else if is_dot c then String c <$> re_percent s' else None
  end.

(** [.+\((.+)%\)$] against the whole of [s]: the greedy [.+] gives way to
    the last parenthesis behind which the rest still matches.
    [seen] tells whether [.+] has a character already. *)
Fixpoint re_tail (seen : bool) (s : string) : option string :=
  match s with
  | EmptyString => None
  | String c s' =>
      match (if is_dot c then re_tail true s' else None) with
      | Some g => Some g
      | None => if seen && Ascii.eqb c "("%char then re_percent s' else None
      end
  end.

(** [\s+\((\d+)\):.+\((.+)%\)$] against the whole of [s]: groups 2, 3 *)
Definition re_rest (s : string) : option (string * string) :=
  let '(ws, s1) := span is_space s in
  if nonempty ws then
    match s1 with
    | String "(" s2 =>
        let '(ds, s3) := span is_digit s2 in
        if nonempty ds then
          match s3 with
          | String ")" (String ":" s4) => pair ds <$> re_tail false s4
          | _ => None
          end
        else None
    | _ => None
    end
  else None.

(** [re.search("^(.+)\s+\((\d+)\):.+\((.+)%\)$", line)], groups 1 to 3.
    [pre] is the text group 1 has taken so far; it grows as long as the
    rest can still match behind it, which makes it the greedy match. *)
Fixpoint re_usage_from (pre : string) (s : string)
    : option (string * string * string) :=
  match s with
  | EmptyString => None
  | String c s' =>
      match (if is_dot c then re_usage_from (pre ++ String c EmptyString) s'
             else None) with
      | Some g => Some g
      | None =>
          if nonempty pre then
            (fun '(g2, g3) => (pre, g2, g3)) <$> re_rest s
          else None
      end
  end.

Definition re_usage (line : string) : option (string * string * string) :=
  re_usage_from EmptyString line.

(** ** The analyzer *)

Record ssd_action := {
  actionRecommended : bool;
  critical : list string;
  major : list string }.

Section Analyzer.

(** Python's [float]: the type of its values, the conversion of a string
    ([None] for [ValueError]) and the two comparisons
    [usage >= __ssd_thresholds_major] (80.0) and
    [usage >= __ssd_thresholds_critical] (90.0). *)
Context {F : Type}.
Variable float : string → option F.
Variable ge_major : F → bool.
Variable ge_critical : F → bool.

Record metric := {
  m_description : string;
  m_id : string;
  m_usage : F }.

(** [__ssd_usage]: the keys ["node"], ["model"] and ["type_<id>"]; the
    loop over its keys skips the first two, so that it visits the
    metrics in the order of their first insertion. *)
Record ssd_usage := {
  node : string;
  model : option string;
  metrics : pydict metric }.

(** The two threshold checks for one metric of node [n]. *)
Definition check_thresholds (n : string) (u : F) (a : ssd_action) : ssd_action :=
  let a1 :=
    if ge_critical u then
      {| actionRecommended := true;
         critical := if str_in n (critical a) then critical a
                     else (critical a ++ [n])%list;
         major := major a |}
    else a in
  if ge_major u then
    {| actionRecommended := true;
       critical := critical a1;
       major := if negb (str_in n (major a1)) && negb (str_in n (critical a1))
                then (major a1 ++ [n])%list else major a1 |}
  else a1.

(** [for __entry in __ssd_usage.keys(): ...]; the function has this loop
    twice, at a node boundary and behind the last line. *)
Definition evaluate_usage (u : ssd_usage) (a : ssd_action) : ssd_action :=
  fold_left (fun a kv => check_thresholds (node u) (m_usage kv.2) a)
    (metrics u) a.

Definition flush (u : option ssd_usage) (a : ssd_action) : ssd_action :=
  match u with
  | Some u => evaluate_usage u a
  | None => a
  end.

Definition ssd_state : Type := option ssd_usage * ssd_action.

(** The body of [for __line in ssd_data:] *)
Definition ssd_line (st : ssd_state) (raw : string) : outcome ssd_state :=
  let '(usage, action) := st in
  let line := strip raw in
  if startswith "Node:" line then
    let action := flush usage action in
    match re_node line with
    | Some node_id =>
        Ok (Some {| node := "node-" ++ node_id; model := None;
                    metrics := [] |}, action)
    | None => Ok (None, action)
    end
  else if startswith "Model:" line then
    match re_model line, usage with
    | Some ssd_model, Some u =>
        Ok (Some {| node := node u; model := Some ssd_model;
                    metrics := metrics u |}, action)
    | _, _ => Ok st
    end
  else if String.eqb line "" then Ok st
  else
    match re_usage line, usage with
    | Some (type_description, type_id, g3), Some u =>
        match float g3 with
        | Some type_usage =>
            Ok (Some {| node := node u; model := model u;
                        metrics :=
                          set ("type_" ++ type_id)
                            {| m_description := type_description;
                               m_id := type_id;
                               m_usage := type_usage |} (metrics u) |},
                action)
        | None => Raise ValueError
        end
    | _, _ => Ok st
    end.

Fixpoint ssd_lines (st : ssd_state) (ssd_data : list string) : outcome ssd_state :=
  match ssd_data with
  | [] => Ok st
  | raw :: rest => st' ← ssd_line st raw; ssd_lines st' rest
  end.

Definition ssd_initial : ssd_state :=
  (None, {| actionRecommended := false; critical := []; major := [] |}).

(** [ssd_data] is the list of lines [read_txt] returns, each with its line
    feed. *)
Definition ssd_analyze_output (ssd_data : list string)
    : outcome (pydict ssd_action) :=
  '(usage, action) ← ssd_lines ssd_initial ssd_data;
  let action := flush usage action in
  Ok (if actionRecommended action then [("ssd_faults", action)] else []).

(** A metric line of the report with its usage. *)
Definition metric_line (raw : string) (u : F) : Prop :=
  ∃ d i g, re_usage (strip raw) = Some (d, i, g) ∧ float g = Some u.

End Analyzer.

(** For the example reports: [float] on a plain decimal numeral, [digits]
    or [digits.digits], with its exact value, and the two thresholds
    compared in [Q]. *)
Fixpoint digits_value (acc : Z) (s : string) : Z :=
  match s with
  | EmptyString => acc
  | String c s' => digits_value (10 * acc + (Z.of_nat (nat_of_ascii c) - 48)) s'
  end.

Definition float_decimal (s : string) : option Q :=
  let '(ip, rest) := span is_digit s in
  match rest with
  | EmptyString =>
      if nonempty ip then Some (inject_Z (digits_value 0 ip)) else None
  | String "." fp =>
      if (nonempty ip || nonempty fp) && all_chars is_digit fp then
        Some (Qmake (digits_value 0 (ip ++ fp))
                    (Z.to_pos (10 ^ Z.of_nat (String.length fp))))
      else None
  | _ => None
  end.

Definition ge_80 (x : Q) : bool := Qle_bool 80 x.
Definition ge_90 (x : Q) : bool := Qle_bool 90 x.

Definition nl (s : string) : string := s ++ String LF EmptyString.

(** The report of the two-node example. *)
Definition two_node_report : list string :=
  [ nl "Node: 101"; nl "Model: X"; nl "CPU (1): used (95%)"; nl "";
    nl "Node: 102"; nl "Model: Y"; nl "CPU (1): used (50%)" ].


(** * Finding merge and priority summarizer *)

(** A rendered finding: the keys ["content"], ["metadata"] and ["error"],
    each of which can be missing; the first two can hold [None]. *)
Record finding := {
  f_content : option (option string);
  f_metadata : option (option (pydict string));
  f_error : option string }.

Record summary_row := {
  r_name : string;
  r_headline : string;
  r_tool_source : string;
  r_priority : string;
  r_affected_count : string }.

(** The keys of [findings["main_document"]] the summarizer writes; a
    missing key is [None]. *)
Record main_document := {
  missing_templates : option (list string);
  templates_missing_ndi_support : option (list string);
  syntax_error_templates : option (list string);
  undefined_error_templates : option (list string);
  summary_table : option (list summary_row) }.

(** The values of the combined findings: rendered findings, the main
    document, and the values that are no mappings (the enablement flags,
    [None], the inventory). *)
Inductive fvalue :=
  | Rendered (f : finding)
  | MainDocument (m : main_document)
  | Plain (j : json).

(** ** The merge in [generate_audit_report] *)

Definition flags (vetr nae ssd : bool) (m : gmap string fvalue)
    : gmap string fvalue :=
  <["ssd_analysis_enabled" := Plain (JBool ssd)]>
    (<["nae_analysis_enabled" := Plain (JBool nae)]>
       (<["vetR_analysis_enabled" := Plain (JBool vetr)]> m)).

(** [d.update(e)] on maps: the items of [e] replace those of [d]. *)
Definition dict_update (d e : gmap string fvalue) : gmap string fvalue := e ∪ d.

Definition combine_findings (enable_vetr enable_nae enable_ssd : bool)
    (vetR_audit_output nae_audit_output ssd_audit_output : gmap string fvalue)
    : outcome (gmap string fvalue) :=
  if enable_vetr && enable_nae && enable_ssd then
    Ok (flags true true true
          (dict_update (dict_update vetR_audit_output nae_audit_output)
             ssd_audit_output))
  else if enable_vetr && enable_nae then
    Ok (flags true true false (dict_update vetR_audit_output nae_audit_output))
  else if enable_vetr && enable_ssd then
    Ok (flags true false true (dict_update vetR_audit_output ssd_audit_output))
  else if enable_nae && enable_ssd then
    Ok (flags false true true (dict_update nae_audit_output ssd_audit_output))
  else if enable_vetr then Ok (flags true false false vetR_audit_output)
  else if enable_nae then Ok (flags false true false nae_audit_output)
  else if enable_ssd then Ok (flags false false true ssd_audit_output)
  else Exit AllInputsDisabled.

Definition flag_keys : list string :=
  [ "vetR_analysis_enabled"; "nae_analysis_enabled"; "ssd_analysis_enabled" ].

Definition failed_render (msg : string) : fvalue :=
  Rendered {| f_content := Some None; f_metadata := Some None;
              f_error := Some msg |}.

(** ** The summary table *)

Definition ignore_findings : list string :=
  [ "vetR_analysis_enabled"; "nae_analysis_enabled"; "ssd_analysis_enabled";
    "main_document"; "hw_inventory" ].

Definition priority_mapping_schema : pydict string :=
  [ ("emergency", "1 - Critical"); ("alert", "1 - Critical");
    ("critical", "1 - Critical"); ("error", "2 - Warning");
    ("warning", "2 - Warning"); ("notice", "3 - Informational");
    ("info", "3 - Informational"); ("debug", "99 - Debug");
    ("ok", "0 - Health"); ("invisible", "100 - Invisible") ].

(** [s.lower()] on ASCII text *)
Definition lower_char (c : ascii) : ascii :=
  let n := nat_of_ascii c in
  if ((65 <=? n) && (n <=? 90))%nat then ascii_of_nat (n + 32) else c.

Fixpoint lower (s : string) : string :=
  match s with
  | EmptyString => EmptyString
  | String c s' => String (lower_char c) (lower s')
  end.

(** [bucket.append(item)], the list created first when the key is missing *)
Definition bucket_append (bucket : option (list string)) (item : string)
    : option (list string) :=
  Some (from_option id [] bucket ++ [item])%list.

(** A change of [findings["main_document"]] in place. *)
Definition with_main_document (f : main_document → main_document)
    (findings : pydict fvalue) : outcome (pydict fvalue) :=
  match get "main_document" findings with
  | Some (MainDocument m) => Ok (set "main_document" (MainDocument (f m)) findings)
  | Some _ => Raise TypeError
  | None => Raise (KeyError "main_document")
  end.

(** The branch for an entry with an ["error"] key: an [if] for the first
    prefix, then an [if]/[elif]/[elif] chain for the other three. *)
Definition bucket_error (item error : string) (m : main_document) : main_document :=
  let m1 :=
    if startswith "Template missing" error then
      {| missing_templates := bucket_append (missing_templates m) item;
         templates_missing_ndi_support := templates_missing_ndi_support m;
         syntax_error_templates := syntax_error_templates m;
         undefined_error_templates := undefined_error_templates m;
         summary_table := summary_table m |}
    else m in
  if startswith "NDI support missing in template" error then
    {| missing_templates := missing_templates m1;
       templates_missing_ndi_support :=
         bucket_append (templates_missing_ndi_support m1) item;
       syntax_error_templates := syntax_error_templates m1;
       undefined_error_templates := undefined_error_templates m1;
       summary_table := summary_table m1 |}
  else if startswith "Syntax error in Template" error then
    {| missing_templates := missing_templates m1;
       templates_missing_ndi_support := templates_missing_ndi_support m1;
       syntax_error_templates := bucket_append (syntax_error_templates m1) item;
       undefined_error_templates := undefined_error_templates m1;
       summary_table := summary_table m1 |}
  else if startswith "Undefined error while rendering template" error then
    {| missing_templates := missing_templates m1;
       templates_missing_ndi_support := templates_missing_ndi_support m1;
       syntax_error_templates := syntax_error_templates m1;
       undefined_error_templates :=
         bucket_append (undefined_error_templates m1) item;
       summary_table := summary_table m1 |}
  else m1.

(** An error that matches one of the four branches; the other errors
    leave the main document unread. *)
Definition matches_a_bucket (error : string) : bool :=
  startswith "Template missing" error ||
  startswith "NDI support missing in template" error ||
  startswith "Syntax error in Template" error ||
  startswith "Undefined error while rendering template" error.

Definition item_source (item : string) : string :=
  let c0 := hd "" (split_underscore item) in
  if String.eqb c0 "ssd" then "1 - ssd"
  else if String.eqb c0 "vetR" then "2 - vetR"
  else if String.eqb c0 "nae" then "3 - nae"
  else "99 - " ++ c0.

Section SummaryTable.

(** [re.findall("#+\s(.+)\n", content)] *)
Variable headlines : string → list string.

(** The row of an entry without ["error"] whose metadata is [md];
    [content[0]] of an empty match list raises [IndexError], and
    [re.findall] on [None] raises [TypeError]. *)
Definition summary_row_of (item : string) (f : finding) (md : pydict string)
    : outcome summary_row :=
  let item_priority :=
    match get "severity" md with
    | Some sev => from_option id "-" (get (lower sev) priority_mapping_schema)
    | None => "-"
    end in
  let item_affected_count := from_option id "-" (get "affected_count" md) in
  item_headline ←
    match f_content f with
    | None => Ok "-"
    | Some None => Raise TypeError
    | Some (Some content) =>
        match headlines content with
        | h :: _ => Ok h
        | [] => Raise IndexError
        end
    end;
  Ok {| r_name := item; r_headline := item_headline;
        r_tool_source := item_source item; r_priority := item_priority;
        r_affected_count := item_affected_count |}.

(** The body of [for __item in findings:]; the state is the findings
    with the main document as changed so far, and the table. *)
Definition summary_item (st : pydict fvalue * list summary_row)
    (item : string) (value : fvalue)
    : outcome (pydict fvalue * list summary_row) :=
  let '(findings, table) := st in
  if str_in item ignore_findings then Ok st
  else
    match value with
    | Rendered f =>
        match f_error f with
        | Some error =>
            if matches_a_bucket error then
              findings' ← with_main_document (bucket_error item error) findings;
              Ok (findings', table)
            else Ok st
        | None =>
            match f_metadata f with
            | Some (Some md) =>
                row ← summary_row_of item f md;
                Ok (findings, (table ++ [row])%list)
            | _ => Ok st
            end
        end
    | MainDocument _ => Ok st
    | Plain _ => Raise TypeError
    end.

Fixpoint summary_items (st : pydict fvalue * list summary_row)
    (items : pydict fvalue) : outcome (pydict fvalue * list summary_row) :=
  match items with
  | [] => Ok st
  | (item, value) :: rest =>
      st' ← summary_item st item value; summary_items st' rest
  end.

Definition create_findings_summary_table (findings : pydict fvalue)
    : outcome (pydict fvalue) :=
  '(findings', table) ← summary_items (findings, []) findings;
  with_main_document
    (fun m => {| missing_templates := missing_templates m;
                 templates_missing_ndi_support := templates_missing_ndi_support m;
                 syntax_error_templates := syntax_error_templates m;
                 undefined_error_templates := undefined_error_templates m;
                 summary_table := Some table |}) findings'.

End SummaryTable.

(** The main document of a result, and what the claims read in it. *)
Definition main_of (findings : pydict fvalue) : option main_document :=
  match get "main_document" findings with
  | Some (MainDocument m) => Some m
  | _ => None
  end.

Definition in_bucket (item : string) (bucket : option (list string)) : Prop :=
  item ∈ from_option id [] bucket.

Definition bucketed (item : string) (m : main_document) : Prop :=
  in_bucket item (missing_templates m) ∨
  in_bucket item (templates_missing_ndi_support m) ∨
  in_bucket item (syntax_error_templates m) ∨
  in_bucket item (undefined_error_templates m).

Definition in_summary (item : string) (m : main_document) : Prop :=
  item ∈ r_name <$> from_option id [] (summary_table m).

Definition bucket_prefixes : list string :=
  [ "Template missing"; "NDI support missing in template";
    "Syntax error in Template"; "Undefined error while rendering template" ].

Definition has_bucket_prefix (error : string) : bool :=
  existsb (fun p => startswith p error) bucket_prefixes.

Definition empty_main_document : main_document :=
  {| missing_templates := None; templates_missing_ndi_support := None;
     syntax_error_templates := None; undefined_error_templates := None;
     summary_table := None |}.

(** A finding whose template rendered but carries no metadata comment, as
    [vetr_render_actions] leaves it, next to one whose template is missing. *)
Definition findings_with_errors : pydict fvalue :=
  [ ("vetR_fabric_dom",
     Rendered {| f_content := Some (Some "# Headline");
                 f_metadata := Some None;
                 f_error := Some "Template metadata extraction failed" |});
    ("vetR_fabric_coopStrict", failed_render "Template missing 'vetR_fabric_coopStrict.md'");
    ("vetR_analysis_enabled", Plain (JBool true));
    ("main_document", MainDocument empty_main_document) ].

(** [re.findall] standing for a content without headline. *)
Definition no_headlines (content : string) : list string := [].

(** The canonical key set with ["eol"] replaced by a foreign key: the same
    cardinality, not the same keys. *)
Definition thirteen_keys_one_foreign : pydict json :=
  (λ k, (k, JNull)) <$>
    [ "meta"; "stats"; "apic"; "system"; "faults"; "tenant"; "health";
      "fabric"; "access"; "admin"; "apps"; "scale"; "endOfLife" ].

(** * Notions used in the statements and proofs *)

(** ** Migration *)

(** A legacy location: a top-level key, or a child key below one. *)
Definition source : Type := string * option string.

(** The canonical location the table gives for a legacy location. *)
Definition target (src : source) : option (list string) :=
  match get src.1 conversion, src.2 with
  | Some (CStr q), None => Some (split_underscore q)
  | Some (CDict tbl), Some child_key =>
      match get child_key tbl with
      | Some (CStr q) => Some (split_underscore q)
      | _ => None
      end
  | _, _ => None
  end.

Definition tgt (src : source) : list string := default [] (target src).

(** The legacy locations of the table. *)
Definition table_sources : list source :=
  mjoin ((λ kc : string * conv,
            match kc.2 with
            | CStr _ => [(kc.1, None)]
            | CDict tbl => (λ ck, (kc.1, Some ck)) <$> keys tbl
            end) <$> conversion).

(** The values of a legacy export by location. *)
Definition children_writes (key : string) (children : pydict json)
    : list (source * json) :=
  (λ cv : string * json, ((key, Some cv.1), cv.2)) <$> children.

Definition key_writes (key : string) (value : json) : list (source * json) :=
  match get key conversion with
  | Some (CStr _) => [((key, None), value)]
  | Some (CDict _) =>
      match value with
      | JDict children => children_writes key children
      | _ => []
      end
  | None => []
  end.

Definition all_writes (vetr_data : pydict json) : list (source * json) :=
  mjoin ((λ kv : string * json, key_writes kv.1 kv.2) <$> vetr_data).

(** The nested legacy keys hold mappings of mapped child keys. *)
Definition well_nested (vetr_data : pydict json) : Prop :=
  ∀ key value tbl,
    get key vetr_data = Some value →
    get key conversion = Some (CDict tbl) →
    ∃ children, value = JDict children ∧ NoDup (keys children) ∧
                ∀ ck, ck ∈ keys children → ck ∈ keys tbl.

(** The converted export holds exactly the values [S], each at its
    canonical location. *)
Record converted (S : list (source * json)) (out : pydict json) : Prop := {
  conv_nodup : NoDup (keys out);
  conv_value : ∀ src v, (src, v) ∈ S → canonical_get out (tgt src) = Some v;
  conv_only : ∀ sec x, get sec out = Some x →
    (∃ src, (src, x) ∈ S ∧ tgt src = [sec]) ∨
    (∃ fs, x = JDict fs ∧ fs ≠ [] ∧ NoDup (keys fs) ∧
           ∀ f, f ∈ keys fs → ∃ src v, (src, v) ∈ S ∧ tgt src = [sec; f]) }.

(** The sections every legacy export fills. *)
Definition always_sections : list string :=
  [ "meta"; "admin"; "system"; "stats"; "fabric"; "tenant"; "health";
    "faults" ].

(** A legacy item the table can migrate. *)
Definition migratable (kv : string * json) : Prop :=
  kv.1 ∈ keys conversion ∧
  ∀ tbl, get kv.1 conversion = Some (CDict tbl) →
    ∃ children, kv.2 = JDict children ∧ NoDup (keys children) ∧
                ∀ ck, ck ∈ keys children → ck ∈ keys tbl.

(** ** Remote client and merge *)

(** A listing that holds another job only. *)
Definition other_job_listing : list job_entry :=
  [ {| jobId := "job-1"; operSt := "COMPLETE" |} ].

(** A listing that holds the job, completed. *)
Definition completed_listing (jobname : string) : list job_entry :=
  [ {| jobId := "job-1"; operSt := "RUNNING" |};
    {| jobId := jobname; operSt := "COMPLETE" |} ].

(** The source mapping [m] if its source is enabled. *)
Definition enabled (b : bool) (m : gmap string fvalue) : gmap string fvalue :=
  if b then m else ∅.

(** The value of key [k] in the merge of the enabled sources: the source
    merged last wins. *)
Definition last_wins (k : string) (vetr nae ssd : gmap string fvalue)
    : option fvalue :=
  match ssd !! k with
  | Some x => Some x
  | None => match nae !! k with
            | Some x => Some x
            | None => vetr !! k
            end
  end.

(** ** Text report analyzer *)




(** Every usage value of the node record being read satisfies [Q]. *)
Definition usage_values {F} (Q : F → Prop) (usage : option (@ssd_usage F)) : Prop :=
  match usage with
  | Some u => ∀ k m, (k, m) ∈ metrics u → Q (m_usage m)
  | None => True
  end.

(** An entry of the findings that carries the error message [error]. *)
Definition error_entry (findings : pydict fvalue) (item error : string) : Prop :=
  ∃ f, get item findings = Some (Rendered f) ∧ f_error f = Some error.

(** ** Extractor *)

(** The two loops of the generator as functions of their own. *)
Section Loops.

Variable key : string.

Fixpoint walk_items (l : list (string * json)) (path : list path_elem)
    : list (list path_elem * json) * list path_elem :=
  match l with
  | [] => ([], path)
  | (k, v) :: l' =>
      match v with
      | JDict _ | JList _ =>
          let '(ys1, p1) := walk v key (path ++ [PKey k])%list in
          let '(ys2, p2) := walk_items l' p1 in
          ((ys1 ++ ys2)%list, p2)
      | _ => walk_items l' path
      end
  end.

Fixpoint walk_elems (l : list json) (path : list path_elem)
    : list (list path_elem * json) * list path_elem :=
  match l with
  | [] => ([], path)
  | d :: l' =>
      let '(ys1, p1) := walk d key (path ++ [PElem d])%list in
      let '(ys2, p2) := walk_elems l' p1 in
      ((ys1 ++ ys2)%list, p2)
  end.

End Loops.

(** Some mapping inside [j], or [j] itself, has the key [key]. *)
Fixpoint marked (key : string) (j : json) : bool :=
  match j with
  | JDict d =>
      mem key d ||
      existsb (λ kv : string * json, let '(_, v) := kv in marked key v) d
  | JList l => existsb (marked key) l
  | _ => false
  end.

(** [reaches var path record]: following [path] from [var], by key through
    the mappings without the marker key and by element through the
    sequences, ends at [record]. *)
Inductive reaches (key : string) : json → list path_elem → json → Prop :=
  | reaches_here j : reaches key j [] j
  | reaches_key d k v path r :
      mem key d = false → (k, v) ∈ d → reaches key v path r →
      reaches key (JDict d) (PKey k :: path) r
  | reaches_elem l e path r :
      e ∈ l → reaches key e path r →
      reaches key (JList l) (PElem e :: path) r.

(** ** Further notions *)

(** A listing on which the monitor sleeps and polls again: the job is
    absent, or its status is one of the three waiting statuses. *)
Definition waiting (jobname : string) (entries : list job_entry) : Prop :=
  match find_status jobname entries with
  | None => True
  | Some status => status ∈ ["QUEUED"; "SCHEDULED"; "RUNNING"]
  end.

(** A node named by a [Node: <digits>] line of the report. *)
Definition reported_node (ssd_data : list string) (n : string) : Prop :=
  ∃ raw node_id,
    raw ∈ ssd_data ∧ strip raw = "Node: " ++ node_id ∧
    nonempty node_id = true ∧ all_chars is_digit node_id = true ∧
    n = "node-" ++ node_id.

(** The entries of the findings that get a row in the summary table. *)
Definition summarised (kv : string * fvalue) : bool :=
  negb (str_in kv.1 ignore_findings) &&
  match kv.2 with
  | Rendered f =>
      match f_error f, f_metadata f with
      | None, Some (Some _) => true
      | _, _ => false
      end
  | _ => false
  end.

(** A service that declares 150 events and answers the second request
    with a page without entries. *)
Definition shrinking_service (offset : Z) : option ndi_response :=
  if (offset =? 0)%Z then
    Some {| totalResultsCount := Some 150%Z;
            entries := nth_event <$> seq 0 100 |}
  else Some {| totalResultsCount := Some 0%Z; entries := [] |}.

(** [re.findall("#+\s(.+)\n", content)].  A match at the start of [s]
    takes the run of [#], one white-space character, the characters up
    to the next line feed, of which there is one at least, and the line
    feed; none of the three quantifiers has another way to match.  The
    result is group 1 and the length of the match. *)
Definition headline_at (s : string) : option (string * nat) :=
  let '(hashes, s1) := span (Ascii.eqb "#") s in
  if nonempty hashes then
    match s1 with
    | String c s2 =>
        if is_space c then
          let '(g, s3) := span is_dot s2 in
          if nonempty g then
            match s3 with
            | String _ _ =>
                Some (g, (String.length hashes + 1 + String.length g + 1)%nat)
            | EmptyString => None
            end
          else None
        else None
    | EmptyString => None
    end
  else None.

(** The matches from left to right; [skip] counts the characters of a
    match that are still to be passed. *)
Fixpoint headlines_from (skip : nat) (s : string) : list string :=
  match s with
  | EmptyString => []
  | String _ s' =>
      match skip with
      | S skip' => headlines_from skip' s'
      | O =>
          match headline_at s with
          | Some (g, len) => g :: headlines_from (len - 1) s'
          | None => headlines_from 0 s'
          end
      end
  end.

Definition re_headlines (content : string) : list string :=
  headlines_from 0 content.

(** Findings of which one rendered with metadata. *)
Definition findings_with_row : pydict fvalue :=
  [ ("nae_APP_EPG_NOT_DEPLOYED",
     Rendered {| f_content :=
                   Some (Some (nl "<!--" ++ nl "severity: Warning"
                               ++ nl "affected_count: 3" ++ nl "-->"
                               ++ nl "# EPG not deployed"));
                 f_metadata := Some (Some [("severity", "Warning");
                                           ("affected_count", "3")]);
                 f_error := None |});
    ("vetR_fabric_coopStrict",
     failed_render "Template missing 'vetR_fabric_coopStrict.md'");
    ("nae_analysis_enabled", Plain (JBool true));
    ("main_document", MainDocument empty_main_document) ].

(** The node of the record being read and the listed nodes all come from
    node lines of the report. *)
Definition nodes_reported {F} (ssd_data : list string) (st : @ssd_state F)
    : Prop :=
  (∀ u, st.1 = Some u → reported_node ssd_data (node u)) ∧
  (∀ x, x ∈ critical st.2 ∨ x ∈ major st.2 → reported_node ssd_data x).

(** * Analysis of the vetR export *)

(** The truth value Python gives a loaded JSON value. *)
Definition truthy (j : json) : bool :=
  match j with
  | JNull => false
  | JBool b => b
  | JNum n => negb (n =? 0)%Z
  | JStr s => nonempty s
  | JList l => match l with [] => false | _ => true end
  | JDict d => match d with [] => false | _ => true end
  end.

(** ["_".join(__path)]: [TypeError] when an element of the path is no
    string. *)
Fixpoint path_strings (path : list path_elem) : option (list string) :=
  match path with
  | [] => Some []
  | PKey k :: path' => cons k <$> path_strings path'
  | PElem (JStr s) :: path' => cons s <$> path_strings path'
  | PElem _ :: _ => None
  end.

Definition join_path (path : list path_elem) : option string :=
  String.concat "_" <$> path_strings path.

(** What a run of [vetr_analyse_output] ends in: the returned actions,
    the [exit(1)] for multiple recommendations, or an exception. *)
Inductive analysis :=
  | Actions (output : pydict json)
  | MultipleRecommendations (entry_key : string)
  | AnalysisRaised (e : pyexn).

(** [__entry["recommended"]["enabled"] is True] *)
Definition recommended_enabled (entry : pydict json) : outcome bool :=
  match get "recommended" entry with
  | None => Raise (KeyError "recommended")
  | Some (JDict recommended) =>
      match get "enabled" recommended with
      | None => Raise (KeyError "enabled")
      | Some (JBool true) => Ok true
      | Some _ => Ok false
      end
  | Some _ => Raise TypeError
  end.

Definition test_prefix : string := "vetR_".

(** The body of the [for] over the yielded pairs. *)
Definition analyse_entry (path : list path_elem) (entry : json)
    (output : pydict json) : analysis :=
  match entry with
  | JDict e =>
      match get "actionRecommended" e with
      | None => AnalysisRaised (KeyError "actionRecommended")
      | Some flag =>
          if truthy flag then
            if mem "error" e then
              match join_path path with
              | Some _ => Actions output
              | None => AnalysisRaised TypeError
              end
            else
              match join_path path with
              | None => AnalysisRaised TypeError
              | Some entry_key =>
                  if mem entry_key output then MultipleRecommendations entry_key
                  else if String.eqb entry_key "fabric_bfdFabricInt" then
                    match recommended_enabled e with
                    | Ok true => Actions output
                    | Ok false =>
                        Actions (set (test_prefix ++ entry_key) entry output)
                    | Exit _ => AnalysisRaised TypeError
                    | Raise exn => AnalysisRaised exn
                    end
                  else Actions (set (test_prefix ++ entry_key) entry output)
              end
          else Actions output
      end
  | _ => AnalysisRaised TypeError
  end.

Fixpoint analyse_entries (yielded : list (list path_elem * json))
    (output : pydict json) : analysis :=
  match yielded with
  | [] => Actions output
  | (path, entry) :: rest =>
      match analyse_entry path entry output with
      | Actions output' => analyse_entries rest output'
      | stop => stop
      end
  end.

Definition vetr_analyse_output (vetr_data : json) : analysis :=
  analyse_entries
    (get_nested_dict_entries_containing_key vetr_data "actionRecommended") [].

(** The run ends in a [return]. *)
Definition returns (r : analysis) : bool :=
  match r with Actions _ => true | _ => false end.

(** A yielded record that the analysis takes over: the flag is true, the
    record has no ["error"], and it is not the BFD recommendation to
    enable BFD. *)
Definition recommended (path : list path_elem) (entry : json)
    (entry_key : string) : Prop :=
  ∃ e flag,
    entry = JDict e ∧ get "actionRecommended" e = Some flag ∧
    truthy flag = true ∧ mem "error" e = false ∧
    join_path path = Some entry_key ∧
    (entry_key = "fabric_bfdFabricInt" → recommended_enabled e = Ok false).

(** An export with a recommended action below a sequence. *)
Definition recommended_in_sequence : json :=
  JDict [("tenant",
          JDict [("bdStats",
                  JList [JDict [("actionRecommended", JBool true)]])])].

(** An export in which the joined path of the second recommended record
    is the prefixed key of the first. *)
Definition prefixed_twice : json :=
  JDict [("dom", JDict [("actionRecommended", JBool true)]);
         ("vetR", JDict [("dom", JDict [("actionRecommended", JBool true)])])].

(** An export with two recommended actions, one of them the BFD
    recommendation to enable BFD. *)
Definition two_recommendations : json :=
  JDict [("fabric",
          JDict [("bfdFabricInt",
                  JDict [("actionRecommended", JBool true);
                         ("recommended", JDict [("enabled", JBool true)])]);
                 ("dom", JDict [("actionRecommended", JBool true)])]);
         ("health", JDict [("actionRecommended", JBool false)])].

(** * Rendering of the findings *)

(** What the template engine does with a template file and an item:
    [get_template] and [render] return the text, or raise
    [TemplateNotFound], [TemplateSyntaxError] or another exception. *)
Inductive jinja_outcome :=
  | RenderedOutput (rendered_output : string)
  | TemplateNotFound
  | TemplateSyntaxError
  | OtherException.

(** ** Metadata of a rendered template *)

(** [yaml.load(entry, Loader=yaml.BaseLoader)]: the loaded value (a
    mapping, a sequence, a string, or [None] for an empty document), one
    of the two errors that [get_template_metadata] catches, or another
    YAML error, which escapes. *)
Inductive yaml_outcome :=
  | Loaded (metadata : json)
  | ScannerError
  | ParserError
  | OtherYAMLError.

(** The text of [s] before its first [-->]. *)
Fixpoint until_close (s : string) : option string :=
  if startswith "-->" s then Some EmptyString
  else match s with
       | EmptyString => None
       | String c s' => String c <$> until_close s'
       end.

(** [re.findall(r"\<\!\-\-(?:.|\n|\r)*?-->", template_content)], each
    match without its delimiters, which the two [re.sub] take off: the
    comments of the text from left to right, each from a [<!--] to the
    first [-->] behind it.  [skip] counts the characters of a match
    that are still to be passed. *)
Fixpoint comments_from (skip : nat) (s : string) : list string :=
  match s with
  | EmptyString => []
  | String _ s' =>
      match skip with
      | S skip' => comments_from skip' s'
      | O =>
          match after_literal "<!--" s ≫= until_close with
          | Some body => body :: comments_from (String.length body + 6) s'
          | None => comments_from 0 s'
          end
      end
  end.

Section Metadata.

Variable yaml_load : string → yaml_outcome.

(** [for __entry in __match:]: the first comment that loads is the
    metadata; [None] is the result [(False, {})]. *)
Fixpoint first_loaded (entries : list string) : outcome (option json) :=
  match entries with
  | [] => Ok None
  | entry :: rest =>
      match yaml_load entry with
      | Loaded metadata => Ok (Some metadata)
      | ScannerError | ParserError => first_loaded rest
      | OtherYAMLError => Raise YAMLError
      end
  end.

Definition get_template_metadata (template_content template_file : string)
    : outcome (option json) :=
  first_loaded (comments_from 0 template_content).

End Metadata.

(** ** The renderers *)

(** A rendered finding: the keys ["content"] and ["metadata"], [None]
    and [JNull] for Python's [None], and the key ["error"] if it is
    set. *)
Record rendered_finding := {
  rf_content : option string;
  rf_metadata : json;
  rf_error : option string }.


Definition ndi_support_missing (template_file : string) : rendered_finding :=
  {| rf_content := Some "";
     rf_metadata := JNull;
     rf_error := Some ("NDI support missing in template '" ++ template_file
                       ++ "'") |}.

(** The loop of both renderers: an entry is skipped or rendered, and the
    rendered finding stored under its name. *)
Fixpoint render_loop {Item} (skip : string → bool)
    (render : string → Item → outcome rendered_finding)
    (items : pydict Item) (rendered_output : pydict rendered_finding)
    : outcome (pydict rendered_finding) :=
  match items with
  | [] => Ok rendered_output
  | (name, item) :: rest =>
      if skip name then render_loop skip render rest rendered_output
      else
        f ← render name item;
        render_loop skip render rest (set name f rendered_output)
  end.

Section TemplateRender.

Context {Item : Type}.

(** The template engine with the templates that the constructor of
    [TemplateRender] has loaded, [yaml.load], and [submit_telemetry] on
    the exception name, the template file and the item: it returns, or
    an exception of the sanitiser, of [json.dumps] or of the request
    other than a timeout or a connection error escapes. *)
Variable jinja : string → Item → jinja_outcome.
Variable yaml_load : string → yaml_outcome.
Variable submit_telemetry : string → string → Item → outcome unit.

Definition render_template (template_file : string) (item : Item)
    : outcome (bool * string) :=
  match jinja template_file item with
  | RenderedOutput rendered_output => Ok (true, rendered_output)
  | TemplateNotFound =>
      _ ← submit_telemetry "TemplateNotFound" template_file item;
      Ok (false, "Template missing '" ++ template_file ++ "'")
  | TemplateSyntaxError =>
      _ ← submit_telemetry "TemplateSyntaxError" template_file item;
      Ok (false, "Syntax error in Template '" ++ template_file ++ "' ")
  | OtherException =>
      _ ← submit_telemetry "TemplateUndefinedError" template_file item;
      Ok (false, "Undefined error while rendering template '"
                 ++ template_file ++ "'")
  end.

(** The body of [for __action in vetr_actions:] behind the ignore check:
    the value stored at [__rendered_output[__action]]. *)
Definition vetr_render_action (action : string) (item : Item)
    : outcome rendered_finding :=
  let template_file := action ++ ".md" in
  '(success, rendered_template_output) ← render_template template_file item;
  if success : bool then
    extracted ←
      get_template_metadata yaml_load rendered_template_output template_file;
    match extracted with
    | Some metadata =>
        Ok {| rf_content := Some rendered_template_output;
              rf_metadata := metadata;
              rf_error := None |}
    | None =>
        Ok {| rf_content := Some rendered_template_output;
              rf_metadata := JNull;
              rf_error := Some "Template metadata extraction failed" |}
    end
  else
    Ok {| rf_content := None; rf_metadata := JNull;
          rf_error := Some rendered_template_output |}.

(** [ignore_vetR] is [ignore_list["vetR"]], a list of names. *)
Definition vetr_render_actions (vetr_actions : pydict Item)
    (ignore_vetR : list string) : outcome (pydict rendered_finding) :=
  render_loop (λ action, str_in action ignore_vetR) vetr_render_action
    vetr_actions [].

(** The branch that resets the finding of a template without NDI
    support; the function has it twice, in the [else] and in the handler
    of [KeyError]. *)
Definition reset_for_ndi (template_file : string) (item : Item)
    : outcome rendered_finding :=
  _ ← submit_telemetry "TemplateNDISupportMissing" template_file item;
  Ok (ndi_support_missing template_file).

(** [try: if __metadata["ndi_support"]: ... else: ... except KeyError:
    ...]: the subscript raises [KeyError] on a mapping without the key
    and [TypeError] on a value that is no mapping; the handler also
    catches a [KeyError] of the telemetry call of the [else]. *)
Definition check_ndi_support (template_file : string) (item : Item)
    (rendered_template_output : string) (metadata : json)
    : outcome rendered_finding :=
  match metadata with
  | JDict d =>
      match get "ndi_support" d with
      | Some support =>
          if truthy support then
            Ok {| rf_content := Some rendered_template_output;
                  rf_metadata := metadata;
                  rf_error := None |}
          else
            match reset_for_ndi template_file item with
            | Raise (KeyError _) => reset_for_ndi template_file item
            | r => r
            end
      | None => reset_for_ndi template_file item
      end
  | _ => Raise TypeError
  end.

(** The body of [for __event in nae_smart_events:] behind the ignore
    check; [ndi] is [nae_version == "ndi"]. *)
Definition nae_render_event (ndi : bool) (event : string) (item : Item)
    : outcome rendered_finding :=
  let template_file := event ++ ".md" in
  '(success, rendered_template_output) ← render_template template_file item;
  if success : bool then
    extracted ←
      get_template_metadata yaml_load rendered_template_output template_file;
    match extracted with
    | Some metadata =>
        if ndi then
          check_ndi_support template_file item rendered_template_output
            metadata
        else
          Ok {| rf_content := Some rendered_template_output;
                rf_metadata := metadata;
                rf_error := None |}
    | None =>
        Ok {| rf_content := Some rendered_template_output;
              rf_metadata := JNull;
              rf_error := Some "Template metadata extraction failed" |}
    end
  else
    Ok {| rf_content := None; rf_metadata := JNull;
          rf_error := Some rendered_template_output |}.


End TemplateRender.


(** A rendered text with a metadata comment and a headline, a template
    path whose two templates, [nae_EVENT.md] and
    [vetR_access_mcpInterface.md], render to it, [yaml.load] on the
    comment of that text (no other text is loaded in the examples), and
    [submit_telemetry] in incognito mode. *)
Definition example_content : string :=
  nl "<!--" ++ nl "severity: warning" ++ nl "ndi_support: false" ++ nl "-->"
  ++ nl "# Headline".

Definition example_template (template_file : string) (item : json)
    : jinja_outcome :=
  if String.eqb template_file "nae_EVENT.md"
     || String.eqb template_file "vetR_access_mcpInterface.md"
  then RenderedOutput example_content else TemplateNotFound.

Definition example_yaml_load (entry : string) : yaml_outcome :=
  if String.eqb entry
       (String LF (nl "severity: warning" ++ nl "ndi_support: false"))
  then Loaded (JDict [("severity", JStr "warning");
                      ("ndi_support", JStr "false")])
  else ParserError.

Definition incognito {Item} (exception template_file : string) (item : Item)
    : outcome unit :=
  Ok tt.

(** * Remote assurance client, variant [nae] *)

(** ** Job monitor *)

Record analysis_entry := { a_unique_name : string; a_status : string }.

(** [for entry in result["value"]["data"]: if entry["unique_name"] ==
    unique_name: found = True; status = entry["status"]]: [status] keeps
    the value of an earlier round when no entry matches, and is unbound
    ([None]) before the first match. *)
Definition nae_scan (unique_name : string) (entries : list analysis_entry)
    (status : option string) : bool * option string :=
  fold_left (λ acc entry,
               if String.eqb (a_unique_name entry) unique_name
               then (true, Some (a_status entry)) else acc)
    entries (false, status).

(** The loop run against the listings the service answers with, one per
    poll; reading the unbound [status] raises [UnboundLocalError]. *)
Inductive nae_monitor_result :=
  | NaeReturned (sleeps : nat)
  | NaeExited (msg : exit_msg) (sleeps : nat)
  | NaeUnboundLocalError (sleeps : nat)
  | NaeStillPolling (status : option string) (sleeps : nat).

Fixpoint nae_monitor_loop (unique_name : string) (status : option string)
    (sleeps : nat) (listings : list (list analysis_entry))
    : nae_monitor_result :=
  match listings with
  | [] => NaeStillPolling status sleeps
  | entries :: rest =>
      let '(found, status) := nae_scan unique_name entries status in
      match status with
      | None => NaeUnboundLocalError sleeps
      | Some s =>
          if String.eqb s "ANALYSIS_NOT_STARTED" then
            nae_monitor_loop unique_name status (S sleeps) rest
          else if String.eqb s "ANALYSIS_IN_PROGRESS" then
            nae_monitor_loop unique_name status (S sleeps) rest
          else if String.eqb s "ANALYSIS_COMPLETED" then NaeReturned sleeps
          else NaeExited (UnexpectedStatus s) sleeps
      end
  end.

(** [nae_monitor_analysis] for [self.version == "nae"] *)
Definition nae_monitor_analysis_nae (unique_name : string)
    (listings : list (list analysis_entry)) : nae_monitor_result :=
  nae_monitor_loop unique_name None 0 listings.

(** The analysis is in no entry of the listing. *)
Definition unlisted (unique_name : string) (entries : list analysis_entry)
    : Prop :=
  Forall (λ entry, a_unique_name entry ≠ unique_name) entries.

(** ** Paginated retrieval of the smart events *)

Record nae_event := {
  se_name : string;
  se_description : string;
  se_severity : string;
  additional_details : json }.

Record nae_response := {
  data_summary_total_page_count : Z;
  value_data : list nae_event }.

(** The body of [for __event in __response["value"]["data"]] on page 0;
    it leaves the key ["data_source"] alone. *)
Definition add_nae_event_first (output : pydict smart_event) (ev : nae_event)
    : pydict smart_event :=
  let event_name := "nae_" ++ se_name ev in
  let old := get event_name output in
  set event_name
    {| event_list := (from_option event_list [] old
                      ++ [additional_details ev])%list;
       severity := se_severity ev;
       description := se_description ev;
       data_source := old ≫= data_source |} output.

(** The same body on the following pages, which sets ["data_source"]. *)
Definition add_nae_event_next (output : pydict smart_event) (ev : nae_event)
    : pydict smart_event :=
  let event_name := "nae_" ++ se_name ev in
  let old := get event_name output in
  set event_name
    {| event_list := (from_option event_list [] old
                      ++ [additional_details ev])%list;
       severity := se_severity ev;
       description := se_description ev;
       data_source := Some "nae" |} output.

(** [while __current_page_count < __total_page_count:], with the counter
    incremented once per page; [None] when [fuel] rounds do not suffice. *)
Fixpoint nae_next_pages (fuel : nat) (fetch : Z → option nae_response)
    (total_pages current_page_count : Z) (output : pydict smart_event)
    (requested : list Z) : option retrieval :=
  if (current_page_count <? total_pages)%Z then
    match fuel with
    | O => None
    | S fuel' =>
        match fetch current_page_count with
        | Some response =>
            nae_next_pages fuel' fetch total_pages (current_page_count + 1)
              (fold_left add_nae_event_next (value_data response) output)
              (requested ++ [current_page_count])%list
        | None =>
            Some {| result := Ok (false, []);
                    requested := (requested ++ [current_page_count])%list |}
        end
    end
  else Some {| result := Ok (true, output); requested := requested |}.

(** [fetch] is [nae_get_smart_events_by_epoch_id_and_page] as a function
    of the page, [None] for [(False, "")]. *)
Definition nae_get_smart_events_by_epoch_id (fuel : nat)
    (fetch : Z → option nae_response) : option retrieval :=
  match fetch 0%Z with
  | None => Some {| result := Ok (false, []); requested := [0%Z] |}
  | Some response =>
      let total_page_count := data_summary_total_page_count response in
      let output := fold_left add_nae_event_first (value_data response) [] in
      if (1 <? total_page_count)%Z then
        nae_next_pages fuel fetch total_page_count 1 output [0%Z]
      else Some {| result := Ok (true, output); requested := [0%Z] |}
  end.

(** The events of the pages [first], ..., [first + n - 1], in order. *)
Definition page_events (fetch : Z → option nae_response) (first : Z) (n : nat)
    : list nae_event :=
  mjoin ((λ page, from_option value_data [] (fetch page)) <$> seqZ first (Z.of_nat n)).

(** The details of the events called [name], in order. *)
Definition details_of (name : string) (evs : list nae_event) : list json :=
  additional_details <$> List.filter (λ ev, String.eqb (se_name ev) name) evs.

(** The details recorded for the event called [name]. *)
Definition recorded (name : string) (output : pydict smart_event) : list json :=
  from_option event_list [] (get ("nae_" ++ name) output).

(** A service with three pages of two events each. *)
Definition three_pages (page : Z) : option nae_response :=
  Some {| data_summary_total_page_count := 3;
          value_data :=
            [ {| se_name := "EPG_NOT_DEPLOYED"; se_description := "d";
                 se_severity := "EVENT_SEVERITY_MAJOR";
                 additional_details := JNum (2 * page) |};
              {| se_name := "OVERLAPPING_SUBNET"; se_description := "d";
                 se_severity := "EVENT_SEVERITY_MINOR";
                 additional_details := JNum (2 * page + 1) |} ] |}.

(** A listing with the analysis not yet started, and one without it. *)
Definition not_started_listing (unique_name : string) : list analysis_entry :=
  [ {| a_unique_name := unique_name; a_status := "ANALYSIS_NOT_STARTED" |} ].

Definition other_analysis_listing : list analysis_entry :=
  [ {| a_unique_name := "other"; a_status := "ANALYSIS_COMPLETED" |} ].

(** * Details of the NDI smart events *)

(** [s.split(sep)] for a separator that is not empty.  [skip] counts the
    characters of a separator found that are still to be passed. *)
Fixpoint split_on_from (sep : string) (skip : nat) (s : string) : list string :=
  match s with
  | EmptyString => [EmptyString]
  | String c s' =>
      match skip with
      | S skip' => split_on_from sep skip' s'
      | O =>
          if startswith sep s then
            EmptyString :: split_on_from sep (String.length sep - 1) s'
          else
            match split_on_from sep 0 s' with
            | h :: t => String c h :: t
            | [] => [String c EmptyString]
            end
      end
  end.

Definition split_on (sep s : string) : list string := split_on_from sep 0 s.

(** An answer of the details request: the declared count, if any, and
    for every entry its [entityNameList], if it has one. *)
Record detail_response := {
  d_totalResultsCount : option Z;
  d_entries : list (option json) }.

(** [for __detailed_info in __response["entries"]: try:
    __output[__event]["event_list"].append(__detailed_info["entityNameList"])
    except KeyError: ...]; the [except] also covers a missing event. *)
Definition append_details (event : string) (d_entries : list (option json))
    (output : pydict smart_event) : pydict smart_event :=
  match get event output with
  | Some se =>
      set event
        {| event_list := (event_list se ++ omap id d_entries)%list;
           severity := severity se;
           description := description se;
           data_source := data_source se |} output
  | None => output
  end.

(** The [while] over the further pages of details; the counter grows by
    one with every page, so that [rounds], the number of pages left,
    bounds the loop.  A failed request applies [%] to the [None] that
    [logger.error] returns. *)
Fixpoint detail_pages (rounds : nat) (fetch : Z → option detail_response)
    (event : string) (current_page_count : Z) (output : pydict smart_event)
    : outcome (pydict smart_event) :=
  match rounds with
  | O => Ok output
  | S rounds' =>
      match fetch (current_page_count * max_response_count)%Z with
      | Some response =>
          detail_pages rounds' fetch event (current_page_count + 1)
            (append_details event (d_entries response) output)
      | None => Raise TypeError
      end
  end.

(** The body of [for __event in __output.keys():]; the state is the
    output and the list of the events without details. *)
Definition detail_event (fetch_details : string → Z → option detail_response)
    (st : pydict smart_event * list string) (event : string)
    : outcome (pydict smart_event * list string) :=
  let '(output, empty_events) := st in
  match split_on "nae_" event with
  | _ :: event_name :: _ =>
      match fetch_details event_name 0%Z with
      | Some response =>
          match d_totalResultsCount response with
          | Some total =>
              let total_pages := total_page_count total in
              let output1 := append_details event (d_entries response) output in
              match get event output1 with
              | Some se =>
                  let empty_events1 :=
                    if (length (event_list se) =? 0)%nat
                    then (empty_events ++ [event])%list else empty_events in
                  output2 ←
                    (if (1 <? total_pages)%Z then
                       detail_pages (Z.to_nat (total_pages - 1))
                         (fetch_details event_name) event 1 output1
                     else Ok output1);
                  Ok (output2, empty_events1)
              | None => Raise (KeyError event)
              end
          | None => Ok (output, (empty_events ++ [event])%list)
          end
      | None => Ok (output, (empty_events ++ [event])%list)
      end
  | _ => Raise IndexError
  end.

Fixpoint detail_events (fetch_details : string → Z → option detail_response)
    (st : pydict smart_event * list string) (events : list string)
    : outcome (pydict smart_event * list string) :=
  match events with
  | [] => Ok st
  | event :: rest =>
      st' ← detail_event fetch_details st event;
      detail_events fetch_details st' rest
  end.

(** [__output.pop(__item)] *)
Definition pop_item (item : string) (output : pydict smart_event)
    : outcome (pydict smart_event) :=
  if mem item output
  then Ok (List.filter (λ kv, negb (String.eqb kv.1 item)) output)
  else Raise (KeyError item).

Fixpoint pop_items (items : list string) (output : pydict smart_event)
    : outcome (pydict smart_event) :=
  match items with
  | [] => Ok output
  | item :: rest => output' ← pop_item item output; pop_items rest output'
  end.

(** The part of [ndi_get_smart_events_by_fabric_name] behind the summary:
    [output] is what the summary part has collected, the result is the
    output without the events that have no details, and the list of
    these. *)
Definition ndi_get_smart_event_details
    (fetch_details : string → Z → option detail_response)
    (output : pydict smart_event)
    : outcome (bool * pydict smart_event * list string) :=
  '(output1, empty_events) ←
    detail_events fetch_details (output, []) (keys output);
  output2 ← pop_items empty_events output1;
  Ok (true, output2, empty_events).

(** Two summary records, and a service that has details for the first
    of them only. *)
Definition two_summary_events : pydict smart_event :=
  [ ("nae_EPG_NOT_DEPLOYED",
     {| event_list := []; severity := "major"; description := "a";
        data_source := Some "ndi" |});
    ("nae_OVERLAPPING_SUBNET",
     {| event_list := []; severity := "minor"; description := "b";
        data_source := Some "ndi" |}) ].

Definition details_for_first (event_name : string) (offset : Z)
    : option detail_response :=
  if String.eqb event_name "EPG_NOT_DEPLOYED" then
    Some {| d_totalResultsCount := Some 1%Z;
            d_entries := [Some (JStr "epg-1")] |}
  else Some {| d_totalResultsCount := None; d_entries := [] |}.

(** The record [se] is [se0] with details added to its event list. *)
Definition details_added (se0 se : smart_event) : Prop :=
  severity se = severity se0 ∧ description se = description se0 ∧
  data_source se = data_source se0 ∧
  ∃ added, event_list se = (event_list se0 ++ added)%list.

(** What a step of the details loop does to the output: the keys stay,
    the records of the other events stay, and the record of [event] gets
    details added. *)
Definition details_step (event : string) (o o' : pydict smart_event) : Prop :=
  keys o' = keys o ∧
  (∀ k, k ≠ event → get k o' = get k o) ∧
  (∀ se, get event o = Some se →
         ∃ se', get event o' = Some se' ∧ details_added se se').

(** * Chunked upload *)

Definition defined_chunk_size : nat := N.to_nat 10000000.

(** The fields of the multipart message of one chunk. *)
Record chunk_post (byte : Type) := {
  qqpartindex : nat;
  qqpartbyteoffset : nat;
  qqchunksize : nat;
  qqtotalparts : nat;
  qqtotalfilesize : nat;
  chunk_data : list byte }.
Arguments qqpartindex {byte} _.
Arguments qqpartbyteoffset {byte} _.
Arguments qqchunksize {byte} _.
Arguments qqtotalparts {byte} _.
Arguments qqtotalfilesize {byte} _.
Arguments chunk_data {byte} _.

Section Upload.

Context {byte : Type}.

(** [read_in_chunks]: [file_object.read(chunk_size)] gives the next
    [chunk_size] bytes of the file, fewer at its end; the generator stops
    at the first empty read.  [None] when [fuel] reads do not suffice. *)
Fixpoint read_in_chunks (fuel : nat) (file_object : list byte)
    (chunk_size : nat) : option (list (list byte)) :=
  match fuel with
  | O => None
  | S fuel' =>
      match take chunk_size file_object with
      | [] => Some []
      | data =>
          cons data <$>
            read_in_chunks fuel' (drop chunk_size file_object) chunk_size
      end
  end.

(** [int(math.ceil(float(content_size) / float(defined_chunk_size)))], a
    computation in floating point, and [session.post] as the fact whether
    it returns.  When it raises, the handler
    [except session.exceptions.RequestException] looks up an attribute the
    session object does not have. *)
Variable amount_of_chunks : nat → nat.
Variable post_returns : chunk_post byte → bool.

(** [for chunk in self.read_in_chunks(f, defined_chunk_size): ...], with
    the messages posted so far. *)
Fixpoint upload_chunks (content_size : nat) (chunks : list (list byte))
    (index offset : nat) (posted : list (chunk_post byte))
    : outcome (list (chunk_post byte)) :=
  match chunks with
  | [] => Ok posted
  | chunk :: rest =>
      let chunksize := length chunk in
      let m := {| qqpartindex := index;
                  qqpartbyteoffset := offset;
                  qqchunksize := chunksize;
                  qqtotalparts := amount_of_chunks content_size;
                  qqtotalfilesize := content_size;
                  chunk_data := chunk |} in
      if post_returns m then
        upload_chunks content_size rest (index + 1) (offset + chunksize)
          (posted ++ [m])%list
      else Raise AttributeError
  end.

(** [nae_upload_file_chunk], the same for both versions but for the names
    of two fields of the message: the result and the messages posted. *)
Definition nae_upload_file_chunk (fuel : nat) (file : list byte)
    : option (outcome (bool * list (chunk_post byte))) :=
  chunks ← read_in_chunks fuel file defined_chunk_size;
  Some (posted ← upload_chunks (length file) chunks 0 0 [];
        Ok (true, posted)).

End Upload.

(** * Telemetry *)

(** Python's operations on loaded JSON values, as far as the sanitiser
    applies them. *)

(** [p in s] on strings *)
Fixpoint substring_in (p s : string) : bool :=
  startswith p s ||
  match s with
  | EmptyString => false
  | String _ s' => substring_in p s'
  end.

(** [for x in j] *)
Definition py_iter (j : json) : outcome (list json) :=
  match j with
  | JList l => Ok l
  | JDict d => Ok (JStr <$> keys d)
  | JStr s => Ok ((λ c, JStr (String c EmptyString)) <$> list_ascii_of_string s)
  | _ => Raise TypeError
  end.

(** [k in j] for a string [k] *)
Definition py_in (k : string) (j : json) : outcome bool :=
  match j with
  | JDict d => Ok (mem k d)
  | JList l => Ok (existsb (λ x, match x with
                                 | JStr s => String.eqb s k
                                 | _ => false
                                 end) l)
  | JStr s => Ok (substring_in k s)
  | _ => Raise TypeError
  end.

(** [j[k]] for a string [k] *)
Definition py_getitem (k : string) (j : json) : outcome json :=
  match j with
  | JDict d => match get k d with
               | Some v => Ok v
               | None => Raise (KeyError k)
               end
  | _ => Raise TypeError
  end.

Fixpoint traverse {A B} (f : A → outcome B) (l : list A) : outcome (list B) :=
  match l with
  | [] => Ok []
  | x :: l' => y ← f x; ys ← traverse f l'; Ok (y :: ys)
  end.

Definition removed : json := JStr "<removed>".

(** [if k in __input_subentry: __output_subentry[k] = "<removed>"] *)
Definition remove_field (k : string) (input_subentry : json)
    (output_subentry : pydict json) : outcome (pydict json) :=
  present ← py_in k input_subentry;
  Ok (if present : bool then set k removed output_subentry
      else output_subentry).

(** [if k in __input_subentry: __output_subentry[k] = __input_subentry[k]] *)
Definition copy_field (k : string) (input_subentry : json)
    (output_subentry : pydict json) : outcome (pydict json) :=
  present ← py_in k input_subentry;
  if present : bool then
    v ← py_getitem k input_subentry; Ok (set k v output_subentry)
  else Ok output_subentry.

(** The body of [for __input_subentry in __input_entry:] *)
Definition sanitise_subentry (input_subentry : json) : outcome json :=
  o ← remove_field "identifier" input_subentry [];
  o ← copy_field "object_types" input_subentry o;
  o ← copy_field "objectType" input_subentry o;
  o ← remove_field "name" input_subentry o;
  o ← remove_field "objectValue" input_subentry o;
  Ok (JDict o).

(** The body of [for __input_entry in input_data["data"]["event_list"]:] *)
Definition sanitise_entry (input_entry : json) : outcome json :=
  subentries ← py_iter input_entry;
  output_subentries ← traverse sanitise_subentry subentries;
  Ok (JList output_subentries).

Definition telemetry_remove_customer_data (input_data : pydict json)
    : outcome (pydict json) :=
  if mem "template" input_data then
    timestamp ← py_getitem "timestamp" (JDict input_data);
    toolName ← py_getitem "toolName" (JDict input_data);
    exception ← py_getitem "exception" (JDict input_data);
    template ← py_getitem "template" (JDict input_data);
    let output_data :=
      [ ("timestamp", timestamp); ("toolName", toolName);
        ("exception", exception); ("template", template) ] in
    match template with
    | JStr t =>
        if startswith "nae" t then
          data ← py_getitem "data" (JDict input_data);
          event_list ← py_getitem "event_list" data;
          input_entries ← py_iter event_list;
          output_entries ← traverse sanitise_entry input_entries;
          Ok (set "data" (JDict [("event_list", JList output_entries)])
                output_data)
        else if startswith "vetR" t then
          Ok (set "data" removed output_data)
        else Ok output_data
    | _ => Raise AttributeError
    end
  else Ok input_data.

(** A sanitised sub-entry: a mapping that has none but the five known
    keys, with the identifier, the name and the object value removed. *)
Definition sanitised_subentry (j : json) : Prop :=
  ∃ o, j = JDict o ∧
       ∀ k v, (k, v) ∈ o →
         ((k = "identifier" ∨ k = "name" ∨ k = "objectValue") ∧ v = removed) ∨
         k = "object_types" ∨ k = "objectType".

Definition sanitised_entry (j : json) : Prop :=
  ∃ subentries, j = JList subentries ∧ Forall sanitised_subentry subentries.

(** The telemetry message for a missing NAE template. *)
Definition nae_telemetry_message : pydict json :=
  [ ("timestamp", JStr "2023-01-01 00:00:00");
    ("toolName", JStr "aci_proactive_audit");
    ("exception", JStr "TemplateNotFound");
    ("template", JStr "nae_EPG_NOT_DEPLOYED.md");
    ("data",
     JDict [ ("event_list",
              JList [ JList [ JDict [ ("identifier", JStr "uni/tn-customer");
                                      ("objectType", JStr "EPG");
                                      ("name", JStr "customer-epg") ] ] ]);
             ("severity", JStr "major");
             ("description", JStr "EPG customer-epg is not deployed") ]) ].

(** What is left of it. *)
Definition sanitised_nae_message : pydict json :=
  [ ("timestamp", JStr "2023-01-01 00:00:00");
    ("toolName", JStr "aci_proactive_audit");
    ("exception", JStr "TemplateNotFound");
    ("template", JStr "nae_EPG_NOT_DEPLOYED.md");
    ("data",
     JDict [ ("event_list",
              JList [ JList [ JDict [ ("identifier", JStr "<removed>");
                                      ("objectType", JStr "EPG");
                                      ("name", JStr "<removed>") ] ] ]) ]) ].

(** * Tasks of the audit report *)

(** [check_audit_warnings]: it logs only, but looks the tool prefix of
    every event up in the warning list. *)
Fixpoint check_audit_warnings {A} (events : pydict A)
    (warning_list : pydict (list string)) : outcome unit :=
  match events with
  | [] => Ok tt
  | (event, _) :: rest =>
      let tool := hd "" (split_underscore event) in
      match get tool warning_list with
      | Some _ => check_audit_warnings rest warning_list
      | None => Raise (KeyError tool)
      end
  end.

Section SsdTasks.

Context {F : Type}.
Variable float : string → option F.
Variable ge_major : F → bool.
Variable ge_critical : F → bool.
Variable jinja : string → ssd_action → jinja_outcome.
Variable yaml_load : string → yaml_outcome.
Variable submit_telemetry : string → string → ssd_action → outcome unit.

(** The block [if cmd_parameters["enable_ssd"]:] of
    [generate_audit_report], from the lines of the report on: the
    findings are rendered by [vetr_render_actions], which reads
    [ignore_list["vetR"]]. *)
Definition ssd_tasks (ssd_data : list string)
    (audit_warning_list audit_ignore_list : pydict (list string))
    : outcome (pydict rendered_finding) :=
  ssd_findings ← ssd_analyze_output float ge_major ge_critical ssd_data;
  if (length ssd_findings =? 0)%nat then Ok []
  else
    _ ← check_audit_warnings ssd_findings audit_warning_list;
    match get "vetR" audit_ignore_list with
    | Some ignore_vetR =>
        vetr_render_actions jinja yaml_load submit_telemetry ssd_findings
          ignore_vetR
    | None => Raise (KeyError "vetR")
    end.

End SsdTasks.

(** The qualifier the table gives for a legacy location. *)
Definition qualifier (src : source) : option string :=
  match get src.1 conversion, src.2 with
  | Some (CStr q), None => Some q
  | Some (CDict tbl), Some child_key =>
      match get child_key tbl with
      | Some (CStr q) => Some q
      | _ => None
      end
  | _, _ => None
  end.

(** The legacy example with a recommendation for the IP aging setting
    and one for the MCP interface setting. *)
Definition legacy_with_recommendations : pydict json :=
  [ ("meta", JDict [("vetrVersion", JStr "2.0.0")]);
    ("ipAging", JDict [("actionRecommended", JBool true)]);
    ("mcp", JDict [("interface", JDict [("actionRecommended", JBool true)]);
                   ("global", JDict [("actionRecommended", JBool false)])]);
    ("health", JNum 25) ].

(** The rendered text of the SSD template, the template path with that
    template, and [yaml.load] on its metadata comment. *)
Definition ssd_content : string :=
  nl "<!--" ++ nl "severity: critical" ++ nl "-->" ++ nl "# SSD lifetime".

Definition ssd_template (template_file : string) (item : ssd_action)
    : jinja_outcome :=
  if String.eqb template_file "ssd_faults.md"
  then RenderedOutput ssd_content else TemplateNotFound.

Definition ssd_yaml_load (entry : string) : yaml_outcome :=
  if String.eqb entry (String LF (nl "severity: critical"))
  then Loaded (JDict [("severity", JStr "critical")]) else ParserError.

(** ** Blocks of the report *)




(** * Properties *)

(** ** Python dictionaries *)

Section PyDictFacts.
Context {V : Type}.
Implicit Types (d : pydict V) (k : string) (v : V).

Lemma str_in_elem k (l : list string) : str_in k l = true ↔ k ∈ l.
Proof.
  unfold str_in. rewrite existsb_exists. split.
  - intros (x & Hx & He). apply String.eqb_eq in He as ->.
    by apply list_elem_of_In.
  - intros Hk. exists k. split; [by apply list_elem_of_In|].
    apply String.eqb_refl.
Qed.

Lemma str_in_not_elem k (l : list string) : str_in k l = false ↔ k ∉ l.
Proof.
  rewrite <- str_in_elem. destruct (str_in k l); naive_solver.
Qed.

Lemma get_None k d : get k d = None ↔ k ∉ keys d.
Proof.
  induction d as [|[k' v'] d IH]; simpl.
  - split; [intros _; apply not_elem_of_nil | done].
  - destruct (String.eqb_spec k k') as [->|Hne].
    + split; [done|]. intros H. exfalso. apply H. left.
    + rewrite IH, not_elem_of_cons. tauto.
Qed.

Lemma get_Some_keys k v d : get k d = Some v → k ∈ keys d.
Proof.
  intros H. destruct (decide (k ∈ keys d)) as [|Hn]; [done|].
  apply get_None in Hn. congruence.
Qed.

Lemma get_is_Some k d : k ∈ keys d → ∃ v, get k d = Some v.
Proof.
  intros H. destruct (get k d) eqn:E; [eauto|].
  apply get_None in E. done.
Qed.

Lemma mem_true k d : mem k d = true ↔ k ∈ keys d.
Proof.
  unfold mem. destruct (get k d) eqn:E.
  - split; [intros _; by eapply get_Some_keys | done].
  - apply get_None in E. split; [done | intros; done].
Qed.

Lemma mem_false k d : mem k d = false ↔ k ∉ keys d.
Proof. rewrite <- mem_true. destruct (mem k d); naive_solver. Qed.

Lemma get_elem k v d : get k d = Some v → (k, v) ∈ d.
Proof.
  induction d as [|[k' v'] d IH]; simpl; [done|].
  destruct (String.eqb_spec k k') as [->|Hne].
  - intros [= ->]. left.
  - intros H. right. auto.
Qed.

Lemma elem_get k v d : NoDup (keys d) → (k, v) ∈ d → get k d = Some v.
Proof.
  induction d as [|[k' v'] d IH]; simpl.
  - intros _ H. by apply elem_of_nil in H.
  - intros Hnd H. apply NoDup_cons in Hnd as [Hk' Hnd].
    apply elem_of_cons in H as [[= -> ->]|H].
    + by rewrite String.eqb_refl.
    + destruct (String.eqb_spec k k') as [->|Hne]; [|auto].
      exfalso. apply Hk'. apply list_elem_of_fmap. by exists (k', v).
Qed.

Lemma get_set_eq k v d : get k (set k v d) = Some v.
Proof.
  induction d as [|[k' v'] d IH]; simpl.
  - by rewrite String.eqb_refl.
  - destruct (String.eqb_spec k k') as [->|Hne]; simpl.
    + by rewrite String.eqb_refl.
    + destruct (String.eqb_spec k k'); [done | apply IH].
Qed.

Lemma get_set_ne k k' v d : k ≠ k' → get k' (set k v d) = get k' d.
Proof.
  intros Hne. induction d as [|[k0 v0] d IH]; simpl.
  - destruct (String.eqb_spec k' k); [congruence | done].
  - destruct (String.eqb_spec k k0) as [->|Hne0]; simpl.
    + destruct (String.eqb_spec k' k0); [congruence | done].
    + destruct (String.eqb_spec k' k0); [done | apply IH].
Qed.

Lemma keys_set_fresh k v d : k ∉ keys d → keys (set k v d) = (keys d ++ [k])%list.
Proof.
  induction d as [|[k0 v0] d IH]; simpl; [done|].
  intros H. apply not_elem_of_cons in H as [Hne H].
  destruct (String.eqb_spec k k0); [done|]. simpl. f_equal. by apply IH.
Qed.

Lemma keys_set_present k v d : k ∈ keys d → keys (set k v d) = keys d.
Proof.
  induction d as [|[k0 v0] d IH]; simpl.
  - intros H. by apply elem_of_nil in H.
  - intros H. destruct (String.eqb_spec k k0) as [->|Hne]; [done|].
    simpl. f_equal. apply IH.
    apply elem_of_cons in H as [?|?]; [congruence | done].
Qed.

Lemma elem_keys_set k k' v d : k' ∈ keys (set k v d) ↔ k' = k ∨ k' ∈ keys d.
Proof.
  destruct (decide (k ∈ keys d)) as [Hin|Hnin].
  - rewrite keys_set_present by done. split; [tauto|]. by intros [->|?].
  - rewrite keys_set_fresh by done. rewrite elem_of_app, list_elem_of_singleton.
    tauto.
Qed.

Lemma NoDup_keys_set k v d : NoDup (keys d) → NoDup (keys (set k v d)).
Proof.
  intros Hnd. destruct (decide (k ∈ keys d)) as [Hin|Hnin].
  - by rewrite keys_set_present.
  - rewrite keys_set_fresh by done. apply NoDup_app. split_and!; [done| |].
    + intros x Hx Hx'. apply list_elem_of_singleton in Hx'. by subst.
    + apply NoDup_singleton.
Qed.

End PyDictFacts.

(** ** Schema version detection *)

Lemma first_unexpected_None ks expected :
  first_unexpected ks expected = None ↔ ∀ k, k ∈ ks → k ∈ expected.
Proof.
  induction ks as [|k ks IH]; simpl.
  - split; [|done]. intros _ k H. by apply elem_of_nil in H.
  - destruct (str_in k expected) eqn:E.
    + apply str_in_elem in E. rewrite IH. split.
      * intros H x Hx. apply elem_of_cons in Hx as [->|Hx]; auto.
      * intros H x Hx. apply H. by right.
    + apply str_in_not_elem in E. split; [done|].
      intros H. exfalso. apply E, H. left.
Qed.

Lemma first_unexpected_Some ks expected key :
  first_unexpected ks expected = Some key → key ∈ ks ∧ key ∉ expected.
Proof.
  induction ks as [|k ks IH]; simpl; [done|].
  destruct (str_in k expected) eqn:E.
  - intros H. destruct (IH H). split; [by right | done].
  - intros [= ->]. apply str_in_not_elem in E. split; [left | done].
Qed.

(** Distinct keys, as many as expected and all of them expected, are the
    expected key set. *)
Lemma same_keys_of_count ks expected :
  NoDup ks → length ks = length expected →
  (∀ k, k ∈ ks → k ∈ expected) → same_keys ks expected.
Proof.
  intros Hnd Hlen Hsub.
  assert (ks ≡ₚ expected) as Hp.
  { apply submseteq_length_Permutation; [by apply NoDup_submseteq | lia]. }
  intros k. by rewrite Hp.
Qed.

(** C7: a mapping whose key set is neither the legacy nor the canonical key
    set is rejected with a format error; in particular a mapping with as
    many keys as one of the two sets, one of them foreign, is rejected
    with the message that names a foreign key. *)
Theorem vetr_check_dataformat_rejects (vetr_data : pydict json) :
  NoDup (keys vetr_data) →
  ¬ same_keys (keys vetr_data) vetr_2_0_0_keys →
  ¬ same_keys (keys vetr_data) vetr_2_0_8_keys →
  is_format_error (vetr_check_dataformat vetr_data) ∧
  (length (keys vetr_data) = length vetr_2_0_8_keys →
   ∃ key, key ∈ keys vetr_data ∧ (key ∉ vetr_2_0_8_keys) ∧
          (vetr_check_dataformat vetr_data = Exit (UnexpectedKey_2_0_8 key))) ∧
  (length (keys vetr_data) = length vetr_2_0_0_keys →
   ∃ key, key ∈ keys vetr_data ∧ (key ∉ vetr_2_0_0_keys) ∧
          (vetr_check_dataformat vetr_data = Exit (UnexpectedKey_2_0_0 key))).
Proof.
  intros Hnd Hlegacy Hcanon. unfold vetr_check_dataformat.
  destruct (Nat.eqb_spec (length (keys vetr_data)) (length vetr_2_0_8_keys))
    as [H8|H8].
  - destruct (first_unexpected (keys vetr_data) vetr_2_0_8_keys) as [key|] eqn:E.
    + apply first_unexpected_Some in E as [??].
      split_and!; [done | by eauto |].
      intros Hl. rewrite Hl in H8. done.
    + exfalso. apply Hcanon, same_keys_of_count; [done..|].
      by apply first_unexpected_None.
  - destruct (Nat.eqb_spec (length (keys vetr_data)) (length vetr_2_0_0_keys))
      as [Hl|Hl].
    + destruct (first_unexpected (keys vetr_data) vetr_2_0_0_keys) as [key|] eqn:E.
      * apply first_unexpected_Some in E as [??].
        split_and!; [done | done | by eauto].
      * exfalso. apply Hlegacy, same_keys_of_count; [done..|].
        by apply first_unexpected_None.
    + split_and!; done.
Qed.

Lemma vetr_check_dataformat_rejects_witness :
  is_format_error (vetr_check_dataformat thirteen_keys_one_foreign) ∧
  vetr_check_dataformat thirteen_keys_one_foreign
    = Exit (UnexpectedKey_2_0_8 "endOfLife").
Proof.
  assert (NoDup (keys thirteen_keys_one_foreign)) as Hnd
    by (apply (bool_decide_unpack _); vm_compute; exact I).
  assert (¬ same_keys (keys thirteen_keys_one_foreign) vetr_2_0_0_keys) as H0.
  { intros H. assert ("firmware" ∈ keys thirteen_keys_one_foreign) as Hin
      by (apply H, str_in_elem; reflexivity).
    apply str_in_elem in Hin. vm_compute in Hin. discriminate. }
  assert (¬ same_keys (keys thirteen_keys_one_foreign) vetr_2_0_8_keys) as H8.
  { intros H. assert ("endOfLife" ∈ vetr_2_0_8_keys) as Hin
      by (apply H, str_in_elem; reflexivity).
    apply str_in_elem in Hin. vm_compute in Hin. discriminate. }
  split.
  - exact (proj1 (vetr_check_dataformat_rejects _ Hnd H0 H8)).
  - reflexivity.
Defined.

(** ** Migration of the legacy format *)

(** Three facts on the table, checked by evaluation: distinct legacy
    locations have distinct canonical locations, every canonical location
    is a section or a section with a field, and no section is written both
    as a whole and by field. *)
Lemma table_targets_nodup : NoDup (tgt <$> table_sources).
Proof. apply (bool_decide_unpack _). vm_compute. exact I. Qed.

Lemma table_targets_shape src :
  src ∈ table_sources →
  (∃ s, tgt src = [s]) ∨ (∃ s f, tgt src = [s; f]).
Proof.
  revert src. apply Forall_forall.
  let l := eval vm_compute in table_sources in change table_sources with l.
  repeat (apply Forall_cons; split; [vm_compute; eauto|]). constructor.
Qed.

Lemma table_targets_compatible src1 src2 :
  src1 ∈ table_sources → src2 ∈ table_sources →
  hd "" (tgt src1) = hd "" (tgt src2) →
  length (tgt src1) = length (tgt src2).
Proof.
  assert (Forall (λ s1, Forall (λ s2,
            hd "" (tgt s1) = hd "" (tgt s2) →
            length (tgt s1) = length (tgt s2)) table_sources) table_sources)
    as H by (apply (bool_decide_unpack _); vm_compute; exact I).
  intros H1 H2. rewrite Forall_forall in H. specialize (H _ H1).
  rewrite Forall_forall in H. by apply H.
Qed.

Lemma fmap_inj_on_NoDup {A B} (f : A → B) (l : list A) x y :
  NoDup (f <$> l) → x ∈ l → y ∈ l → f x = f y → x = y.
Proof.
  induction l as [|a l IH]; simpl.
  - intros _ H. by apply elem_of_nil in H.
  - intros Hnd Hx Hy Hf. apply NoDup_cons in Hnd as [Ha Hnd].
    apply elem_of_cons in Hx as [->|Hx]; apply elem_of_cons in Hy as [->|Hy];
      [done | | | by apply IH].
    + exfalso. apply Ha. rewrite Hf. by apply list_elem_of_fmap_2.
    + exfalso. apply Ha. rewrite <- Hf. by apply list_elem_of_fmap_2.
Qed.

Lemma tgt_inj src1 src2 :
  src1 ∈ table_sources → src2 ∈ table_sources → tgt src1 = tgt src2 →
  src1 = src2.
Proof. apply fmap_inj_on_NoDup, table_targets_nodup. Qed.

Lemma canonical_get_set_ne out p e0 x :
  hd "" p ≠ e0 → canonical_get (set e0 x out) p = canonical_get out p.
Proof.
  intros Hne. destruct p as [|s [|f [|??]]]; simpl in *; try done.
  - by rewrite get_set_ne.
  - by rewrite get_set_ne.
Qed.

Lemma canonical_get_hd out p v :
  canonical_get out p = Some v → hd "" p ∈ keys out.
Proof.
  destruct p as [|s [|f [|??]]]; simpl; try done.
  - apply get_Some_keys.
  - destruct (get s out) eqn:E; [|done]. intros _. by eapply get_Some_keys.
Qed.

Lemma converted_weaken S S' out :
  (∀ x, x ∈ S ↔ x ∈ S') → converted S out → converted S' out.
Proof.
  intros HS [H1 H2 H3]. split; [done | |].
  - intros src v Hin. apply H2. by apply HS.
  - intros sec x Hg. destruct (H3 sec x Hg) as [(src & Hin & Ht)|(fs & -> & Hne & Hnd & Hf)].
    + left. exists src. split; [by apply HS | done].
    + right. exists fs. split_and!; [done..|].
      intros f Hfin. destruct (Hf f Hfin) as (src & v & Hin & Ht).
      exists src, v. split; [by apply HS | done].
Qed.

Lemma converted_nil : converted [] [].
Proof.
  split.
  - apply NoDup_nil_2.
  - intros src v H. by apply elem_of_nil in H.
  - intros sec x H. done.
Qed.

(** One write of the table keeps the export converted: the location is
    free, because no other legacy location shares it. *)
Lemma store_converted S out src v dup1 dup2 :
  converted S out →
  (∀ s, s ∈ S.*1 → s ∈ table_sources) →
  src ∈ table_sources → src ∉ S.*1 →
  ∃ out', store (tgt src) v dup1 dup2 out = Ok out' ∧
          converted ((src, v) :: S) out'.
Proof.
  intros [Hnd Hval Honly] HS Hsrc Hfresh.
  assert (∀ src' v', (src', v') ∈ S → src' ∈ table_sources ∧ src' ≠ src) as Hold.
  { intros src' v' Hin.
    assert (src' ∈ S.*1) as Hin1 by (apply list_elem_of_fmap; by exists (src', v')).
    split; [by apply HS | by intros ->]. }
  destruct (table_targets_shape src Hsrc) as [[e0 He]|(e0 & e1 & He)].
  - (* a whole section *)
    assert (get e0 out = None) as Hfree.
    { destruct (get e0 out) as [x|] eqn:Hg; [exfalso|done].
      destruct (Honly e0 x Hg) as [(src' & Hin & Ht)|(fs & -> & Hne & _ & Hf)].
      - destruct (Hold _ _ Hin) as [Ht' Hn]. apply Hn.
        apply tgt_inj; [done..|congruence].
      - destruct fs as [|[f fv] fs]; [done|].
        destruct (Hf f) as (src' & v' & Hin & Ht); [left|].
        destruct (Hold _ _ Hin) as [Ht' _].
        pose proof (table_targets_compatible src src' Hsrc Ht') as Hc.
        rewrite He, Ht in Hc. by specialize (Hc eq_refl). }
    exists (set e0 v out). rewrite He. simpl. unfold mem. rewrite Hfree.
    split; [done|]. split.
    + by apply NoDup_keys_set.
    + intros src0 v0 Hin. apply elem_of_cons in Hin as [[= -> ->]|Hin].
      * rewrite He. simpl. apply get_set_eq.
      * rewrite canonical_get_set_ne; [by apply Hval|].
        intros Heq. apply Hval, canonical_get_hd in Hin.
        rewrite Heq in Hin. by apply get_None in Hfree.
    + intros sec x Hg. destruct (decide (sec = e0)) as [->|Hne].
      * rewrite get_set_eq in Hg. injection Hg as <-. left.
        exists src. split; [left | done].
      * rewrite get_set_ne in Hg by done.
        destruct (Honly sec x Hg) as [(src' & Hin & Ht)|(fs & -> & Hn & Hd & Hf)].
        -- left. exists src'. split; [by right | done].
        -- right. exists fs. split_and!; [done..|].
           intros f Hfin. destruct (Hf f Hfin) as (src' & v' & Hin & Ht).
           exists src', v'. split; [by right | done].
  - (* a field of a section *)
    set (out1 := if mem e0 out then out else set e0 (JDict []) out).
    assert (∃ fs, get e0 out1 = Some (JDict fs) ∧ NoDup (keys fs) ∧
                  get e1 fs = None ∧
                  (∀ f, f ∈ keys fs → ∃ src' v', (src', v') ∈ S ∧ tgt src' = [e0; f]))
      as (fs & Hg1 & Hfsnd & Hfree & Hfs).
    { unfold out1, mem. destruct (get e0 out) as [x|] eqn:Hg.
      - destruct (Honly e0 x Hg) as [(src' & Hin & Ht)|(fs & -> & Hne & Hd & Hf)].
        + exfalso. destruct (Hold _ _ Hin) as [Ht' _].
          pose proof (table_targets_compatible src src' Hsrc Ht') as Hc.
          rewrite He, Ht in Hc. by specialize (Hc eq_refl).
        + exists fs. split_and!; [done | done | | done].
          destruct (get e1 fs) eqn:Hg1; [exfalso|done].
          apply get_Some_keys in Hg1. destruct (Hf e1 Hg1) as (src' & v' & Hin & Ht).
          destruct (Hold _ _ Hin) as [Ht' Hn]. apply Hn.
          apply tgt_inj; [done..|congruence].
      - exists []. rewrite get_set_eq. split_and!; [done | apply NoDup_nil_2 | done |].
        intros f Hf. by apply elem_of_nil in Hf. }
    assert (NoDup (keys out1)) as Hnd1.
    { unfold out1. destruct (mem e0 out); [done | by apply NoDup_keys_set]. }
    assert (∀ p, hd "" p ≠ e0 → canonical_get out1 p = canonical_get out p) as Hout1.
    { intros p Hp. unfold out1. destruct (mem e0 out); [done|].
      by apply canonical_get_set_ne. }
    assert (∀ sec, sec ≠ e0 → get sec out1 = get sec out) as Hout1'.
    { intros sec Hp. unfold out1. destruct (mem e0 out); [done|].
      by apply get_set_ne. }
    exists (set e0 (JDict (set e1 v fs)) out1). rewrite He. simpl.
    fold out1. rewrite Hg1. unfold mem at 1. rewrite Hfree.
    split; [done|]. split.
    + by apply NoDup_keys_set.
    + intros src0 v0 Hin. apply elem_of_cons in Hin as [[= -> ->]|Hin].
      * rewrite He. simpl. rewrite get_set_eq. apply get_set_eq.
      * destruct (Hold _ _ Hin) as [Ht0 Hn0]. pose proof (Hval _ _ Hin) as Hv.
        destruct (decide (hd "" (tgt src0) = e0)) as [Hhd|Hhd].
        -- pose proof (table_targets_compatible src src0 Hsrc Ht0) as Hc.
           rewrite He in Hc. simpl in Hc. specialize (Hc (eq_sym Hhd)).
           destruct (tgt src0) as [|s [|f [|??]]] eqn:Et; try done.
           simpl in Hhd. subst s. simpl. rewrite get_set_eq.
           assert (f ≠ e1) as Hf1.
           { intros ->. apply Hn0. apply tgt_inj; [done..|congruence]. }
           rewrite get_set_ne by done.
           simpl in Hv. unfold out1, mem in Hg1.
           destruct (get e0 out) as [x|] eqn:Hg; [|done].
           rewrite Hg in Hg1. injection Hg1 as ->. done.
        -- rewrite canonical_get_set_ne by done. rewrite Hout1 by done. done.
    + intros sec x Hg. destruct (decide (sec = e0)) as [->|Hne].
      * rewrite get_set_eq in Hg. injection Hg as <-. right.
        exists (set e1 v fs). split_and!; [done | | by apply NoDup_keys_set |].
        -- intros E. pose proof (get_set_eq e1 v fs) as Hg. by rewrite E in Hg.
        -- intros f Hfin. apply elem_keys_set in Hfin as [->|Hfin].
           ++ exists src, v. split; [left | done].
           ++ destruct (Hfs f Hfin) as (src' & v' & Hin & Ht).
              exists src', v'. split; [by right | done].
      * rewrite get_set_ne in Hg by done. rewrite Hout1' in Hg by done.
        destruct (Honly sec x Hg) as [(src' & Hin & Ht)|(fs' & -> & Hn & Hd & Hf)].
        -- left. exists src'. split; [by right | done].
        -- right. exists fs'. split_and!; [done..|].
           intros f Hfin. destruct (Hf f Hfin) as (src' & v' & Hin & Ht).
           exists src', v'. split; [by right | done].
Qed.

Lemma table_sources_targets : Forall (λ src, is_Some (target src)) table_sources.
Proof. apply (bool_decide_unpack _). vm_compute. exact I. Qed.

Lemma table_sections :
  Forall (λ src, hd "" (tgt src) ∈ converted_sections) table_sources.
Proof. apply (bool_decide_unpack _). vm_compute. exact I. Qed.

#[local] Opaque conversion.

Lemma table_source_top key q :
  get key conversion = Some (CStr q) →
  (key, None) ∈ table_sources ∧ tgt (key, None) = split_underscore q.
Proof.
  intros Hg. split.
  - apply list_elem_of_join. eexists. split; [|apply list_elem_of_fmap_2, (get_elem _ _ _ Hg)].
    simpl. left.
  - unfold tgt, target. cbn [fst snd]. by rewrite Hg.
Qed.

Lemma table_source_child key tbl ck :
  get key conversion = Some (CDict tbl) → ck ∈ keys tbl →
  (key, Some ck) ∈ table_sources ∧
  ∃ q, get ck tbl = Some (CStr q) ∧ tgt (key, Some ck) = split_underscore q.
Proof.
  intros Hg Hck.
  assert ((key, Some ck) ∈ table_sources) as Hin.
  { apply list_elem_of_join. eexists. split; [|apply list_elem_of_fmap_2, (get_elem _ _ _ Hg)].
    simpl. by apply (list_elem_of_fmap_2 (λ ck, (key, Some ck))). }
  split; [done|].
  pose proof table_sources_targets as H. rewrite Forall_forall in H.
  destruct (H _ Hin) as [p Hp]. unfold tgt. rewrite Hp.
  unfold target in Hp. cbn [fst snd] in Hp. rewrite Hg in Hp.
  destruct (get ck tbl) as [[q|?]|]; try done. exists q. split; [done|].
  by injection Hp as <-.
Qed.

Lemma convert_children_converted tbl key cs : ∀ S out,
  get key conversion = Some (CDict tbl) →
  converted S out →
  (∀ s, s ∈ S.*1 → s ∈ table_sources) →
  NoDup (keys cs) →
  (∀ ck, ck ∈ keys cs → ck ∈ keys tbl) →
  (∀ ck, ck ∈ keys cs → (key, Some ck) ∉ S.*1) →
  ∃ out', convert_children tbl key cs out = Ok out' ∧
          converted (children_writes key cs ++ S) out'.
Proof.
  induction cs as [|[ck cv] cs IH]; intros S out Hg Hc HS Hnd Htbl Hfresh.
  - exists out. done.
  - simpl in Hnd. apply NoDup_cons in Hnd as [Hck Hnd].
    destruct (table_source_child key tbl ck Hg) as (Hin & q & Hq & Ht);
      [apply Htbl; left|].
    destruct (store_converted S out (key, Some ck) cv ck key Hc HS Hin)
      as (out1 & Hs & Hc1); [apply Hfresh; left|].
    destruct (IH ((key, Some ck, cv) :: S) out1) as (out' & Hr & Hc');
      [done | done | | done | | |].
    + intros s Hs'. simpl in Hs'. apply elem_of_cons in Hs' as [->|Hs']; auto.
    + intros ck' Hck'. apply Htbl. by right.
    + intros ck' Hck' Hin'. simpl in Hin'. apply elem_of_cons in Hin' as [[= ->]|Hin'].
      * done.
      * eapply Hfresh; [|done]. by right.
    + exists out'. simpl. rewrite Hq. rewrite <- Ht, Hs. simpl. split; [done|].
      eapply converted_weaken; [|done]. intros x. simpl.
      rewrite !elem_of_app, !elem_of_cons, elem_of_app. tauto.
Qed.

Lemma children_writes_sources key cs s :
  s ∈ (children_writes key cs).*1 → ∃ ck, s = (key, Some ck) ∧ ck ∈ keys cs.
Proof.
  unfold children_writes. rewrite <- list_fmap_compose.
  intros (cv & -> & Hin)%list_elem_of_fmap. exists cv.1. split; [done|].
  by apply list_elem_of_fmap_2.
Qed.

Lemma key_writes_sources key value s :
  migratable (key, value) → s ∈ (key_writes key value).*1 →
  s.1 = key ∧ s ∈ table_sources.
Proof.
  intros [Hk Hn]. unfold key_writes. simpl in *.
  destruct (get key conversion) as [[q|tbl]|] eqn:Hg.
  - simpl. intros ->%list_elem_of_singleton. split; [done|].
    by apply (table_source_top key q).
  - destruct (Hn tbl eq_refl) as (cs & -> & Hnd & Hsub).
    intros (ck & -> & Hck)%children_writes_sources. split; [done|].
    apply (table_source_child key tbl ck); [done | by apply Hsub].
  - intros H. by apply elem_of_nil in H.
Qed.

Lemma convert_key_converted key value S out :
  migratable (key, value) →
  converted S out →
  (∀ s, s ∈ S.*1 → s ∈ table_sources) →
  (∀ s, s ∈ S.*1 → s.1 ≠ key) →
  ∃ out', convert_key key value out = Ok out' ∧
          converted (key_writes key value ++ S) out'.
Proof.
  intros [Hk Hn] Hc HS Hfresh. simpl in *. unfold convert_key, key_writes.
  destruct (get key conversion) as [[q|tbl]|] eqn:Hg.
  - destruct (table_source_top key q Hg) as [Hin Ht].
    destruct (store_converted S out (key, None) value key key Hc HS Hin)
      as (out' & Hs & Hc').
    { intros Hin'. by apply (Hfresh _ Hin'). }
    exists out'. by rewrite <- Ht.
  - destruct (Hn tbl eq_refl) as (cs & -> & Hnd & Hsub).
    apply convert_children_converted; try done.
    intros ck _ Hin'. by apply (Hfresh _ Hin').
  - apply get_None in Hg. done.
Qed.

Lemma convert_keys_converted items : ∀ S out,
  NoDup (keys items) →
  Forall migratable items →
  converted S out →
  (∀ s, s ∈ S.*1 → s ∈ table_sources) →
  (∀ s, s ∈ S.*1 → s.1 ∉ keys items) →
  ∃ out', convert_keys items out = Ok out' ∧
          converted (all_writes items ++ S) out'.
Proof.
  induction items as [|[key value] items IH]; intros S out Hnd Hm Hc HS Hfresh.
  - exists out. done.
  - simpl in Hnd. apply NoDup_cons in Hnd as [Hkey Hnd].
    apply Forall_cons in Hm as [Hm1 Hm].
    destruct (convert_key_converted key value S out Hm1 Hc HS) as (out1 & H1 & Hc1).
    { intros s Hs Heq. apply (Hfresh _ Hs). rewrite Heq. left. }
    destruct (IH (key_writes key value ++ S)%list out1 Hnd Hm Hc1) as (out' & Hr & Hc').
    + intros s. rewrite fmap_app, elem_of_app. intros [Hs|Hs]; [|by apply HS].
      by apply (key_writes_sources key value).
    + intros s. rewrite fmap_app, elem_of_app. intros [Hs|Hs].
      * destruct (key_writes_sources key value s Hm1 Hs) as [Heq _].
        by rewrite Heq.
      * intros Hin. apply (Hfresh _ Hs). by right.
    + exists out'. simpl. rewrite H1. simpl. split; [done|].
      eapply converted_weaken; [|done]. intros x. unfold all_writes. simpl.
      rewrite !elem_of_app. tauto.
Qed.

#[local] Transparent conversion.

Lemma legacy_keys_mapped : Forall (λ k, k ∈ keys conversion) vetr_2_0_0_keys.
Proof. apply (bool_decide_unpack _). vm_compute. exact I. Qed.

Lemma converted_sections_canonical :
  Forall (λ s, s ∈ vetr_2_0_8_keys ∧ s ≠ "apic" ∧ s ≠ "apps") converted_sections.
Proof. apply (bool_decide_unpack _). vm_compute. exact I. Qed.

(** The legacy key that fills each of the sections every export has. *)
Lemma always_sections_filled :
  Forall (λ s, ∃ key q, key ∈ vetr_2_0_0_keys ∧
                        get key conversion = Some (CStr q) ∧
                        hd "" (split_underscore q) = s) always_sections.
Proof.
  repeat apply Forall_cons_2; [..|apply Forall_nil_2].
  - exists "meta", "meta". split_and!; [|done..]. by apply str_in_elem.
  - exists "firmware", "admin_firmwareVersion". split_and!; [|done..]. by apply str_in_elem.
  - exists "ipAging", "system_ipAging". split_and!; [|done..]. by apply str_in_elem.
  - exists "fabricStats", "stats_fabric". split_and!; [|done..]. by apply str_in_elem.
  - exists "dom", "fabric_dom". split_and!; [|done..]. by apply str_in_elem.
  - exists "vzAny", "tenant_vzAny". split_and!; [|done..]. by apply str_in_elem.
  - exists "health", "health". split_and!; [|done..]. by apply str_in_elem.
  - exists "ssd", "faults_ssd". split_and!; [|done..]. by apply str_in_elem.
Qed.

Lemma all_writes_top vetr_data key value q :
  get key vetr_data = Some value → get key conversion = Some (CStr q) →
  ((key, None), value) ∈ all_writes vetr_data.
Proof.
  intros Hg Hq. apply list_elem_of_join. exists (key_writes key value). split.
  - unfold key_writes. rewrite Hq. left.
  - apply (list_elem_of_fmap_2 (λ kv : string * json, key_writes kv.1 kv.2)
             _ (key, value)).
    by apply get_elem.
Qed.

Lemma all_writes_child vetr_data key children tbl ck cv :
  get key vetr_data = Some (JDict children) →
  get key conversion = Some (CDict tbl) →
  get ck children = Some cv →
  ((key, Some ck), cv) ∈ all_writes vetr_data.
Proof.
  intros Hg Hq Hc. apply list_elem_of_join.
  exists (key_writes key (JDict children)). split.
  - unfold key_writes. rewrite Hq.
    apply (list_elem_of_fmap_2 (λ cv : string * json, ((key, Some cv.1), cv.2))
             _ (ck, cv)).
    by apply get_elem.
  - apply (list_elem_of_fmap_2 (λ kv : string * json, key_writes kv.1 kv.2)
             _ (key, JDict children)).
    by apply get_elem.
Qed.

Lemma all_writes_sources vetr_data s :
  Forall migratable vetr_data → s ∈ (all_writes vetr_data).*1 →
  s ∈ table_sources.
Proof.
  intros Hm (sv & -> & Hin)%list_elem_of_fmap.
  apply list_elem_of_join in Hin as (ws & Hin & Hws).
  apply list_elem_of_fmap in Hws as ([key value] & -> & Hkv).
  rewrite Forall_forall in Hm. specialize (Hm _ Hkv).
  apply (key_writes_sources key value); [done|].
  by apply list_elem_of_fmap_2.
Qed.

(** C1: for a legacy export whose nested keys hold mappings of mapped child
    keys, the migration returns; the keys of the result are distinct
    canonical keys, the sections [meta], [admin], [system], [stats],
    [fabric], [tenant], [health] and [faults] among them and [apic] and
    [apps] never; every legacy value is found unchanged at the location
    the table gives for it. *)
Theorem vetr_convert_dataformat_legacy (vetr_data : pydict json) :
  NoDup (keys vetr_data) →
  same_keys (keys vetr_data) vetr_2_0_0_keys →
  well_nested vetr_data →
  ∃ out,
    vetr_convert_dataformat vetr_data = Ok out ∧
    NoDup (keys out) ∧
    (∀ s, s ∈ keys out → s ∈ vetr_2_0_8_keys) ∧
    ("apic" ∉ keys out) ∧ ("apps" ∉ keys out) ∧
    (∀ s, s ∈ always_sections → s ∈ keys out) ∧
    (∀ key value q,
       get key vetr_data = Some value →
       get key conversion = Some (CStr q) →
       canonical_get out (split_underscore q) = Some value) ∧
    (∀ key children tbl child_key value q,
       get key vetr_data = Some (JDict children) →
       get key conversion = Some (CDict tbl) →
       get child_key children = Some value →
       get child_key tbl = Some (CStr q) →
       canonical_get out (split_underscore q) = Some value).
Proof.
  intros Hnd Hkeys Hnested.
  assert (Forall migratable vetr_data) as Hm.
  { apply Forall_forall. intros [key value] Hin. split; simpl.
    - pose proof legacy_keys_mapped as H. rewrite Forall_forall in H.
      apply H, Hkeys. by apply (list_elem_of_fmap_2 fst _ (key, value)).
    - intros tbl Ht. apply (Hnested key value tbl); [|done].
      by apply elem_get. }
  destruct (convert_keys_converted vetr_data [] [] Hnd Hm converted_nil)
    as (out & Hout & Hc).
  { intros s H. by apply elem_of_nil in H. }
  { intros s H. by apply elem_of_nil in H. }
  rewrite app_nil_r in Hc. destruct Hc as [Hc1 Hc2 Hc3].
  assert (∀ s, s ∈ keys out → s ∈ converted_sections) as Hsec.
  { intros s Hs. destruct (get_is_Some _ _ Hs) as [x Hx].
    pose proof table_sections as Hts. rewrite Forall_forall in Hts.
    destruct (Hc3 s x Hx) as [(src & Hin & Ht)|(fs & -> & Hne & _ & Hf)].
    - assert (src ∈ table_sources) as Hsrc.
      { apply (all_writes_sources vetr_data); [done|].
        by apply (list_elem_of_fmap_2 fst _ (src, x)). }
      specialize (Hts _ Hsrc). by rewrite Ht in Hts.
    - destruct fs as [|[f fv] fs]; [done|].
      destruct (Hf f) as (src & v & Hin & Ht); [left|].
      assert (src ∈ table_sources) as Hsrc.
      { apply (all_writes_sources vetr_data); [done|].
        by apply (list_elem_of_fmap_2 fst _ (src, v)). }
      specialize (Hts _ Hsrc). by rewrite Ht in Hts. }
  pose proof converted_sections_canonical as Hcanon.
  rewrite Forall_forall in Hcanon.
  exists out. split_and!; [done | done | | | | | |].
  - intros s Hs. by apply Hcanon, Hsec.
  - intros Hs. apply Hsec, Hcanon in Hs. by destruct Hs as (_ & ? & _).
  - intros Hs. apply Hsec, Hcanon in Hs. by destruct Hs as (_ & _ & ?).
  - intros s Hs. pose proof always_sections_filled as Ha.
    rewrite Forall_forall in Ha. destruct (Ha s Hs) as (key & q & Hk & Hq & <-).
    apply Hkeys in Hk. destruct (get_is_Some _ _ Hk) as [value Hv].
    pose proof (Hc2 _ _ (all_writes_top _ _ _ _ Hv Hq)) as Hg.
    destruct (table_source_top key q Hq) as [_ Ht]. rewrite Ht in Hg.
    by apply canonical_get_hd in Hg.
  - intros key value q Hv Hq.
    pose proof (Hc2 _ _ (all_writes_top _ _ _ _ Hv Hq)) as Hg.
    destruct (table_source_top key q Hq) as [_ Ht]. by rewrite Ht in Hg.
  - intros key children tbl ck value q Hv Hq Hc Hck.
    pose proof (Hc2 _ _ (all_writes_child _ _ _ _ _ _ Hv Hq Hc)) as Hg.
    destruct (table_source_child key tbl ck Hq) as (_ & q' & Hq' & Ht).
    { by eapply get_Some_keys. }
    rewrite Ht in Hg. congruence.
Qed.

Lemma legacy_example_well_nested : well_nested legacy_example.
Proof.
  intros key value tbl Hv Ht. apply get_elem in Hv.
  repeat (apply elem_of_cons in Hv as [[= -> ->]|Hv]);
    try (by apply elem_of_nil in Hv);
    vm_compute in Ht; try discriminate; injection Ht as <-;
    (eexists; split_and!;
     [reflexivity
     | apply (bool_decide_unpack _); vm_compute; exact I
     | intros ck Hck; apply str_in_elem in Hck; apply str_in_elem;
       revert Hck; simpl;
       repeat (destruct (String.eqb_spec ck _) as [->|_]; [by intros _|]);
       done ]).
Qed.

Lemma vetr_convert_dataformat_legacy_witness :
  ∃ out,
    vetr_convert_dataformat legacy_example = Ok out ∧
    canonical_get out ["admin"; "firmwareVersion"] = Some (JStr "4.2(7f)") ∧
    canonical_get out ["fabric"; "mcpGlobal"] = Some (JNum 13).
Proof.
  assert (NoDup (keys legacy_example)) as Hnd
    by (apply (bool_decide_unpack _); vm_compute; exact I).
  assert (same_keys (keys legacy_example) vetr_2_0_0_keys) as Hk
    by (intros k; reflexivity).
  destruct (vetr_convert_dataformat_legacy legacy_example Hnd Hk
              legacy_example_well_nested)
    as (out & Hout & _ & _ & _ & _ & _ & Htop & Hchild).
  exists out. split_and!; [done | |].
  - apply (Htop "firmware" _ "admin_firmwareVersion"); reflexivity.
  - eapply (Hchild "mcp" _ _ "global" _ "fabric_mcpGlobal"); reflexivity.
Defined.

(** C1, as stated, fails: the migrated export has no [apic] and no [apps]
    section, so its key set is not the canonical one. *)
Lemma legacy_export_lacks_canonical_sections :
  ∃ out, vetr_convert_dataformat legacy_example = Ok out ∧
         ¬ same_keys (keys out) vetr_2_0_8_keys.
Proof.
  eexists. split; [vm_compute; reflexivity|].
  intros H. assert ("apic" ∈ vetr_2_0_8_keys) as Hin by (by apply str_in_elem).
  apply H, str_in_elem in Hin. vm_compute in Hin. discriminate.
Qed.

(** ** Recommendation path extractor *)

(** C6: for a marker record inside a sequence the yielded path holds, behind
    the key of the sequence, the record itself where the index of the
    record in the sequence belongs. *)
Theorem extractor_path_holds_sequence_element :
  get_nested_dict_entries_containing_key marker_in_sequence "m"
  = [ ([PKey "a"; PElem (JDict [("m", JBool true)])],
       JDict [("m", JBool true)]) ].
Proof. reflexivity. Qed.

(** ** What the extractor yields *)

Lemma json_nested_ind (P : json → Prop) :
  P JNull → (∀ b, P (JBool b)) → (∀ n, P (JNum n)) → (∀ s, P (JStr s)) →
  (∀ l, Forall P l → P (JList l)) →
  (∀ d, Forall (λ kv, P kv.2) d → P (JDict d)) →
  ∀ j, P j.
Proof.
  intros HN HB HZ HS HL HD. fix IH 1.
  intros [|b|n|s|l|d];
    [exact HN | apply HB | apply HZ | apply HS | apply HL | apply HD].
  - revert l. fix IHl 1. intros [|x l]; constructor; [apply IH | apply IHl].
  - revert d. fix IHd 1. intros [|[k v] d]; constructor; [apply IH | apply IHd].
Qed.

Lemma walk_dict key d path :
  walk (JDict d) key path =
  if mem key d then ([(path, JDict d)], pop path)
  else ((walk_items key d path).1, pop (walk_items key d path).2).
Proof.
  change (walk (JDict d) key path) with
    (let '(yielded, path') :=
       if mem key d then ([(path, JDict d)], path) else walk_items key d path in
     (yielded, pop path')).
  destruct (mem key d); [done|]. by destruct (walk_items key d path).
Qed.

Lemma walk_list key l path :
  walk (JList l) key path =
  ((walk_elems key l path).1, pop (walk_elems key l path).2).
Proof.
  change (walk (JList l) key path) with
    (let '(yielded, path') := walk_elems key l path in (yielded, pop path')).
  by destruct (walk_elems key l path).
Qed.

Lemma pop_app path x : pop (path ++ [x]) = path.
Proof. apply removelast_last. Qed.

(** The path buffer is unwound when the generator is exhausted: a call
    leaves it without its last element, the one its caller appended. *)
Lemma walk_buffer key : ∀ var path, (walk var key path).2 = pop path.
Proof.
  induction var as [|b|n|s|l IH|d IH] using json_nested_ind; intros path;
    try done.
  - rewrite walk_list. simpl. f_equal. revert path.
    induction IH as [|e l He _ IHl]; intros path; simpl; [done|].
    specialize (He (path ++ [PElem e])%list). rewrite pop_app in He.
    destruct (walk e key (path ++ [PElem e])) as [ys1 p1]. simpl in He. subst p1.
    specialize (IHl path). by destruct (walk_elems key l path).
  - rewrite walk_dict. destruct (mem key d); [done|]. simpl. f_equal.
    revert path.
    induction IH as [|[k v] d Hv _ IHd]; intros path; simpl; [done|].
    simpl in Hv. specialize (Hv (path ++ [PKey k])%list). rewrite pop_app in Hv.
    specialize (IHd path).
    destruct v; try done;
      destruct (walk _ key (path ++ [PKey k])) as [ys1 p1]; simpl in Hv;
      subst p1; by destruct (walk_items key d path).
Qed.

(** After a top-level call the buffer is empty again. *)
Corollary walk_buffer_top var key : (walk var key []).2 = [].
Proof. by rewrite walk_buffer. Qed.

(** A record that holds the marker key is yielded once, with the path as
    it stands, and nothing inside it is searched. *)
Lemma walk_matched key d path :
  mem key d = true → (walk (JDict d) key path).1 = [(path, JDict d)].
Proof. intros H. by rewrite walk_dict, H. Qed.

(** Nothing is yielded where the marker key occurs nowhere. *)
Lemma walk_unmarked key : ∀ var path,
  marked key var = false → (walk var key path).1 = [].
Proof.
  induction var as [|b|n|s|l IH|d IH] using json_nested_ind; intros path;
    try done.
  - rewrite walk_list. simpl. revert path.
    induction IH as [|e l He _ IHl]; intros path Hm; simpl; [done|].
    apply orb_false_iff in Hm as [Hm1 Hm2].
    specialize (He (path ++ [PElem e])%list Hm1).
    pose proof (walk_buffer key e (path ++ [PElem e])%list) as Hb.
    rewrite pop_app in Hb.
    destruct (walk e key (path ++ [PElem e])) as [ys1 p1]. simpl in *.
    subst ys1 p1. specialize (IHl path Hm2).
    by destruct (walk_elems key l path).
  - rewrite walk_dict. simpl. destruct (mem key d); [done|]. simpl.
    revert path.
    induction IH as [|[k v] d Hv _ IHd]; intros path Hm; simpl; [done|].
    apply orb_false_iff in Hm as [Hm1 Hm2]. simpl in Hv.
    specialize (Hv (path ++ [PKey k])%list Hm1).
    pose proof (walk_buffer key v (path ++ [PKey k])%list) as Hb.
    rewrite pop_app in Hb. specialize (IHd path Hm2).
    destruct v; try done;
      destruct (walk _ key (path ++ [PKey k])) as [ys1 p1]; simpl in *;
      subst ys1 p1; by destruct (walk_items key d path).
Qed.

(** Every yielded record holds the marker key, and its path is the path of
    the call followed by the keys and the sequence elements passed on the
    way down to the record. *)
Lemma walk_yields key : ∀ var path p r,
  (p, r) ∈ (walk var key path).1 →
  (∃ d, r = JDict d ∧ mem key d = true) ∧
  ∃ q, p = (path ++ q)%list ∧ reaches key var q r.
Proof.
  induction var as [|b|n|s|l IH|d IH] using json_nested_ind;
    intros path p r; try (by intros H; apply elem_of_nil in H).
  - rewrite walk_list. simpl. revert path.
    induction IH as [|e l He _ IHl]; intros path; simpl.
    { intros H. by apply elem_of_nil in H. }
    pose proof (walk_buffer key e (path ++ [PElem e])%list) as Hb.
    rewrite pop_app in Hb. specialize (He (path ++ [PElem e])%list p r).
    destruct (walk e key (path ++ [PElem e])) as [ys1 p1]. simpl in *.
    subst p1. specialize (IHl path).
    destruct (walk_elems key l path) as [ys2 p2]. simpl in *.
    intros [Hin|Hin]%elem_of_app.
    + destruct (He Hin) as [Hr (q & -> & Hq)]. split; [done|].
      exists (PElem e :: q). rewrite <- app_assoc. split; [done|].
      apply reaches_elem; [left | done].
    + destruct (IHl Hin) as [Hr (q & -> & Hq)]. split; [done|].
      exists q. split; [done|]. inversion Hq; subst.
      * by destruct Hr as (? & ? & _).
      * apply reaches_elem; [by right | done].
  - rewrite walk_dict. destruct (mem key d) eqn:Hmem; simpl.
    { intros [= -> ->]%list_elem_of_singleton. split; [by exists d|].
      exists []. rewrite app_nil_r. split; [done | constructor]. }
    assert (∀ d0, (∀ kv, kv ∈ d0 → kv ∈ d) →
              Forall (λ kv : string * json,
                 ∀ path p r, (p, r) ∈ (walk kv.2 key path).1 →
                   (∃ d, r = JDict d ∧ mem key d = true) ∧
                   ∃ q, p = (path ++ q)%list ∧ reaches key kv.2 q r) d0 →
              ∀ path, (p, r) ∈ (walk_items key d0 path).1 →
                (∃ d1, r = JDict d1 ∧ mem key d1 = true) ∧
                ∃ q, p = (path ++ q)%list ∧ reaches key (JDict d) q r) as Hgen.
    { clear IH. intros d0 Hsub IH.
      induction IH as [|[k v] d0 Hv _ IHd]; intros path0; simpl.
      { intros H. by apply elem_of_nil in H. }
      pose proof (walk_buffer key v (path0 ++ [PKey k])%list) as Hb.
      rewrite pop_app in Hb. simpl in Hv.
      specialize (Hv (path0 ++ [PKey k])%list p r).
      assert (∀ kv, kv ∈ d0 → kv ∈ d) as Hsub' by (intros kv ?; apply Hsub; by right).
      specialize (IHd Hsub' path0).
      assert ((p, r) ∈ (walk v key (path0 ++ [PKey k])).1 →
              (∃ d1, r = JDict d1 ∧ mem key d1 = true) ∧
              ∃ q, p = (path0 ++ q)%list ∧ reaches key (JDict d) q r) as Hhead.
      { intros Hin. destruct (Hv Hin) as [Hr (q & -> & Hq)]. split; [done|].
        exists (PKey k :: q). rewrite <- app_assoc. split; [done|].
        apply (reaches_key key d k v); [done | apply Hsub; left | done]. }
      destruct v; try done;
        destruct (walk _ key (path0 ++ [PKey k])) as [ys1 p1]; simpl in *;
        subst p1; destruct (walk_items key d0 path0) as [ys2 p2]; simpl in *;
        intros [Hin|Hin]%elem_of_app; auto. }
    by apply Hgen.
Qed.

Lemma walk_items_elem key d path k v p r :
  (k, v) ∈ d → (p, r) ∈ (walk v key (path ++ [PKey k])).1 →
  (∃ d', v = JDict d') ∨ (∃ l, v = JList l) →
  (p, r) ∈ (walk_items key d path).1.
Proof.
  intros Hin Hy Hv. induction d as [|[k0 v0] d IH]; simpl.
  { by apply elem_of_nil in Hin. }
  pose proof (walk_buffer key v0 (path ++ [PKey k0])%list) as Hb.
  rewrite pop_app in Hb.
  apply elem_of_cons in Hin as [[= <- <-]|Hin].
  - destruct Hv as [[d' ->]|[l ->]];
      destruct (walk _ key (path ++ [PKey k])) as [ys1 p1]; simpl in *;
      subst p1; destruct (walk_items key d path) as [ys2 p2]; simpl;
      apply elem_of_app; by left.
  - specialize (IH Hin).
    destruct v0; try done;
      destruct (walk _ key (path ++ [PKey k0])) as [ys1 p1]; simpl in *;
      subst p1; destruct (walk_items key d path) as [ys2 p2]; simpl in *;
      apply elem_of_app; by right.
Qed.

Lemma walk_elems_elem key l path e p r :
  e ∈ l → (p, r) ∈ (walk e key (path ++ [PElem e])).1 →
  (p, r) ∈ (walk_elems key l path).1.
Proof.
  intros Hin Hy. induction l as [|e0 l IH]; simpl.
  { by apply elem_of_nil in Hin. }
  pose proof (walk_buffer key e0 (path ++ [PElem e0])%list) as Hb.
  rewrite pop_app in Hb.
  apply elem_of_cons in Hin as [<-|Hin].
  - destruct (walk e key (path ++ [PElem e])) as [ys1 p1]; simpl in *.
    subst p1. destruct (walk_elems key l path) as [ys2 p2]; simpl.
    apply elem_of_app. by left.
  - specialize (IH Hin).
    destruct (walk e0 key (path ++ [PElem e0])) as [ys1 p1]; simpl in *.
    subst p1. destruct (walk_elems key l path) as [ys2 p2]; simpl in *.
    apply elem_of_app. by right.
Qed.

(** Every record with the marker key that is not inside another such
    record is yielded. *)
Lemma walk_complete key var q r d :
  reaches key var q r → r = JDict d → mem key d = true →
  ∀ path, ((path ++ q)%list, r) ∈ (walk var key path).1.
Proof.
  intros Hr Hd Hm.
  induction Hr as [j|d0 k v q r Hd0 Hin Hr IH|l e q r Hin Hr IH]; intros path.
  - subst j. rewrite app_nil_r, walk_matched by done. left.
  - rewrite walk_dict, Hd0. simpl.
    apply (walk_items_elem key d0 path k v); [done | |].
    + specialize (IH Hd (path ++ [PKey k])%list).
      by rewrite <- app_assoc in IH.
    + subst r. inversion Hr; subst; eauto.
  - rewrite walk_list. simpl.
    apply (walk_elems_elem key l path e); [done|].
    specialize (IH Hd (path ++ [PElem e])%list).
    by rewrite <- app_assoc in IH.
Qed.

(** ** Job monitor *)

Lemma monitor_loop_absent jobname retry_count listings : ∀ sleeps,
  (retry_count < max_retry_count)%nat →
  Forall (λ entries, find_status jobname entries = None) listings →
  monitor_loop jobname retry_count sleeps listings
  = StillPolling retry_count (sleeps + length listings).
Proof.
  induction listings as [|entries listings IH]; intros sleeps Hr Habs; simpl.
  - by rewrite Nat.add_0_r.
  - apply Forall_cons in Habs as [Hnone Habs].
    unfold monitor_round. rewrite Hnone.
    destruct (Nat.ltb_spec retry_count max_retry_count) as [_|?]; [|lia].
    rewrite IH by done. f_equal. lia.
Qed.

(** C3: as long as the job is absent from the listings, the monitor sleeps
    and polls again with its retry counter at zero; it has not exited
    after any number of absent polls. *)
Theorem ndi_monitor_absent_job_never_fatal (jobname : string)
    (listings : list (list job_entry)) :
  Forall (λ entries, find_status jobname entries = None) listings →
  nae_monitor_analysis jobname listings = StillPolling 0 (length listings).
Proof.
  intros H. unfold nae_monitor_analysis.
  rewrite monitor_loop_absent; [done | unfold max_retry_count; lia | done].
Qed.

Lemma ndi_monitor_absent_job_never_fatal_witness :
  nae_monitor_analysis "job-2" (replicate 7 other_job_listing)
  = StillPolling 0 7.
Proof.
  apply (ndi_monitor_absent_job_never_fatal "job-2"
           (replicate 7 other_job_listing)).
  repeat constructor.
Defined.

(** The job absent for five polls and completed at the sixth. *)
Example ndi_monitor_found_at_sixth_poll :
  nae_monitor_analysis "job-2"
    (replicate 5 other_job_listing ++ [completed_listing "job-2"])
  = Returned 5.
Proof. reflexivity. Qed.

(** ** Pagination *)

Lemma total_page_count_ceiling (total : Z) :
  (total_page_count total * 100 - 100 < total ≤ total_page_count total * 100)%Z.
Proof.
  unfold total_page_count, max_response_count.
  pose proof (Z.div_mod (- total) 100 ltac:(lia)).
  pose proof (Z.mod_pos_bound (- total) 100 ltac:(lia)). lia.
Qed.

(** The page counter advances by the number of events of the page. *)
Lemma next_page_events_counter evs : ∀ output current,
  (next_page_events evs output current).2 = (current + Z.of_nat (length evs))%Z.
Proof.
  induction evs as [|ev evs IH]; intros output current; simpl.
  - lia.
  - rewrite IH. lia.
Qed.

(** C5: with 250 results declared the page count is 3, but the retrieval
    asks for the offsets 0 and 100 only and returns without the events
    from offset 200 on. *)
Theorem ndi_summary_250_requests_two_pages :
  total_page_count 250 = 3%Z ∧
  ∃ output,
    ndi_get_smart_events_summary 10 (paged_service 250)
    = Some {| result := Ok (true, output); requested := [0%Z; 100%Z] |} ∧
    length output = 200%nat ∧
    mem "nae_EVENT_199" output = true ∧
    mem "nae_EVENT_200" output = false.
Proof.
  split; [reflexivity|]. eexists. split; [vm_compute; reflexivity|].
  split_and!; vm_compute; reflexivity.
Qed.

(** ** Merge of the findings *)

Lemma flags_lookup vetr nae ssd m k :
  k ∉ flag_keys → flags vetr nae ssd m !! k = m !! k.
Proof.
  intros Hk. unfold flags.
  rewrite !lookup_insert_ne; [done|..]; intros <-; apply Hk;
    apply str_in_elem; reflexivity.
Qed.

Lemma dict_update_lookup d e k :
  dict_update d e !! k = match e !! k with Some x => Some x | None => d !! k end.
Proof.
  unfold dict_update. rewrite lookup_union.
  by destruct (e !! k), (d !! k).
Qed.

(** C2: the merge fails only when no source is enabled; a key of the
    merged findings, the three flags apart, has the value of the last
    merged source that holds it (SSD after NAE after vetR).  With no key
    in two sources this is their union; with a key in two sources the
    later value replaces the earlier one and nothing is reported. *)
Theorem combine_findings_last_wins (enable_vetr enable_nae enable_ssd : bool)
    (vetR_audit_output nae_audit_output ssd_audit_output : gmap string fvalue) :
  ∃ combined,
    combine_findings enable_vetr enable_nae enable_ssd
      vetR_audit_output nae_audit_output ssd_audit_output
    = (if enable_vetr || enable_nae || enable_ssd then Ok combined
       else Exit AllInputsDisabled) ∧
    ∀ k, k ∉ flag_keys →
      combined !! k
      = last_wins k (enabled enable_vetr vetR_audit_output)
          (enabled enable_nae nae_audit_output)
          (enabled enable_ssd ssd_audit_output).
Proof.
  unfold combine_findings, last_wins, enabled.
  destruct enable_vetr, enable_nae, enable_ssd; cbn [andb orb];
    try (exists ∅; split; [reflexivity|]; intros k _; by rewrite !lookup_empty);
    (eexists; split; [reflexivity|]); intros k Hk;
    rewrite flags_lookup by exact Hk; rewrite ?dict_update_lookup;
    rewrite ?lookup_empty;
    repeat match goal with
           | |- context [ ?m !! k ] => destruct (m !! k)
           end; reflexivity.
Qed.

Lemma combine_findings_last_wins_witness :
  ∃ combined,
    combine_findings true true false
      {[ "vetR_a" := failed_render "first" ]}
      {[ "nae_b" := failed_render "second" ]} ∅
    = Ok combined ∧
    combined !! "vetR_a" = Some (failed_render "first") ∧
    combined !! "nae_b" = Some (failed_render "second").
Proof.
  destruct (combine_findings_last_wins true true false
              {[ "vetR_a" := failed_render "first" ]}
              {[ "nae_b" := failed_render "second" ]} ∅)
    as (combined & Hc & Hk).
  exists combined. split; [exact Hc|]. split.
  - rewrite Hk.
    + unfold last_wins, enabled. rewrite lookup_empty.
      rewrite lookup_singleton_ne by done. by rewrite lookup_singleton_eq.
    + intros H. apply str_in_elem in H. vm_compute in H. discriminate.
  - rewrite Hk.
    + unfold last_wins, enabled. rewrite lookup_empty.
      by rewrite lookup_singleton_eq.
    + intros H. apply str_in_elem in H. vm_compute in H. discriminate.
Defined.

(** C2, as stated, fails: two sources with the same key are merged without
    an error, and the value of the first one is gone. *)
Lemma merge_overlap_overwrites :
  ∃ combined,
    combine_findings true true false
      {[ "nae_x" := failed_render "first" ]}
      {[ "nae_x" := failed_render "second" ]} ∅
    = Ok combined ∧
    combined !! "nae_x" = Some (failed_render "second").
Proof.
  eexists. split; [reflexivity|].
  rewrite flags_lookup.
  - rewrite dict_update_lookup. by rewrite lookup_singleton_eq.
  - intros H. apply str_in_elem in H. vm_compute in H. discriminate.
Qed.

(** ** Text report analyzer *)

Lemma after_literal_Some p : ∀ s r, after_literal p s = Some r → s = p ++ r.
Proof.
  induction p as [|a p IH]; intros s r; simpl.
  - by intros [= ->].
  - destruct s as [|b s]; [done|].
    destruct (Ascii.eqb_spec a b) as [->|]; [|done].
    intros H. by rewrite (IH _ _ H).
Qed.

Section AnalyzerFacts.

Context {F : Type}.
Variable float : string → option F.
Variable ge_major : F → bool.
Variable ge_critical : F → bool.

Abbreviation check := (check_thresholds ge_major ge_critical).
Abbreviation evaluate := (evaluate_usage ge_major ge_critical).
Abbreviation line_step := (ssd_line float ge_major ge_critical).
Abbreviation lines_run := (ssd_lines float ge_major ge_critical).
Abbreviation analyze := (ssd_analyze_output float ge_major ge_critical).

(** What one pair of threshold checks does to the three fields. *)
Lemma check_thresholds_effect n u a :
  ((critical (check n u a) = critical a ∧
    (ge_critical u = true → n ∈ critical a))
   ∨ (critical (check n u a) = (critical a ++ [n])%list ∧
      (n ∉ critical a) ∧ ge_critical u = true)) ∧
  (major (check n u a) = major a
   ∨ (major (check n u a) = (major a ++ [n])%list ∧ (n ∉ major a) ∧
      (n ∉ critical (check n u a)) ∧ ge_major u = true)) ∧
  actionRecommended (check n u a)
  = actionRecommended a || ge_critical u || ge_major u.
Proof.
  assert (str_in n (critical a ++ [n]) = true) as Sapp
    by (apply str_in_elem, elem_of_app; right; left).
  unfold check_thresholds.
  destruct (decide (n ∈ critical a)) as [Hc|Hc];
    [pose proof (proj2 (str_in_elem _ _) Hc) as Sc
    |pose proof (proj2 (str_in_not_elem _ _) Hc) as Sc];
    (destruct (decide (n ∈ major a)) as [Hm|Hm];
     [pose proof (proj2 (str_in_elem _ _) Hm) as Sm
     |pose proof (proj2 (str_in_not_elem _ _) Hm) as Sm]);
    destruct (ge_critical u) eqn:Ec, (ge_major u) eqn:Em; simpl;
    rewrite ?Sc, ?Sm, ?Sapp; simpl; rewrite ?Sc, ?Sm, ?Sapp; simpl;
    rewrite ?orb_true_r, ?orb_false_r;
    (split_and!; [ first [ by left | by right ]
                 | first [ by left | by right ]
                 | done ]).
Qed.










(** A line either fails in [float] or leaves a state. *)
Lemma ssd_line_outcome st raw :
  line_step st raw = Raise ValueError ∨ ∃ st', line_step st raw = Ok st'.
Proof.
  destruct st as [usage action]. unfold ssd_line.
  destruct (startswith "Node:" (strip raw)).
  { destruct (re_node (strip raw)); eauto. }
  destruct (startswith "Model:" (strip raw)).
  { destruct (re_model (strip raw)), usage; eauto. }
  destruct (String.eqb (strip raw) ""); [eauto|].
  destruct (re_usage (strip raw)) as [[[d i] g]|], usage as [u|]; eauto.
  destruct (float g); eauto.
Qed.

Lemma ssd_lines_outcome ssd_data : ∀ st,
  lines_run st ssd_data = Raise ValueError ∨
  ∃ st', lines_run st ssd_data = Ok st'.
Proof.
  induction ssd_data as [|raw rest IH]; intros st; simpl; [eauto|].
  destruct (ssd_line_outcome st raw) as [->|[st1 ->]]; simpl; [by left|].
  apply IH.
Qed.

(** The result of a run in terms of the final action. *)
Lemma ssd_analyze_output_result ssd_data :
  analyze ssd_data = Raise ValueError ∨
  ∃ usage action,
    lines_run ssd_initial ssd_data = Ok (usage, action) ∧
    analyze ssd_data =
      Ok (if actionRecommended (flush ge_major ge_critical usage action)
          then [("ssd_faults", flush ge_major ge_critical usage action)]
          else []).
Proof.
  unfold ssd_analyze_output.
  destruct (ssd_lines_outcome ssd_data ssd_initial) as [->|[[usage action] ->]];
    simpl; [by left|]. right. by exists usage, action.
Qed.

(** ** Properties of the usage values carried through a run *)

Lemma elem_of_set {V} (k : string) (v : V) (d : pydict V) x :
  x ∈ set k v d → x = (k, v) ∨ x ∈ d.
Proof.
  induction d as [|[k' v'] d IH]; simpl.
  - intros ->%list_elem_of_singleton. by left.
  - destruct (String.eqb_spec k k') as [->|Hne].
    + intros [->|H]%elem_of_cons; [by left | right; by right].
    + intros [->|H]%elem_of_cons; [right; left|].
      destruct (IH H) as [->|?]; [by left | right; by right].
Qed.

Lemma evaluate_usage_metrics (Q : F → Prop) (P : ssd_action → Prop) u a :
  (∀ n x a, Q x → P a → P (check n x a)) →
  usage_values Q (Some u) → P a → P (evaluate u a).
Proof.
  intros Hstep. unfold evaluate_usage, usage_values. revert a.
  induction (metrics u) as [|kv ms IH]; intros a HQ Ha; simpl; [done|].
  apply IH.
  - intros k m Hin. apply (HQ k m). by right.
  - apply Hstep; [|done]. apply (HQ kv.1 kv.2). destruct kv. left.
Qed.

Lemma ssd_line_metrics (Q : F → Prop) (P : ssd_action → Prop) st raw st' :
  (∀ n x a, Q x → P a → P (check n x a)) →
  (∀ u, metric_line float raw u → Q u) →
  line_step st raw = Ok st' →
  usage_values Q st.1 → P st.2 → usage_values Q st'.1 ∧ P st'.2.
Proof.
  intros Hstep Hline. destruct st as [usage action]. unfold ssd_line. simpl.
  destruct (startswith "Node:" (strip raw)).
  { intros H HQ Ha.
    assert (P (flush ge_major ge_critical usage action)) as Hf.
    { destruct usage as [u|]; simpl; [|done].
      by apply (evaluate_usage_metrics Q). }
    destruct (re_node (strip raw)); injection H as <-; split; try done.
    intros k m Hin. by apply elem_of_nil in Hin. }
  destruct (startswith "Model:" (strip raw)).
  { intros H HQ Ha.
    destruct (re_model (strip raw)), usage; by injection H as <-. }
  destruct (String.eqb (strip raw) "").
  { intros H HQ Ha. by injection H as <-. }
  intros H HQ Ha.
  destruct (re_usage (strip raw)) as [[[d i] g]|] eqn:Er, usage as [u|];
    try (by injection H as <-).
  destruct (float g) as [x|] eqn:Ef; [|done]. injection H as <-.
  split; [|done]. intros k m Hin. simpl in Hin.
  apply elem_of_set in Hin as [[= -> ->]|Hin].
  - simpl. apply Hline. by exists d, i, g.
  - by apply (HQ k m).
Qed.

Lemma ssd_lines_metrics (Q : F → Prop) (P : ssd_action → Prop) ssd_data :
  ∀ st st',
  (∀ n x a, Q x → P a → P (check n x a)) →
  (∀ raw u, raw ∈ ssd_data → metric_line float raw u → Q u) →
  lines_run st ssd_data = Ok st' →
  usage_values Q st.1 → P st.2 → usage_values Q st'.1 ∧ P st'.2.
Proof.
  induction ssd_data as [|raw rest IH]; intros st st' Hstep Hlines; simpl.
  - by intros [= <-].
  - destruct (line_step st raw) as [st1| |] eqn:E; simpl; [|done..].
    intros H HQ Ha.
    destruct (ssd_line_metrics Q P st raw st1 Hstep) as [HQ1 Ha1]; try done.
    { intros u. apply Hlines. left. }
    eapply IH; try done. intros raw' u Hin. apply Hlines. by right.
Qed.

(** The action a run ends with, behind the last flush. *)
Lemma ssd_final_action (Q : F → Prop) (P : ssd_action → Prop) ssd_data out :
  (∀ n x a, Q x → P a → P (check n x a)) →
  (∀ raw u, raw ∈ ssd_data → metric_line float raw u → Q u) →
  P (@ssd_initial F).2 →
  analyze ssd_data = Ok out →
  ∃ a, P a ∧ out = if actionRecommended a then [("ssd_faults", a)] else [].
Proof.
  intros Hstep Hlines H0 Hrun.
  destruct (ssd_analyze_output_result ssd_data)
    as [E|(usage & action & Hr & E)]; rewrite E in Hrun; [done|].
  injection Hrun as <-.
  destruct (ssd_lines_metrics Q P ssd_data ssd_initial (usage, action)
              Hstep Hlines Hr) as [HQ Ha]; [done | done |]. simpl in *.
  exists (flush ge_major ge_critical usage action). split; [|done].
  destruct usage as [u|]; simpl; [|done].
  by apply (evaluate_usage_metrics Q).
Qed.

(** ** The block of a node *)












End AnalyzerFacts.














(** ** Summary table *)

Lemma in_bucket_append x bucket item :
  in_bucket x (bucket_append bucket item) ↔ in_bucket x bucket ∨ x = item.
Proof.
  unfold in_bucket, bucket_append. simpl.
  by rewrite elem_of_app, list_elem_of_singleton.
Qed.

(** The error branch puts the entry into a bucket exactly when its message
    starts with one of the four prefixes. *)
Lemma bucket_error_bucketed item error m x :
  bucketed x (bucket_error item error m) ↔
  bucketed x m ∨ (x = item ∧ has_bucket_prefix error = true).
Proof.
  unfold bucket_error, has_bucket_prefix, bucket_prefixes, bucketed. simpl.
  destruct (startswith "Template missing" error),
    (startswith "NDI support missing in template" error),
    (startswith "Syntax error in Template" error),
    (startswith "Undefined error while rendering template" error); simpl;
    rewrite ?in_bucket_append; intuition congruence.
Qed.

Lemma bucket_error_summary item error m :
  summary_table (bucket_error item error m) = summary_table m.
Proof.
  unfold bucket_error.
  by destruct (startswith "Template missing" error),
    (startswith "NDI support missing in template" error),
    (startswith "Syntax error in Template" error),
    (startswith "Undefined error while rendering template" error).
Qed.

Lemma with_main_document_Ok f findings findings' :
  with_main_document f findings = Ok findings' →
  ∃ m, main_of findings = Some m ∧ main_of findings' = Some (f m).
Proof.
  unfold with_main_document, main_of.
  destruct (get "main_document" findings) as [[?|m|?]|]; try done.
  intros [= <-]. exists m. by rewrite get_set_eq.
Qed.

Lemma matches_a_bucket_prefix error :
  matches_a_bucket error = has_bucket_prefix error.
Proof.
  unfold matches_a_bucket, has_bucket_prefix, bucket_prefixes. simpl.
  by rewrite orb_false_r, !orb_assoc.
Qed.

Section SummaryFacts.

Variable headlines : string → list string.

(** What one entry adds to the buckets and to the table. *)
Lemma summary_item_effect findings table item value findings' table' :
  summary_item headlines (findings, table) item value = Ok (findings', table') →
  (main_of findings = None → main_of findings' = None) ∧
  ∀ m, main_of findings = Some m →
    ∃ m', main_of findings' = Some m' ∧
      summary_table m' = summary_table m ∧
      (∀ x, bucketed x m' ↔
            bucketed x m ∨
            (x = item ∧ (item ∉ ignore_findings) ∧
             ∃ f e, value = Rendered f ∧ f_error f = Some e ∧
                    has_bucket_prefix e = true)) ∧
      (∀ x, x ∈ r_name <$> table' →
            x ∈ r_name <$> table ∨
            (x = item ∧ ∃ f, value = Rendered f ∧ f_error f = None)).
Proof.
  unfold summary_item.
  destruct (str_in item ignore_findings) eqn:Ei.
  { intros [= <- <-]. split; [done|]. intros m Hm. exists m.
    split_and!; [done | done | | by left].
    intros x. split; [by left|]. intros [?|(_ & Hn & _)]; [done|].
    by apply str_in_elem in Ei. }
  apply str_in_not_elem in Ei.
  destruct value as [f|m0|j]; [| |done].
  - destruct (f_error f) as [e|] eqn:Ee.
    + rewrite matches_a_bucket_prefix.
      destruct (has_bucket_prefix e) eqn:Ep; cycle 1.
      { intros [= <- <-]. split; [done|]. intros m Hm. exists m.
        split_and!; [done | done | | by left].
        intros x. split; [by left|].
        intros [?|(_ & _ & f' & e' & [= <-] & He' & Hp')]; [done|].
        congruence. }
      destruct (with_main_document (bucket_error item e) findings)
        as [fs1| |] eqn:Ew; simpl; [|done..].
      intros [= <- <-].
      apply with_main_document_Ok in Ew as (m & Hm & Hm').
      split; [by rewrite Hm|]. intros m1 Hm1. rewrite Hm in Hm1.
      injection Hm1 as <-. eexists. split_and!; [done | | | by left].
      * apply bucket_error_summary.
      * intros x. rewrite bucket_error_bucketed. split.
        -- intros [?|[-> ?]]; [by left|]. right. split_and!; [done..|].
           by exists f, e.
        -- intros [?|(-> & _ & f' & e' & [= <-] & He' & Hp)]; [by left|].
           right. split; [done|]. congruence.
    + assert (∀ t : list summary_row, (∀ x, x ∈ r_name <$> t →
                 x ∈ r_name <$> table ∨
                 (x = item ∧ ∃ f0, Rendered f = Rendered f0 ∧ f_error f0 = None)) →
               (main_of findings = None → main_of findings = None) ∧
               ∀ m, main_of findings = Some m →
                 ∃ m', main_of findings = Some m' ∧
                   summary_table m' = summary_table m ∧
                   (∀ x, bucketed x m' ↔
                      bucketed x m ∨
                      (x = item ∧ (item ∉ ignore_findings) ∧
                       ∃ f0 e, Rendered f = Rendered f0 ∧ f_error f0 = Some e ∧
                               has_bucket_prefix e = true)) ∧
                   (∀ x, x ∈ r_name <$> t →
                      x ∈ r_name <$> table ∨
                      (x = item ∧ ∃ f0, Rendered f = Rendered f0 ∧
                                        f_error f0 = None))) as Hsame.
      { intros t Ht. split; [done|]. intros m Hm. exists m.
        split_and!; [done | done | | done].
        intros x. split; [by left|].
        intros [?|(_ & _ & f' & e' & [= <-] & He' & _)]; [done|congruence]. }
      destruct (f_metadata f) as [[md|]|].
      * destruct (summary_row_of headlines item f md) as [row| |] eqn:Er;
          simpl; [|done..].
        intros [= <- <-]. apply Hsame. intros x.
        rewrite fmap_app, elem_of_app. intros [?|Hx]; [by left|].
        right. simpl in Hx. apply list_elem_of_singleton in Hx.
        split; [|by exists f]. rewrite Hx. unfold summary_row_of in Er.
        destruct (f_content f) as [[c|]|]; simpl in Er; try done.
        -- destruct (headlines c); simpl in Er; [done|]. by injection Er as <-.
        -- by injection Er as <-.
      * intros [= <- <-]. apply Hsame. intros x Hx. by left.
      * intros [= <- <-]. apply Hsame. intros x Hx. by left.
  - intros [= <- <-]. split; [done|]. intros m Hm. exists m.
    split_and!; [done | done | | by left].
    intros x. split; [by left|]. by intros [?|(_ & _ & ? & ? & ? & _)].
Qed.

Lemma summary_items_effect items : ∀ findings table findings' table',
  summary_items headlines (findings, table) items = Ok (findings', table') →
  (main_of findings = None → main_of findings' = None) ∧
  ∀ m, main_of findings = Some m →
    ∃ m', main_of findings' = Some m' ∧
      summary_table m' = summary_table m ∧
      (∀ x, bucketed x m' ↔
            bucketed x m ∨
            ((x ∉ ignore_findings) ∧
             ∃ f e, (x, Rendered f) ∈ items ∧ f_error f = Some e ∧
                    has_bucket_prefix e = true)) ∧
      (∀ x, x ∈ r_name <$> table' →
            x ∈ r_name <$> table ∨
            ∃ f, (x, Rendered f) ∈ items ∧ f_error f = None).
Proof.
  induction items as [|[item value] items IH];
    intros findings table findings' table'.
  - simpl. intros [= <- <-]. split; [done|]. intros m Hm. exists m.
    split_and!; [done | done | | by left].
    intros x. split; [by left|].
    intros [?|(_ & f & e & Hin & _)]; [done|]. by apply elem_of_nil in Hin.
  - change (summary_items headlines (findings, table) ((item, value) :: items))
      with (summary_item headlines (findings, table) item value
              ≫= λ st', summary_items headlines st' items).
    destruct (summary_item headlines (findings, table) item value)
      as [[fs1 t1]| |] eqn:E1; simpl; [|done..].
    intros Hrest.
    destruct (summary_item_effect _ _ _ _ _ _ E1) as [Hn1 H1].
    destruct (IH _ _ _ _ Hrest) as [Hn2 H2].
    split; [auto|]. intros m Hm.
    destruct (H1 m Hm) as (m1 & Hm1 & Hs1 & Hb1 & Ht1).
    destruct (H2 m1 Hm1) as (m2 & Hm2 & Hs2 & Hb2 & Ht2).
    exists m2. split_and!; [done | congruence | |].
    + intros x. rewrite Hb2, Hb1. split.
      * intros [[?|(Hx & Hi & f & e & Hv & He & Hp)]|(Hi & f & e & Hin & He & Hp)].
        -- by left.
        -- right. subst x value. split; [done|]. exists f, e.
           split_and!; [left | done..].
        -- right. split; [done|]. exists f, e. split_and!; [by right | done..].
      * intros [?|(Hi & f & e & Hin & He & Hp)]; [by left; left|].
        apply elem_of_cons in Hin as [[= -> <-]|Hin].
        -- left. right. split_and!; [done..|]. by exists f, e.
        -- right. split; [done|]. by exists f, e.
    + intros x Hx. destruct (Ht2 x Hx) as [Hx1|(f & Hin & He)].
      * destruct (Ht1 x Hx1) as [?|(Hxi & f & Hv & He)]; [by left|].
        right. subst x value. exists f. split; [left | done].
      * right. exists f. split; [by right | done].
Qed.

End SummaryFacts.

(** C9: an entry that carries an error and is no bookkeeping key is not in
    the summary table; it is in one of the four buckets exactly when its
    message starts with the prefix of that bucket (or when the bucket
    held its name before); an error with another message is in no
    bucket. *)
Theorem create_findings_summary_table_errors (headlines : string → list string)
    (findings out : pydict fvalue) :
  NoDup (keys findings) →
  create_findings_summary_table headlines findings = Ok out →
  ∃ m0 m,
    main_of findings = Some m0 ∧ main_of out = Some m ∧
    ∀ item error,
      error_entry findings item error → item ∉ ignore_findings →
      ¬ in_summary item m ∧
      (bucketed item m ↔ has_bucket_prefix error = true ∨ bucketed item m0).
Proof.
  intros Hnd. unfold create_findings_summary_table.
  destruct (summary_items headlines (findings, []) findings)
    as [[fs1 table]| |] eqn:E; simpl; [|done..].
  intros Hw. apply with_main_document_Ok in Hw as (m1 & Hm1 & Hout).
  destruct (summary_items_effect headlines _ _ _ _ _ E) as [Hnone Hsome].
  destruct (main_of findings) as [m0|] eqn:Hm0;
    [|by rewrite Hnone in Hm1].
  destruct (Hsome m0 eq_refl) as (m1' & Hm1' & Hs & Hb & Ht).
  rewrite Hm1 in Hm1'. injection Hm1' as <-.
  eexists m0, _. split_and!; [done | exact Hout |].
  intros item error (f & Hf & He) Hi.
  assert (∀ f', (item, Rendered f') ∈ findings → f' = f) as Huniq.
  { intros f' Hin. apply (elem_get _ _ _ Hnd) in Hin. congruence. }
  split.
  - unfold in_summary. simpl. intros Hin.
    destruct (Ht item Hin) as [Hnil|(f' & Hin' & He')].
    + by apply elem_of_nil in Hnil.
    + apply Huniq in Hin' as ->. congruence.
  - change (bucketed item m1 ↔ has_bucket_prefix error = true ∨ bucketed item m0).
    rewrite Hb. split.
    + intros [?|(_ & f' & e' & Hin' & He' & Hp)]; [by right|].
      apply Huniq in Hin' as ->. left. congruence.
    + intros [Hp|?]; [|by left]. right. split; [done|].
      exists f, error. split_and!; [by apply get_elem | done..].
Qed.

Lemma create_findings_summary_table_errors_witness :
  ∃ m, main_of
         (match create_findings_summary_table no_headlines findings_with_errors
          with Ok out => out | _ => [] end) = Some m ∧
       ¬ in_summary "vetR_fabric_coopStrict" m ∧
       bucketed "vetR_fabric_coopStrict" m.
Proof.
  assert (NoDup (keys findings_with_errors)) as Hnd
    by (apply (bool_decide_unpack _); vm_compute; exact I).
  destruct (create_findings_summary_table_errors no_headlines
              findings_with_errors _ Hnd eq_refl) as (m0 & m & H0 & Hm & H).
  exists m. split; [exact Hm|].
  destruct (H "vetR_fabric_coopStrict"
              "Template missing 'vetR_fabric_coopStrict.md'") as [Hs Hb].
  - eexists. split; reflexivity.
  - intros Hin. apply str_in_elem in Hin. vm_compute in Hin. discriminate.
  - split; [exact Hs|]. apply Hb. left. reflexivity.
Defined.

(** C9, as stated, fails: the entry whose metadata extraction failed
    carries an error, and the result has it in none of the four buckets. *)
Lemma metadata_error_in_no_bucket :
  ∃ out m,
    create_findings_summary_table no_headlines findings_with_errors = Ok out ∧
    main_of out = Some m ∧
    error_entry findings_with_errors "vetR_fabric_dom"
      "Template metadata extraction failed" ∧
    ¬ bucketed "vetR_fabric_dom" m.
Proof.
  eexists _, _. split_and!; [vm_compute; reflexivity | reflexivity | |].
  - eexists. split; reflexivity.
  - unfold bucketed, in_bucket. simpl.
    intros [H|[H|[H|H]]]; try (by apply elem_of_nil in H).
    apply str_in_elem in H. vm_compute in H. discriminate.
Qed.

(** * Further properties of the functions above *)

(** ** Schema version adapter *)

Lemma same_keys_length ks expected :
  NoDup ks → NoDup expected → same_keys ks expected →
  length ks = length expected.
Proof.
  intros H1 H2 Hs. apply Permutation_length, NoDup_Permutation; done.
Qed.

Lemma canonical_keys_nodup : NoDup vetr_2_0_8_keys.
Proof. apply (bool_decide_unpack _). vm_compute. exact I. Qed.

Lemma legacy_keys_nodup : NoDup vetr_2_0_0_keys.
Proof. apply (bool_decide_unpack _). vm_compute. exact I. Qed.

(** X1: a mapping is classified as the canonical format exactly when its key
    set is the canonical one, and as the legacy format exactly when its
    key set is the legacy one. *)
Theorem vetr_check_dataformat_accepts (vetr_data : pydict json) :
  NoDup (keys vetr_data) →
  (vetr_check_dataformat vetr_data = Ok dataformat_2_0_8
   ↔ same_keys (keys vetr_data) vetr_2_0_8_keys) ∧
  (vetr_check_dataformat vetr_data = Ok dataformat_2_0_0
   ↔ same_keys (keys vetr_data) vetr_2_0_0_keys).
Proof.
  intros Hnd. unfold vetr_check_dataformat. split; split.
  - destruct (Nat.eqb_spec (length (keys vetr_data)) (length vetr_2_0_8_keys))
      as [H8|H8].
    + destruct (first_unexpected _ vetr_2_0_8_keys) eqn:E; [done|].
      intros _. apply same_keys_of_count; [done..|].
      by apply first_unexpected_None.
    + destruct (length (keys vetr_data) =? length vetr_2_0_0_keys)%nat; [|done].
      by destruct (first_unexpected _ vetr_2_0_0_keys).
  - intros Hs.
    rewrite (same_keys_length _ _ Hnd canonical_keys_nodup Hs), Nat.eqb_refl.
    assert (first_unexpected (keys vetr_data) vetr_2_0_8_keys = None) as ->.
    { apply first_unexpected_None. intros k. apply Hs. }
    done.
  - destruct (Nat.eqb_spec (length (keys vetr_data)) (length vetr_2_0_8_keys))
      as [H8|H8].
    { by destruct (first_unexpected _ vetr_2_0_8_keys). }
    destruct (Nat.eqb_spec (length (keys vetr_data)) (length vetr_2_0_0_keys))
      as [H0|H0]; [|done].
    destruct (first_unexpected _ vetr_2_0_0_keys) eqn:E; [done|].
    intros _. apply same_keys_of_count; [done..|].
    by apply first_unexpected_None.
  - intros Hs.
    rewrite (same_keys_length _ _ Hnd legacy_keys_nodup Hs).
    change (length vetr_2_0_0_keys =? length vetr_2_0_8_keys)%nat with false.
    rewrite Nat.eqb_refl.
    assert (first_unexpected (keys vetr_data) vetr_2_0_0_keys = None) as ->.
    { apply first_unexpected_None. intros k. apply Hs. }
    done.
Qed.

Lemma vetr_check_dataformat_accepts_witness :
  vetr_check_dataformat legacy_example = Ok dataformat_2_0_0.
Proof.
  assert (NoDup (keys legacy_example)) as Hnd
    by (apply (bool_decide_unpack _); vm_compute; exact I).
  apply (proj2 (vetr_check_dataformat_accepts legacy_example Hnd)).
  intros k. reflexivity.
Defined.

#[local] Opaque conversion.

Lemma convert_children_Ok tbl key children : ∀ out out',
  convert_children tbl key children out = Ok out' →
  ∀ ck, ck ∈ keys children → ck ∈ keys tbl.
Proof.
  induction children as [|[ck cv] children IH]; intros out out'; simpl.
  - intros _ ck H. by apply elem_of_nil in H.
  - destruct (get ck tbl) as [[q|?]|] eqn:Hg; [|done..].
    destruct (store _ cv ck key out) as [out1| |]; simpl; [|done..].
    intros Hrest ck' [->|Hin]%elem_of_cons.
    + by eapply get_Some_keys.
    + by eapply IH.
Qed.

Lemma convert_keys_Ok items : ∀ out out',
  convert_keys items out = Ok out' →
  ∀ key value, (key, value) ∈ items →
    key ∈ keys conversion ∧
    ∀ tbl, get key conversion = Some (CDict tbl) →
      ∃ children, value = JDict children ∧
                  ∀ ck, ck ∈ keys children → ck ∈ keys tbl.
Proof.
  induction items as [|[k v] items IH]; intros out out'; simpl.
  - intros _ key value H. by apply elem_of_nil in H.
  - destruct (convert_key k v out) as [out1| |] eqn:E1; simpl; [|done..].
    intros Hrest key value [[= -> ->]|Hin]%elem_of_cons; [|by eapply IH].
    unfold convert_key in E1.
    destruct (get k conversion) as [[q|tbl]|] eqn:Hg; [| |done].
    + split; [by eapply get_Some_keys | done].
    + split; [by eapply get_Some_keys|]. intros tbl' [= <-].
      destruct v; try done. eexists. split; [done|].
      by eapply convert_children_Ok.
Qed.

#[local] Transparent conversion.

(** X2: the migration returns only for an export all of whose keys are in
    the table, whose nested legacy keys hold mappings, and whose child
    keys are in the nested table; every other export ends the run. *)
Theorem vetr_convert_dataformat_returns_only_mapped
    (vetr_data out : pydict json) :
  vetr_convert_dataformat vetr_data = Ok out →
  ∀ key value, (key, value) ∈ vetr_data →
    key ∈ keys conversion ∧
    ∀ tbl, get key conversion = Some (CDict tbl) →
      ∃ children, value = JDict children ∧
                  ∀ ck, ck ∈ keys children → ck ∈ keys tbl.
Proof. apply convert_keys_Ok. Qed.

Lemma vetr_convert_dataformat_returns_only_mapped_witness :
  "mcp" ∈ keys conversion ∧
  ∀ tbl, get "mcp" conversion = Some (CDict tbl) →
    ∃ children,
      JDict [("interface", JNum 12); ("global", JNum 13)] = JDict children ∧
      ∀ ck, ck ∈ keys children → ck ∈ keys tbl.
Proof.
  eapply (vetr_convert_dataformat_returns_only_mapped legacy_example).
  - vm_compute. reflexivity.
  - apply get_elem. reflexivity.
Defined.

Lemma convert_keys_Ok_converted (vetr_data out : pydict json) :
  NoDup (keys vetr_data) →
  (∀ key children, (key, JDict children) ∈ vetr_data → NoDup (keys children)) →
  vetr_convert_dataformat vetr_data = Ok out →
  converted (all_writes vetr_data) out ∧ Forall migratable vetr_data.
Proof.
  intros Hnd Hch Hok.
  assert (Forall migratable vetr_data) as Hmig.
  { apply Forall_forall. intros [key value] Hin.
    destruct (convert_keys_Ok _ _ _ Hok key value Hin) as [Hk Hn].
    split; [done|]. simpl. intros tbl Htbl.
    destruct (Hn tbl Htbl) as (children & -> & Hsub).
    exists children. split; [done|]. split; [by eapply Hch | done]. }
  split; [|done].
  destruct (convert_keys_converted vetr_data [] [] Hnd Hmig converted_nil)
    as (out' & Hout' & Hconv).
  - intros s Hs. by apply elem_of_nil in Hs.
  - intros s Hs. by apply elem_of_nil in Hs.
  - unfold vetr_convert_dataformat in Hok. rewrite Hout' in Hok.
    injection Hok as <-. by rewrite app_nil_r in Hconv.
Qed.

(** X3: whatever the migration returns has distinct top-level keys, all
    of them among the eleven sections the table can write, so that the
    format check, applied to a migrated export, identifies no format. *)
Theorem migrated_export_not_identified (vetr_data out : pydict json) :
  NoDup (keys vetr_data) →
  (∀ key children, (key, JDict children) ∈ vetr_data → NoDup (keys children)) →
  vetr_convert_dataformat vetr_data = Ok out →
  NoDup (keys out) ∧
  (∀ s, s ∈ keys out → s ∈ converted_sections) ∧
  vetr_check_dataformat out = Exit FormatNotIdentified.
Proof.
  intros Hnd Hch Hok.
  destruct (convert_keys_Ok_converted _ _ Hnd Hch Hok) as [[Hn Hv Ho] Hmig].
  assert (∀ s, s ∈ keys out → s ∈ converted_sections) as Hsub.
  { intros s Hs. destruct (get_is_Some _ _ Hs) as [x Hx].
    assert (∀ src v, (src, v) ∈ all_writes vetr_data →
                     hd "" (tgt src) ∈ converted_sections) as Hsec.
    { intros src v Hin.
      assert (src ∈ table_sources) as Hsrc.
      { apply (all_writes_sources vetr_data); [done|].
        apply list_elem_of_fmap. by exists (src, v). }
      by apply (proj1 (Forall_forall _ _) table_sections). }
    destruct (Ho s x Hx) as [(src & Hin & Ht)|(fs & -> & Hne & _ & Hf)].
    - specialize (Hsec _ _ Hin). by rewrite Ht in Hsec.
    - destruct fs as [|[f y] fs]; [done|].
      destruct (Hf f) as (src & v & Hin & Ht); [left|].
      specialize (Hsec _ _ Hin). by rewrite Ht in Hsec. }
  split; [done|]. split; [done|].
  assert (length (keys out) ≤ 11)%nat as Hlen.
  { change 11%nat with (length converted_sections).
    apply submseteq_length, NoDup_submseteq; done. }
  unfold vetr_check_dataformat.
  destruct (Nat.eqb_spec (length (keys out)) (length vetr_2_0_8_keys)) as [E|_].
  { change (length vetr_2_0_8_keys) with 13%nat in E. lia. }
  destruct (Nat.eqb_spec (length (keys out)) (length vetr_2_0_0_keys)) as [E|_].
  { change (length vetr_2_0_0_keys) with 26%nat in E. lia. }
  done.
Qed.

Lemma migrated_export_not_identified_witness :
  ∃ out, vetr_convert_dataformat legacy_example = Ok out ∧
         vetr_check_dataformat out = Exit FormatNotIdentified.
Proof.
  eexists. split; [vm_compute; reflexivity|].
  eapply (migrated_export_not_identified legacy_example).
  - apply (bool_decide_unpack _). vm_compute. exact I.
  - intros key children Hin.
    assert (Forall (λ kv : string * json,
                      match kv.2 with
                      | JDict cs => NoDup (keys cs)
                      | _ => True
                      end) legacy_example) as HF.
    { repeat constructor; simpl; try exact I;
        apply (bool_decide_unpack _); vm_compute; exact I. }
    apply (proj1 (Forall_forall _ _) HF _ Hin).
  - vm_compute. reflexivity.
Defined.

(** ** Recommendation path extractor *)

(** X4: the generator leaves the shared path buffer as it found it less
    its last element: a call on a child, entered with the child's key or
    element appended, gives the buffer back as it was before, and the
    top-level call ends with the empty buffer. *)
Theorem extractor_buffer_unwound (var : json) (key : string) :
  (walk var key []).2 = [] ∧
  ∀ path x, (walk var key (path ++ [x])).2 = path.
Proof.
  split; [apply walk_buffer_top|].
  intros path x. by rewrite walk_buffer, pop_app.
Qed.

(** X5: the generator yields exactly the mappings that hold the marker key
    and are reached from the input through mappings without the marker
    key and through sequences, each with the path that reaches it. *)
Theorem extractor_yields_reachable_records (var : json) (key : string)
    (p : list path_elem) (r : json) :
  (p, r) ∈ get_nested_dict_entries_containing_key var key ↔
  (∃ d, r = JDict d ∧ mem key d = true) ∧ reaches key var p r.
Proof.
  unfold get_nested_dict_entries_containing_key. split.
  - intros H. destruct (walk_yields key var [] p r H)
      as [Hd (q & -> & Hq)]. done.
  - intros [(d & -> & Hm) Hr].
    by apply (walk_complete key var p (JDict d) d Hr eq_refl Hm []).
Qed.

(** X6: an input none of whose mappings holds the marker key yields
    nothing, and a mapping that holds it is yielded alone, with the
    buffer as the path: the search does not descend into it. *)
Theorem extractor_unmarked_and_matched (key : string) :
  (∀ var, marked key var = false →
          get_nested_dict_entries_containing_key var key = []) ∧
  (∀ d path, mem key d = true →
             (walk (JDict d) key path).1 = [(path, JDict d)]).
Proof.
  split.
  - intros var H. by apply walk_unmarked.
  - intros d path H. by apply walk_matched.
Qed.

(** ** Job monitor *)

Lemma monitor_round_cases jobname entries :
  (monitor_round jobname 0 entries = SleepAndPoll 0 ∧ waiting jobname entries) ∨
  (monitor_round jobname 0 entries = Break ∧
   find_status jobname entries = Some "COMPLETE") ∨
  (∃ status, monitor_round jobname 0 entries = Fatal (UnexpectedStatus status) ∧
             find_status jobname entries = Some status ∧
             status ∉ ["QUEUED"; "SCHEDULED"; "RUNNING"; "COMPLETE"]).
Proof.
  unfold monitor_round, waiting.
  destruct (find_status jobname entries) as [status|]; [|by left].
  destruct (String.eqb_spec status "QUEUED") as [->|H1].
  { left. split; [done|]. repeat constructor. }
  destruct (String.eqb_spec status "SCHEDULED") as [->|H2].
  { left. split; [done|]. repeat constructor. }
  destruct (String.eqb_spec status "RUNNING") as [->|H3].
  { left. split; [done|]. repeat constructor. }
  destruct (String.eqb_spec status "COMPLETE") as [->|H4].
  { right. left. done. }
  right. right. exists status. split; [done|]. split; [done|].
  intros H. repeat (apply elem_of_cons in H as [H|H]; [done|]).
  by apply elem_of_nil in H.
Qed.

Lemma monitor_loop_outcome jobname listings : ∀ sleeps,
  match monitor_loop jobname 0 sleeps listings with
  | Returned n =>
      ∃ before entries after,
        listings = (before ++ entries :: after)%list ∧
        n = (sleeps + length before)%nat ∧
        Forall (waiting jobname) before ∧
        find_status jobname entries = Some "COMPLETE"
  | Exited msg n =>
      ∃ before entries after status,
        listings = (before ++ entries :: after)%list ∧
        n = (sleeps + length before)%nat ∧
        Forall (waiting jobname) before ∧
        find_status jobname entries = Some status ∧
        (status ∉ ["QUEUED"; "SCHEDULED"; "RUNNING"; "COMPLETE"]) ∧
        msg = UnexpectedStatus status
  | StillPolling retry_count n =>
      retry_count = 0%nat ∧ n = (sleeps + length listings)%nat ∧
      Forall (waiting jobname) listings
  end.
Proof.
  induction listings as [|entries rest IH]; intros sleeps; simpl.
  { split; [done|]. split; [lia|constructor]. }
  destruct (monitor_round_cases jobname entries)
    as [[-> Hw]|[[-> Hc]|(status & -> & Hs & Hn)]].
  - specialize (IH (S sleeps)).
    destruct (monitor_loop jobname 0 (S sleeps) rest) as [n|msg n|r n].
    + destruct IH as (before & e & after & -> & -> & HF & Hc).
      exists (entries :: before), e, after. simpl.
      split; [done|]. split; [lia|]. split; [by constructor|done].
    + destruct IH as (before & e & after & status & -> & -> & HF & Hs & Hn & ->).
      exists (entries :: before), e, after, status. simpl.
      split; [done|]. split; [lia|]. split; [by constructor|done].
    + destruct IH as (-> & -> & HF). split; [done|]. split; [lia|].
      by constructor.
  - exists [], entries, rest. simpl. split; [done|]. split; [lia|].
    split; [constructor|done].
  - exists [], entries, rest, status. simpl. split; [done|]. split; [lia|].
    split; [constructor|done].
Qed.

(** X7: the NDI job monitor returns exactly when a poll finds the job
    [COMPLETE] after polls that all found it absent, queued, scheduled
    or running, having slept once per earlier poll; it ends the run
    only for a status outside the four known ones; the exit for a job
    that is not found is never taken. *)
Theorem ndi_monitor_outcome (jobname : string) (listings : list (list job_entry)) :
  match nae_monitor_analysis jobname listings with
  | Returned n =>
      ∃ before entries after,
        listings = (before ++ entries :: after)%list ∧
        n = length before ∧
        Forall (waiting jobname) before ∧
        find_status jobname entries = Some "COMPLETE"
  | Exited msg n =>
      ∃ before entries after status,
        listings = (before ++ entries :: after)%list ∧
        n = length before ∧
        Forall (waiting jobname) before ∧
        find_status jobname entries = Some status ∧
        (status ∉ ["QUEUED"; "SCHEDULED"; "RUNNING"; "COMPLETE"]) ∧
        msg = UnexpectedStatus status
  | StillPolling retry_count n =>
      retry_count = 0%nat ∧ n = length listings ∧
      Forall (waiting jobname) listings
  end.
Proof.
  unfold nae_monitor_analysis. apply (monitor_loop_outcome jobname listings 0).
Qed.

(** ** Paginated retrieval *)

(** X8: the page count is the least number of pages of 100 that hold the
    declared number of results. *)
Theorem total_page_count_exact (total n : Z) :
  total_page_count total = n ↔ ((n - 1) * 100 < total ≤ n * 100)%Z.
Proof.
  unfold total_page_count, max_response_count. split.
  - intros <-. pose proof (Z.div_mod (- total) 100 ltac:(lia)).
    pose proof (Z.mod_pos_bound (- total) 100 ltac:(lia)). lia.
  - intros H.
    assert ((- total) / 100 = - n)%Z as ->; [|lia].
    symmetry. apply (Z.div_unique (- total) 100 (- n) (n * 100 - total)); lia.
Qed.

Lemma total_page_count_exact_witness : total_page_count 250 = 3%Z.
Proof. apply (proj2 (total_page_count_exact 250 3)). lia. Defined.

Lemma next_pages_empty_page fetch total_pages current t output : ∀ fuel requested,
  (current < total_pages)%Z →
  fetch (current * max_response_count)%Z
  = Some {| totalResultsCount := t; entries := [] |} →
  next_pages fuel fetch total_pages current output requested = None.
Proof.
  intros fuel requested Hlt Hf. revert requested.
  induction fuel as [|fuel IH]; intros requested; simpl.
  - by rewrite (proj2 (Z.ltb_lt _ _) Hlt).
  - rewrite (proj2 (Z.ltb_lt _ _) Hlt), Hf. simpl. apply IH.
Qed.

(** X9: when more than one page is declared and the service answers the
    second request with a page without entries, the summary retrieval
    does not return, whatever the number of rounds it is given: the page
    counter only grows with the events of a page. *)
Theorem ndi_summary_empty_page_never_returns
    (fetch : Z → option ndi_response) (first : ndi_response) (total : Z)
    (t : option Z) :
  fetch 0%Z = Some first →
  totalResultsCount first = Some total →
  (100 < total)%Z →
  fetch 100%Z = Some {| totalResultsCount := t; entries := [] |} →
  ∀ fuel, ndi_get_smart_events_summary fuel fetch = None.
Proof.
  intros H0 Ht Hgt H1 fuel. unfold ndi_get_smart_events_summary.
  rewrite H0, Ht.
  assert (1 < total_page_count total)%Z as Hp.
  { pose proof (total_page_count_ceiling total). lia. }
  rewrite (proj2 (Z.ltb_lt _ _) Hp).
  by apply (next_pages_empty_page fetch _ 1 t).
Qed.

Lemma ndi_summary_empty_page_never_returns_witness :
  ndi_get_smart_events_summary 1000 shrinking_service = None.
Proof.
  apply (ndi_summary_empty_page_never_returns shrinking_service
           {| totalResultsCount := Some 150%Z;
              entries := nth_event <$> seq 0 100 |} 150 (Some 0%Z));
    [reflexivity | reflexivity | lia | reflexivity].
Defined.

Lemma add_event_first_keys output ev :
  ∀ k, k ∈ keys (add_event_first output ev)
       ↔ k = "nae_" ++ mnemonicTitle ev ∨ k ∈ keys output.
Proof. intros k. unfold add_event_first. apply elem_keys_set. Qed.

Lemma fold_add_event_first evs : ∀ output,
  NoDup (keys output) →
  (∀ k se, get k output = Some se →
           event_list se = [] ∧ data_source se = Some "ndi") →
  let out := fold_left add_event_first evs output in
  NoDup (keys out) ∧
  (∀ k, k ∈ keys out ↔
        k ∈ keys output ∨ k ∈ (λ ev, "nae_" ++ mnemonicTitle ev) <$> evs) ∧
  (∀ k se, get k out = Some se →
           event_list se = [] ∧ data_source se = Some "ndi") ∧
  (∀ k se, get k out = Some se →
           get k output = Some se ∨
           ∃ ev, ev ∈ evs ∧ k = "nae_" ++ mnemonicTitle ev ∧
                 severity se = ev_severity ev ∧
                 description se = anomalyStr ev).
Proof.
  induction evs as [|ev evs IH]; intros output Hnd Hinv; simpl.
  { split; [done|]. split; [|split; [done|by left]].
    intros k. rewrite elem_of_nil. tauto. }
  assert (∀ k se, get k (add_event_first output ev) = Some se →
                  (event_list se = [] ∧ data_source se = Some "ndi") ∧
                  (get k output = Some se ∨
                   (k = "nae_" ++ mnemonicTitle ev ∧
                    severity se = ev_severity ev ∧
                    description se = anomalyStr ev))) as Hstep.
  { intros k se. unfold add_event_first.
    destruct (decide (k = "nae_" ++ mnemonicTitle ev)) as [->|Hne].
    - rewrite get_set_eq. intros [= <-]. simpl. split; [|by right].
      split; [|done].
      destruct (get _ output) as [old|] eqn:E; [|done]. simpl.
      by destruct (Hinv _ _ E).
    - rewrite get_set_ne by done. intros E. split; [by eapply Hinv | by left]. }
  destruct (IH (add_event_first output ev)) as (H1 & H2 & H3 & H4).
  { by apply NoDup_keys_set. }
  { intros k se E. by destruct (Hstep k se E). }
  split; [done|]. split; [|split; [done|]].
  - intros k. rewrite H2, add_event_first_keys. cbn [fmap list_fmap].
    rewrite elem_of_cons. tauto.
  - intros k se E. destruct (H4 k se E) as [E'|(ev' & Hin & -> & Hs)].
    + destruct (Hstep k se E') as [_ [?|(-> & Hs)]]; [by left|].
      right. exists ev. split; [left|done].
    + right. exists ev'. split; [by right|done].
Qed.

(** X10: when the first answer declares at most 100 results, the summary
    retrieval makes that one request and returns one record per distinct
    event title of the page, named [nae_<title>], each with an empty
    event list and the data source [ndi], carrying the severity and the
    description of an event of that title. *)
Theorem ndi_summary_single_page (fuel : nat) (fetch : Z → option ndi_response)
    (first : ndi_response) (total : Z) :
  fetch 0%Z = Some first →
  totalResultsCount first = Some total →
  (total ≤ 100)%Z →
  ∃ output,
    ndi_get_smart_events_summary fuel fetch
    = Some {| result := Ok (true, output); requested := [0%Z] |} ∧
    NoDup (keys output) ∧
    (∀ k, k ∈ keys output ↔
          k ∈ (λ ev, "nae_" ++ mnemonicTitle ev) <$> entries first) ∧
    (∀ k se, get k output = Some se →
       event_list se = [] ∧ data_source se = Some "ndi" ∧
       ∃ ev, ev ∈ entries first ∧ k = "nae_" ++ mnemonicTitle ev ∧
             severity se = ev_severity ev ∧ description se = anomalyStr ev).
Proof.
  intros H0 Ht Hle. unfold ndi_get_smart_events_summary. rewrite H0, Ht.
  assert (total_page_count total ≤ 1)%Z as Hp.
  { pose proof (total_page_count_ceiling total). lia. }
  rewrite (proj2 (Z.ltb_ge _ _) Hp).
  eexists. split; [reflexivity|].
  destruct (fold_add_event_first (entries first) []) as (H1 & H2 & H3 & H4).
  { constructor. }
  { intros k se E. discriminate. }
  split; [done|]. split.
  - intros k. rewrite H2. simpl. rewrite elem_of_nil. tauto.
  - intros k se E. destruct (H3 k se E) as [-> ->].
    split; [done|]. split; [done|].
    destruct (H4 k se E) as [E'|H]; [discriminate | done].
Qed.

Lemma ndi_summary_single_page_witness :
  ∃ output,
    ndi_get_smart_events_summary 0 (paged_service 2)
    = Some {| result := Ok (true, output); requested := [0%Z] |} ∧
    keys output = ["nae_EVENT_0"; "nae_EVENT_1"].
Proof.
  destruct (ndi_summary_single_page 0 (paged_service 2)
              {| totalResultsCount := Some 2%Z;
                 entries := nth_event <$> seq 0 2 |} 2
              eq_refl eq_refl ltac:(lia)) as (output & E & _).
  exists output. split; [exact E|].
  vm_compute in E. injection E as <-. reflexivity.
Defined.

(** ** Text report analyzer, continued *)

Section AnalyzerNodes.

Context {F : Type}.
Variable float : string → option F.
Variable ge_major : F → bool.
Variable ge_critical : F → bool.

Lemma check_thresholds_nodes n u a x :
  x ∈ critical (check_thresholds ge_major ge_critical n u a) ∨
  x ∈ major (check_thresholds ge_major ge_critical n u a) →
  x = n ∨ x ∈ critical a ∨ x ∈ major a.
Proof.
  destruct (check_thresholds_effect ge_major ge_critical n u a)
    as ([[-> _]|[-> _]] & [->|[-> _]] & _);
    rewrite ?elem_of_app, ?list_elem_of_singleton; tauto.
Qed.

Lemma evaluate_usage_nodes u a x :
  x ∈ critical (evaluate_usage ge_major ge_critical u a) ∨
  x ∈ major (evaluate_usage ge_major ge_critical u a) →
  x = node u ∨ x ∈ critical a ∨ x ∈ major a.
Proof.
  unfold evaluate_usage. revert a.
  induction (metrics u) as [|kv l IH]; intros a; simpl; [tauto|].
  intros H. destruct (IH _ H) as [?|H']; [by left|].
  apply check_thresholds_nodes in H'. tauto.
Qed.

Lemma flush_nodes ssd_data usage action :
  nodes_reported ssd_data (usage, action) →
  ∀ x, x ∈ critical (flush ge_major ge_critical usage action) ∨
       x ∈ major (flush ge_major ge_critical usage action) →
       reported_node ssd_data x.
Proof.
  intros [Hu Ha] x. destruct usage as [u|]; simpl; [|apply Ha].
  intros H. apply evaluate_usage_nodes in H as [->|H]; [by apply Hu | by apply Ha].
Qed.

Lemma ssd_line_nodes ssd_data st raw st' :
  raw ∈ ssd_data →
  ssd_line float ge_major ge_critical st raw = Ok st' →
  nodes_reported ssd_data st → nodes_reported ssd_data st'.
Proof.
  intros Hraw Hstep Hinv. destruct st as [usage action].
  unfold ssd_line in Hstep.
  destruct (startswith "Node:" (strip raw)).
  { pose proof (flush_nodes ssd_data usage action Hinv) as Hfl.
    destruct (re_node (strip raw)) as [node_id|] eqn:Hre;
      injection Hstep as <-; (split; [|exact Hfl]).
    - intros u [= <-]. simpl. unfold re_node in Hre.
      destruct (after_literal "Node: " (strip raw)) as [ds|] eqn:Hal; [|done].
      destruct (nonempty ds && all_chars is_digit ds) eqn:Hd; [|done].
      injection Hre as ->. apply andb_prop in Hd as [Hd1 Hd2].
      exists raw, node_id. split; [done|].
      split; [by apply after_literal_Some|done].
    - intros u [=]. }
  destruct (startswith "Model:" (strip raw)).
  { destruct (re_model (strip raw)) as [m|], usage as [u|];
      injection Hstep as <-; try done.
    destruct Hinv as [Hu Ha]. split; [|done].
    intros u' [= <-]. simpl. by apply Hu. }
  destruct (String.eqb (strip raw) ""); [by injection Hstep as <-|].
  destruct (re_usage (strip raw)) as [[[d i] g]|], usage as [u|];
    try (by injection Hstep as <-).
  destruct (float g) as [x|]; [|done]. injection Hstep as <-.
  destruct Hinv as [Hu Ha]. split; [|done].
  intros u' [= <-]. simpl. by apply Hu.
Qed.

Lemma ssd_lines_nodes ssd_data : ∀ lines st st',
  (∀ raw, raw ∈ lines → raw ∈ ssd_data) →
  ssd_lines float ge_major ge_critical st lines = Ok st' →
  nodes_reported ssd_data st → nodes_reported ssd_data st'.
Proof.
  induction lines as [|raw rest IH]; intros st st' Hsub; simpl.
  - by intros [= <-].
  - destruct (ssd_line float ge_major ge_critical st raw) as [st1| |] eqn:E;
      simpl; [|done..].
    intros Hrest Hinv. apply (IH st1 st'); [| done |].
    + intros r Hr. apply Hsub. by right.
    + apply (ssd_line_nodes ssd_data st raw); [apply Hsub; left | done..].
Qed.

End AnalyzerNodes.

(** X11: every node in the critical or the major list of the reported
    finding is named by a line [Node: <digits>] of the report (after
    stripping), as [node-<digits>]. *)
Theorem ssd_listed_nodes_reported {F : Type}
    (float : string → option F) (ge_major ge_critical : F → bool)
    (ssd_data : list string) (out : pydict ssd_action) (a : ssd_action) :
  ssd_analyze_output float ge_major ge_critical ssd_data = Ok out →
  get "ssd_faults" out = Some a →
  ∀ n, n ∈ critical a ∨ n ∈ major a → reported_node ssd_data n.
Proof.
  intros Hout Hget.
  destruct (ssd_analyze_output_result float ge_major ge_critical ssd_data)
    as [E|(usage & action & Hr & E)]; rewrite E in Hout; [done|].
  injection Hout as <-.
  assert (a = flush ge_major ge_critical usage action) as ->.
  { destruct (actionRecommended _); [|done]. simpl in Hget. by injection Hget. }
  eapply flush_nodes; [exact float|].
  eapply (ssd_lines_nodes float); [|exact Hr|]; [by intros|].
  split; [intros u [=] | intros x [H|H]; by apply elem_of_nil in H].
Qed.

Lemma ssd_listed_nodes_reported_witness :
  reported_node two_node_report "node-101".
Proof.
  apply (ssd_listed_nodes_reported float_decimal ge_80 ge_90 two_node_report
           [("ssd_faults", {| actionRecommended := true;
                              critical := ["node-101"]; major := [] |})]
           {| actionRecommended := true; critical := ["node-101"];
              major := [] |}).
  - vm_compute. reflexivity.
  - reflexivity.
  - left. left.
Defined.

(** X12: a node is put into the critical list only if some metric line of
    the report has a usage at or above the critical threshold, into the
    major list only if some line has a usage at or above the major
    threshold, and a finding is reported only if some line crosses one
    of the two. *)
Theorem ssd_listed_nodes_justified {F : Type}
    (float : string → option F) (ge_major ge_critical : F → bool)
    (ssd_data : list string) (out : pydict ssd_action) (a : ssd_action) :
  ssd_analyze_output float ge_major ge_critical ssd_data = Ok out →
  get "ssd_faults" out = Some a →
  (∃ raw u, raw ∈ ssd_data ∧ metric_line float raw u ∧
            (ge_major u = true ∨ ge_critical u = true)) ∧
  (critical a ≠ [] →
   ∃ raw u, raw ∈ ssd_data ∧ metric_line float raw u ∧ ge_critical u = true) ∧
  (major a ≠ [] →
   ∃ raw u, raw ∈ ssd_data ∧ metric_line float raw u ∧ ge_major u = true).
Proof.
  intros Hout Hget.
  set (Q := λ u : F, ∃ raw, raw ∈ ssd_data ∧ metric_line float raw u).
  set (P := λ a : ssd_action,
         (actionRecommended a = true →
          ∃ u, Q u ∧ (ge_major u = true ∨ ge_critical u = true)) ∧
         (critical a ≠ [] → ∃ u, Q u ∧ ge_critical u = true) ∧
         (major a ≠ [] → ∃ u, Q u ∧ ge_major u = true)).
  destruct (ssd_final_action float ge_major ge_critical Q P ssd_data out)
    as (a' & (H1 & H2 & H3) & ->); [| | |done|].
  - intros n x b Hx (Hb1 & Hb2 & Hb3).
    destruct (check_thresholds_effect ge_major ge_critical n x b)
      as (Hc & Hm & Hact).
    split; [|split].
    + rewrite Hact. intros H.
      destruct (actionRecommended b); [by apply Hb1|].
      exists x. split; [done|]. simpl in H.
      destruct (ge_critical x), (ge_major x); auto.
    + destruct Hc as [[-> _]|(_ & _ & Hge)]; [done|]. intros _. by exists x.
    + destruct Hm as [->|(_ & _ & _ & Hge)]; [done|]. intros _. by exists x.
  - intros raw u Hraw Hm. by exists raw.
  - split; [done|]. split; done.
  - destruct (actionRecommended a') eqn:Hact; [|done].
    simpl in Hget. injection Hget as <-.
    split; [|split].
    + destruct (H1 eq_refl) as (u & (raw & Hraw & Hm) & Hge). by exists raw, u.
    + intros Hne. destruct (H2 Hne) as (u & (raw & Hraw & Hm) & Hge).
      by exists raw, u.
    + intros Hne. destruct (H3 Hne) as (u & (raw & Hraw & Hm) & Hge).
      by exists raw, u.
Qed.

Lemma ssd_listed_nodes_justified_witness :
  ∃ raw u, raw ∈ two_node_report ∧ metric_line float_decimal raw u ∧
           ge_90 u = true.
Proof.
  refine (proj1 (proj2 (ssd_listed_nodes_justified float_decimal ge_80 ge_90
           two_node_report
           [("ssd_faults", {| actionRecommended := true;
                              critical := ["node-101"]; major := [] |})]
           {| actionRecommended := true; critical := ["node-101"];
              major := [] |} _ _)) _).
  - vm_compute. reflexivity.
  - reflexivity.
  - discriminate.
Defined.

(** ** Summary table, continued *)

Section SummaryRows.

Variable headlines : string → list string.

Lemma summary_items_rows items : ∀ findings table findings' table',
  summary_items headlines (findings, table) items = Ok (findings', table') →
  ∃ rows, table' = (table ++ rows)%list ∧
    Forall2 (λ row kv, ∃ f md,
               kv.2 = Rendered f ∧ f_error f = None ∧
               f_metadata f = Some (Some md) ∧
               summary_row_of headlines kv.1 f md = Ok row)
      rows (List.filter summarised items).
Proof.
  induction items as [|[item value] items IH];
    intros findings table findings' table'.
  { simpl. intros [= <- <-]. exists []. by rewrite app_nil_r. }
  change (summary_items headlines (findings, table) ((item, value) :: items))
    with (summary_item headlines (findings, table) item value
            ≫= λ st', summary_items headlines st' items).
  destruct (summary_item headlines (findings, table) item value)
    as [[findings1 table1]| |] eqn:E; cbn [mbind outcome_bind]; [|done..].
  intros Hrest. destruct (IH _ _ _ _ Hrest) as (rows & -> & HF).
  unfold summary_item in E. cbn [List.filter]. unfold summarised at 1.
  cbn [fst snd].
  destruct (str_in item ignore_findings); cbn [negb andb].
  { injection E as <- <-. by exists rows. }
  destruct value as [f|m|j]; [| |done].
  - destruct (f_error f) as [e|] eqn:He.
    { destruct (matches_a_bucket e);
        [|injection E as <- <-; by exists rows].
      destruct (with_main_document _ findings); [|done..].
      injection E as <- <-. by exists rows. }
    destruct (f_metadata f) as [[md|]|] eqn:Hmd;
      try (injection E as <- <-; by exists rows).
    destruct (summary_row_of headlines item f md) as [row| |] eqn:Hrow;
      [|done..].
    simpl in E. injection E as <- <-.
    exists (row :: rows). rewrite <- app_assoc. split; [done|].
    constructor; [|done]. by exists f, md.
  - injection E as <- <-. by exists rows.
Qed.

End SummaryRows.

(** X13: when the summary-table builder returns, the table stored in the
    main document has one row for every entry that is no bookkeeping
    key, carries no error and has metadata, in the order of the findings
    and for no other entry; the row holds the entry's name, the tool
    source taken from the name's prefix, the priority the schema gives
    for the lower-cased severity of the metadata (a dash without
    severity or for an unknown one) and the affected count of the
    metadata (a dash without). *)
Theorem create_findings_summary_table_rows (headlines : string → list string)
    (findings out : pydict fvalue) :
  create_findings_summary_table headlines findings = Ok out →
  ∃ m table,
    main_of out = Some m ∧ summary_table m = Some table ∧
    Forall2 (λ row kv,
               r_name row = kv.1 ∧ r_tool_source row = item_source kv.1 ∧
               ∃ f md,
                 kv.2 = Rendered f ∧ f_error f = None ∧
                 f_metadata f = Some (Some md) ∧
                 r_priority row
                 = match get "severity" md with
                   | Some sev =>
                       from_option id "-" (get (lower sev) priority_mapping_schema)
                   | None => "-"
                   end ∧
                 r_affected_count row
                 = from_option id "-" (get "affected_count" md))
      table (List.filter summarised findings).
Proof.
  unfold create_findings_summary_table. intros Hout.
  destruct (summary_items headlines (findings, []) findings)
    as [[findings' table]| |] eqn:E; simpl in Hout; [|done..].
  destruct (with_main_document_Ok _ _ _ Hout) as (m1 & _ & Hm).
  eexists _, table. split; [exact Hm|]. split; [done|].
  destruct (summary_items_rows headlines _ _ _ _ _ E) as (rows & -> & HF).
  simpl. eapply Forall2_impl; [exact HF|].
  intros row [item value] (f & md & Hv & He & Hmd & Hrow). simpl in *.
  unfold summary_row_of in Hrow.
  destruct (match f_content f with
            | None => Ok "-"
            | Some None => Raise TypeError
            | Some (Some content) =>
                match headlines content with
                | h :: _ => Ok h
                | [] => Raise IndexError
                end
            end) as [h| |]; simpl in Hrow; [|done..].
  injection Hrow as <-. simpl. split; [done|]. split; [done|].
  by exists f, md.
Qed.

Lemma create_findings_summary_table_rows_witness :
  ∃ out m,
    create_findings_summary_table re_headlines findings_with_row = Ok out ∧
    main_of out = Some m ∧
    summary_table m
    = Some [ {| r_name := "nae_APP_EPG_NOT_DEPLOYED";
                r_headline := "EPG not deployed";
                r_tool_source := "3 - nae";
                r_priority := "2 - Warning";
                r_affected_count := "3" |} ].
Proof.
  eexists.
  destruct (create_findings_summary_table_rows re_headlines findings_with_row
              _ eq_refl) as (m & table & Hm & Ht & _).
  exists m. split; [reflexivity|]. split; [exact Hm|].
  vm_compute in Hm. injection Hm as <-. reflexivity.
Defined.

(** ** Analysis of the vetR export *)

Lemma analyse_entry_Actions path entry output output' :
  analyse_entry path entry output = Actions output' →
  output' = output ∨
  ∃ entry_key, recommended path entry entry_key ∧
               mem entry_key output = false ∧
               output' = set (test_prefix ++ entry_key) entry output.
Proof.
  unfold analyse_entry. destruct entry as [| | | | |e]; try done.
  destruct (get "actionRecommended" e) as [flag|] eqn:Hflag; [|done].
  destruct (truthy flag) eqn:Ht; [|intros [= <-]; by left].
  destruct (mem "error" e) eqn:He.
  { destruct (join_path path); [|done]. intros [= <-]. by left. }
  destruct (join_path path) as [entry_key|] eqn:Hj; [|done].
  destruct (mem entry_key output) eqn:Hm; [done|].
  destruct (String.eqb_spec entry_key "fabric_bfdFabricInt") as [->|Hne].
  - destruct (recommended_enabled e) as [[|]| |] eqn:Hr; try done.
    + intros [= <-]. by left.
    + intros [= <-]. right. exists "fabric_bfdFabricInt".
      split; [|done]. by exists e, flag.
  - intros [= <-]. right. exists entry_key. split; [|done].
    by exists e, flag.
Qed.

Lemma analyse_entries_Actions yielded : ∀ output output',
  analyse_entries yielded output = Actions output' →
  ∀ k entry, (k, entry) ∈ output' →
    (k, entry) ∈ output ∨
    ∃ path entry_key, (path, entry) ∈ yielded ∧
                      recommended path entry entry_key ∧
                      k = test_prefix ++ entry_key.
Proof.
  induction yielded as [|[path entry] rest IH]; intros output output'; simpl.
  { intros [= <-]. by left. }
  destruct (analyse_entry path entry output) as [output1| |] eqn:E; [|done..].
  intros Hrest k x Hin.
  destruct (IH _ _ Hrest k x Hin) as [Hin1|(p & ek & Hp & Hr & ->)].
  - destruct (analyse_entry_Actions _ _ _ _ E) as [->|(ek & Hr & _ & ->)];
      [by left|].
    apply elem_of_set in Hin1 as [[= -> ->]|?]; [|by left].
    right. exists path, ek. split; [left|done].
  - right. exists p, ek. split; [by right|done].
Qed.

Lemma reaches_record_keys key var p r :
  reaches key var p r → (∃ d, r = JDict d) →
  ∀ e, PElem e ∈ p → (∃ d, e = JDict d) ∨ (∃ l, e = JList l).
Proof.
  induction 1 as [j|d k v path r Hm Hin Hr IH|l e path r Hin Hr IH];
    intros Hd x Hx.
  - by apply elem_of_nil in Hx.
  - apply elem_of_cons in Hx as [[=]|Hx]. by apply IH.
  - apply elem_of_cons in Hx as [[= ->]|Hx]; [|by apply IH].
    destruct Hd as [d ->]. inversion Hr; subst; eauto.
Qed.

Lemma path_strings_keys path l :
  path_strings path = Some l →
  ∀ e, PElem e ∈ path → ∃ s, e = JStr s.
Proof.
  revert l. induction path as [|x path IH]; intros l; simpl.
  { intros _ e H. by apply elem_of_nil in H. }
  assert (∀ y, (cons y <$> path_strings path) = Some l →
               ∃ l', path_strings path = Some l') as Htl.
  { intros y. destruct (path_strings path); [eauto|done]. }
  destruct x as [k|[| | |s| |]]; try done; intros Hl e Hin;
    destruct (Htl _ Hl) as [l' Hl'];
    apply elem_of_cons in Hin as [Heq|Hin]; try (by eapply IH);
    first [discriminate | injection Heq as ->; eauto].
Qed.

(** X14: when the analysis of the export returns, every action of its
    output is a yielded record whose [actionRecommended] is true, which
    has no [error], whose path consists of mapping keys only, and which is
    stored under [vetR_] followed by the keys of the path joined by
    underscores; under [vetR_fabric_bfdFabricInt] there is never a record
    that recommends enabling BFD. *)
Theorem vetr_analyse_output_actions (vetr_data : json) (output : pydict json) :
  vetr_analyse_output vetr_data = Actions output →
  ∀ k entry, (k, entry) ∈ output →
    ∃ path entry_key,
      (path, entry) ∈ get_nested_dict_entries_containing_key vetr_data
                        "actionRecommended" ∧
      recommended path entry entry_key ∧
      (∀ x, x ∈ path → ∃ key, x = PKey key) ∧
      k = "vetR_" ++ entry_key.
Proof.
  intros Hout k entry Hin.
  destruct (analyse_entries_Actions _ _ _ Hout k entry Hin)
    as [H|(path & ek & Hp & Hr & ->)]; [by apply elem_of_nil in H|].
  exists path, ek. split; [done|]. split; [done|]. split; [|done].
  intros [key|e] Hx; [by exists key|].
  destruct Hr as (d & flag & -> & _ & _ & _ & Hj & _).
  unfold join_path in Hj.
  destruct (path_strings path) as [l|] eqn:Hl; [|done].
  destruct (path_strings_keys _ _ Hl e Hx) as [s ->].
  apply walk_yields in Hp as [_ (q & Hq & Hreach)]. simpl in Hq. subst q.
  destruct (reaches_record_keys _ _ _ _ Hreach (ex_intro _ d eq_refl) _ Hx)
    as [[? [=]]|[? [=]]].
Qed.

Lemma vetr_analyse_output_actions_witness :
  ∃ path entry_key,
    (path, JDict [("actionRecommended", JBool true)])
      ∈ get_nested_dict_entries_containing_key two_recommendations
          "actionRecommended" ∧
    recommended path (JDict [("actionRecommended", JBool true)]) entry_key ∧
    (∀ x, x ∈ path → ∃ key, x = PKey key) ∧
    "vetR_fabric_dom" = "vetR_" ++ entry_key.
Proof.
  apply (vetr_analyse_output_actions two_recommendations
           [("vetR_fabric_dom", JDict [("actionRecommended", JBool true)])]).
  - vm_compute. reflexivity.
  - left.
Defined.

Lemma analyse_entry_joins path e flag output output' :
  analyse_entry path (JDict e) output = Actions output' →
  get "actionRecommended" e = Some flag → truthy flag = true →
  is_Some (join_path path).
Proof.
  unfold analyse_entry. intros H Hflag Ht. rewrite Hflag, Ht in H.
  destruct (join_path path); [eauto|]. by destruct (mem "error" e).
Qed.

Lemma analyse_entries_joins yielded : ∀ output output',
  analyse_entries yielded output = Actions output' →
  ∀ path e flag, (path, JDict e) ∈ yielded →
    get "actionRecommended" e = Some flag → truthy flag = true →
    is_Some (join_path path).
Proof.
  induction yielded as [|[p r] rest IH]; intros output output'; simpl.
  { intros _ path e flag H. by apply elem_of_nil in H. }
  destruct (analyse_entry p r output) as [output1| |] eqn:E; [|done..].
  intros Hrest path e flag [[= <- <-]|Hin]%elem_of_cons Hflag Ht.
  - by eapply analyse_entry_joins.
  - by eapply IH.
Qed.

(** X15: a record with a true [actionRecommended] that lies below a
    sequence keeps the analysis from returning: its path holds the
    sequence element, which the join of the path rejects. *)
Theorem vetr_analyse_output_sequence (vetr_data : json)
    (path : list path_elem) (e : pydict json) (flag d : json) :
  (path, JDict e) ∈ get_nested_dict_entries_containing_key vetr_data
                      "actionRecommended" →
  get "actionRecommended" e = Some flag → truthy flag = true →
  PElem d ∈ path →
  returns (vetr_analyse_output vetr_data) = false.
Proof.
  intros Hin Hflag Ht Hd.
  destruct (vetr_analyse_output vetr_data) as [output| |] eqn:Hout; [|done..].
  exfalso.
  destruct (analyse_entries_joins _ _ _ Hout path e flag Hin Hflag Ht)
    as [ek Hj].
  unfold join_path in Hj.
  destruct (path_strings path) as [l|] eqn:Hl; [|done].
  destruct (path_strings_keys _ _ Hl d Hd) as [s ->].
  apply walk_yields in Hin as [_ (q & Hq & Hreach)]. simpl in Hq. subst q.
  destruct (reaches_record_keys _ _ _ _ Hreach (ex_intro _ e eq_refl) _ Hd)
    as [[? [=]]|[? [=]]].
Qed.

Lemma vetr_analyse_output_sequence_witness :
  returns (vetr_analyse_output recommended_in_sequence) = false.
Proof.
  apply (vetr_analyse_output_sequence recommended_in_sequence
           [PKey "tenant"; PKey "bdStats";
            PElem (JDict [("actionRecommended", JBool true)])]
           [("actionRecommended", JBool true)] (JBool true)
           (JDict [("actionRecommended", JBool true)])).
  - vm_compute. left.
  - reflexivity.
  - reflexivity.
  - right. right. left.
Defined.

Lemma analyse_entry_keys path entry output output' :
  analyse_entry path entry output = Actions output' →
  (∀ k, k ∈ keys output → k ∈ keys output') ∧
  ∀ entry_key, recommended path entry entry_key →
               test_prefix ++ entry_key ∈ keys output'.
Proof.
  intros H. split.
  - destruct (analyse_entry_Actions _ _ _ _ H) as [->|(ek & _ & _ & ->)];
      [done|].
    intros k Hk. apply elem_keys_set. by right.
  - intros ek (e & flag & -> & Hflag & Ht & He & Hj & Hbfd).
    unfold analyse_entry in H. rewrite Hflag, Ht, He, Hj in H.
    destruct (mem ek output); [done|].
    destruct (String.eqb_spec ek "fabric_bfdFabricInt") as [Heq|Hne].
    + rewrite (Hbfd Heq) in H. injection H as <-. apply elem_keys_set. by left.
    + injection H as <-. apply elem_keys_set. by left.
Qed.

Lemma analyse_entries_keys yielded : ∀ output output',
  analyse_entries yielded output = Actions output' →
  (∀ k, k ∈ keys output → k ∈ keys output') ∧
  ∀ path entry entry_key,
    (path, entry) ∈ yielded → recommended path entry entry_key →
    test_prefix ++ entry_key ∈ keys output'.
Proof.
  induction yielded as [|[p r] rest IH]; intros output output'; simpl.
  { intros [= <-]. split; [done|]. intros ??? H. by apply elem_of_nil in H. }
  destruct (analyse_entry p r output) as [output1| |] eqn:E; [|done..].
  intros Hrest. destruct (IH _ _ Hrest) as [Hmono Hall].
  destruct (analyse_entry_keys _ _ _ _ E) as [Hmono1 Hthis].
  split; [auto|].
  intros path entry ek [[= -> ->]|Hin]%elem_of_cons Hr; [|by eapply Hall].
  apply Hmono. by apply Hthis.
Qed.

(** X16: when the analysis returns, the keys of its output are exactly
    the prefixed joined paths of the yielded records that are recommended,
    carry no [error] and are not the suppressed BFD recommendation. *)
Theorem vetr_analyse_output_keys (vetr_data : json) (output : pydict json) :
  vetr_analyse_output vetr_data = Actions output →
  ∀ k, k ∈ keys output ↔
       ∃ path entry entry_key,
         (path, entry) ∈ get_nested_dict_entries_containing_key vetr_data
                           "actionRecommended" ∧
         recommended path entry entry_key ∧ k = "vetR_" ++ entry_key.
Proof.
  intros Hout k. split.
  - intros Hk. apply get_is_Some in Hk as [entry Hget].
    apply get_elem in Hget.
    destruct (analyse_entries_Actions _ _ _ Hout k entry Hget)
      as [H|(path & ek & Hp & Hr & ->)]; [by apply elem_of_nil in H|].
    by exists path, entry, ek.
  - intros (path & entry & ek & Hin & Hr & ->).
    by apply (proj2 (analyse_entries_keys _ _ _ Hout) path entry ek).
Qed.

Lemma vetr_analyse_output_keys_witness :
  "vetR_fabric_dom"
    ∈ keys (match vetr_analyse_output two_recommendations with
            | Actions output => output
            | _ => []
            end).
Proof.
  apply (proj2 (vetr_analyse_output_keys two_recommendations
                  [("vetR_fabric_dom", JDict [("actionRecommended", JBool true)])]
                  eq_refl "vetR_fabric_dom")).
  exists [PKey "fabric"; PKey "dom"],
         (JDict [("actionRecommended", JBool true)]), "fabric_dom".
  split; [vm_compute; right; left|]. split; [|reflexivity].
  exists [("actionRecommended", JBool true)], (JBool true).
  repeat split; try reflexivity. discriminate.
Defined.

Lemma analyse_entry_Multiple path entry output entry_key :
  analyse_entry path entry output = MultipleRecommendations entry_key →
  mem entry_key output = true ∧ join_path path = Some entry_key.
Proof.
  unfold analyse_entry. destruct entry as [| | | | |e]; try done.
  destruct (get "actionRecommended" e) as [flag|]; [|done].
  destruct (truthy flag); [|done].
  destruct (mem "error" e).
  { by destruct (join_path path). }
  destruct (join_path path) as [ek|]; [|done].
  destruct (mem ek output) eqn:Hm.
  { by intros [= <-]. }
  destruct (String.eqb ek "fabric_bfdFabricInt"); [|done].
  by destruct (recommended_enabled e) as [[|]| |].
Qed.

Lemma analyse_entries_Multiple yielded entry_key : ∀ output,
  analyse_entries yielded output = MultipleRecommendations entry_key →
  (entry_key ∈ keys output ∨
   ∃ path entry earlier_key,
     (path, entry) ∈ yielded ∧ recommended path entry earlier_key ∧
     entry_key = test_prefix ++ earlier_key) ∧
  ∃ path entry, (path, entry) ∈ yielded ∧ join_path path = Some entry_key.
Proof.
  induction yielded as [|[p r] rest IH]; intros output; simpl; [done|].
  destruct (analyse_entry p r output) as [output1|ek|] eqn:E; [| |done].
  - intros Hrest. destruct (IH _ Hrest) as [Hfirst (p2 & r2 & Hin2 & Hj2)].
    split; [|exists p2, r2; split; [by right|done]].
    destruct Hfirst as [Hk|(p1 & r1 & ek1 & Hin1 & Hr1 & ->)].
    + destruct (analyse_entry_Actions _ _ _ _ E) as [->|(ek1 & Hr1 & _ & ->)];
        [by left|].
      apply elem_keys_set in Hk as [->|Hk]; [|by left].
      right. exists p, r, ek1. split; [left|done].
    + right. exists p1, r1, ek1. split; [by right|done].
  - intros [= ->]. destruct (analyse_entry_Multiple _ _ _ _ E) as [Hm Hj].
    split; [left; by apply mem_true|].
    exists p, r. split; [left|done].
Qed.

(** X17: the exit for multiple recommendations is taken only for a
    record whose own joined path is the prefixed key [vetR_<path>] of a
    recommended record seen before: the check looks the joined path up
    among the prefixed keys of the output, so that two records with the
    same joined path never end the run. *)
Theorem vetr_analyse_output_multiple (vetr_data : json) (entry_key : string) :
  vetr_analyse_output vetr_data = MultipleRecommendations entry_key →
  ∃ path entry earlier_path earlier_entry earlier_key,
    (path, entry) ∈ get_nested_dict_entries_containing_key vetr_data
                      "actionRecommended" ∧
    join_path path = Some entry_key ∧
    (earlier_path, earlier_entry)
      ∈ get_nested_dict_entries_containing_key vetr_data "actionRecommended" ∧
    recommended earlier_path earlier_entry earlier_key ∧
    entry_key = "vetR_" ++ earlier_key.
Proof.
  intros H.
  destruct (analyse_entries_Multiple _ _ _ H)
    as [[Hk|(p1 & r1 & ek1 & Hin1 & Hr1 & ->)] (p2 & r2 & Hin2 & Hj2)].
  { by apply elem_of_nil in Hk. }
  by exists p2, r2, p1, r1, ek1.
Qed.

Lemma vetr_analyse_output_multiple_witness :
  ∃ path entry earlier_path earlier_entry earlier_key,
    (path, entry) ∈ get_nested_dict_entries_containing_key prefixed_twice
                      "actionRecommended" ∧
    join_path path = Some "vetR_dom" ∧
    (earlier_path, earlier_entry)
      ∈ get_nested_dict_entries_containing_key prefixed_twice
          "actionRecommended" ∧
    recommended earlier_path earlier_entry earlier_key ∧
    "vetR_dom" = "vetR_" ++ earlier_key.
Proof.
  apply (vetr_analyse_output_multiple prefixed_twice "vetR_dom").
  vm_compute. reflexivity.
Defined.

(** ** Rendering of the findings *)


(** What the loop of the renderers returns: the names rendered are those
    not skipped, and each finding is the rendering of an entry of its
    name. *)
Lemma render_loop_spec {Item : Type} (skip : string → bool)
    (render : string → Item → outcome rendered_finding)
    (items : pydict Item) : ∀ out out',
  render_loop skip render items out = Ok out' →
  (∀ k, k ∈ keys out' ↔ k ∈ keys out ∨ (k ∈ keys items ∧ skip k = false)) ∧
  (∀ k f, get k out' = Some f →
          get k out = Some f ∨
          ∃ item, (k, item) ∈ items ∧ skip k = false ∧ render k item = Ok f).
Proof.
  induction items as [|[name item] items IH]; intros out out'; simpl.
  { intros [= <-]. split; [|by left]. intros k. rewrite elem_of_nil. tauto. }
  destruct (skip name) eqn:Hs.
  - intros H. destruct (IH _ _ H) as [Hk Hv]. split.
    + intros k. rewrite Hk, elem_of_cons.
      split; [tauto|]. intros [?|[[->|?] Hf]]; [tauto|congruence|tauto].
    + intros k f Hget. destruct (Hv k f Hget) as [?|(it & Hin & ? & ?)];
        [by left|]. right. exists it. split; [by right|done].
  - destruct (render name item) as [f0| |] eqn:Hr; simpl; [|done..].
    intros H. destruct (IH _ _ H) as [Hk Hv]. split.
    + intros k. rewrite Hk, elem_keys_set, elem_of_cons. split; [|tauto].
      intros [[->|?]|[? ?]]; tauto.
    + intros k f Hget. destruct (Hv k f Hget) as [Hg|(it & Hin & ? & ?)].
      * destruct (decide (name = k)) as [->|Hne].
        -- rewrite get_set_eq in Hg. injection Hg as <-.
           right. exists item. split; [left|done].
        -- rewrite get_set_ne in Hg by done. by left.
      * right. exists it. split; [by right|done].
Qed.


Section TemplateRenderFacts.

Context {Item : Type}.
Variable jinja : string → Item → jinja_outcome.
Variable yaml_load : string → yaml_outcome.
Variable submit_telemetry : string → string → Item → outcome unit.









Lemma reset_for_ndi_Ok template_file item f :
  reset_for_ndi submit_telemetry template_file item = Ok f →
  f = ndi_support_missing template_file.
Proof.
  unfold reset_for_ndi.
  destruct (submit_telemetry _ template_file item) as [[]| |]; simpl;
    [|done..].
  by intros [= <-].
Qed.

(** The check for NDI support, by the value of the metadata. *)
Lemma check_ndi_support_cases template_file item content metadata :
  (∀ d support,
     metadata = JDict d → get "ndi_support" d = Some support →
     truthy support = true →
     check_ndi_support submit_telemetry template_file item content metadata
     = Ok {| rf_content := Some content; rf_metadata := metadata;
             rf_error := None |}) ∧
  (∀ d,
     metadata = JDict d →
     (∀ support, get "ndi_support" d = Some support →
                 truthy support = false) →
     (∀ f, check_ndi_support submit_telemetry template_file item content
             metadata = Ok f →
           f = ndi_support_missing template_file) ∧
     ((∀ exception file item',
         submit_telemetry exception file item' = Ok tt) →
      check_ndi_support submit_telemetry template_file item content metadata
      = Ok (ndi_support_missing template_file))) ∧
  ((∀ d, metadata ≠ JDict d) →
   check_ndi_support submit_telemetry template_file item content metadata
   = Raise TypeError).
Proof.
  unfold check_ndi_support. split; [|split].
  - intros d support -> -> ->. done.
  - intros d -> Hno. split.
    + intros f.
      destruct (get "ndi_support" d) as [support|];
        [|apply reset_for_ndi_Ok].
      rewrite (Hno support eq_refl).
      destruct (reset_for_ndi submit_telemetry template_file item)
        as [f0| |[]] eqn:E; try done.
      intros [= <-]. by apply (reset_for_ndi_Ok _ item).
    + intros Ht.
      destruct (get "ndi_support" d) as [support|];
        [rewrite (Hno support eq_refl)|];
        unfold reset_for_ndi; by rewrite Ht.
  - intros Hno. destruct metadata; try done. by destruct (Hno d).
Qed.


End TemplateRenderFacts.





(** X20: for an NDI run, an event whose template renders with metadata
    that is a mapping keeps content and metadata without error exactly
    when the mapping has a non-empty [ndi_support]; every non-empty
    value, the text [false] included, counts as support.  Without such
    a value the only finding the rendering can return is the one with
    the error [NDI support missing in template], empty content and no
    metadata, and it returns that one if the telemetry call returns;
    and with metadata that is no mapping the rendering raises
    [TypeError]. *)
Theorem nae_render_event_ndi_support {Item : Type}
    (jinja : string → Item → jinja_outcome)
    (yaml_load : string → yaml_outcome)
    (submit_telemetry : string → string → Item → outcome unit)
    (event : string) (item : Item) (content : string) (metadata : json) :
  jinja (event ++ ".md") item = RenderedOutput content →
  get_template_metadata yaml_load content (event ++ ".md")
  = Ok (Some metadata) →
  (∀ d support,
     metadata = JDict d → get "ndi_support" d = Some support →
     truthy support = true →
     nae_render_event jinja yaml_load submit_telemetry true event item
     = Ok {| rf_content := Some content; rf_metadata := metadata;
             rf_error := None |}) ∧
  (∀ d,
     metadata = JDict d →
     (∀ support, get "ndi_support" d = Some support →
                 truthy support = false) →
     (∀ f, nae_render_event jinja yaml_load submit_telemetry true event item
           = Ok f →
           f = ndi_support_missing (event ++ ".md")) ∧
     ((∀ exception file item',
         submit_telemetry exception file item' = Ok tt) →
      nae_render_event jinja yaml_load submit_telemetry true event item
      = Ok (ndi_support_missing (event ++ ".md")))) ∧
  ((∀ d, metadata ≠ JDict d) →
   nae_render_event jinja yaml_load submit_telemetry true event item
   = Raise TypeError).
Proof.
  intros Hj Hm. unfold nae_render_event, render_template. rewrite Hj.
  simpl. rewrite Hm. simpl.
  apply check_ndi_support_cases.
Qed.

Lemma nae_render_event_ndi_support_witness :
  nae_render_event example_template example_yaml_load incognito true
    "nae_EVENT" JNull
  = Ok {| rf_content := Some example_content;
          rf_metadata := JDict [("severity", JStr "warning");
                                ("ndi_support", JStr "false")];
          rf_error := None |}.
Proof.
  apply (proj1 (nae_render_event_ndi_support example_template
                  example_yaml_load incognito "nae_EVENT" JNull
                  example_content
                  (JDict [("severity", JStr "warning");
                          ("ndi_support", JStr "false")])
                  eq_refl eq_refl)
           [("severity", JStr "warning"); ("ndi_support", JStr "false")]
           (JStr "false")); reflexivity.
Defined.

(** ** Remote assurance client, variant [nae] *)

Lemma nae_scan_unlisted unique_name entries status :
  unlisted unique_name entries →
  nae_scan unique_name entries status = (false, status).
Proof.
  unfold nae_scan. generalize (false, status).
  induction entries as [|entry entries IH]; intros acc H; simpl; [done|].
  inversion H as [|?? Hne Hrest]; subst.
  apply String.eqb_neq in Hne. rewrite Hne. by apply IH.
Qed.

Lemma nae_monitor_loop_stale unique_name s listings : ∀ sleeps,
  s = "ANALYSIS_NOT_STARTED" ∨ s = "ANALYSIS_IN_PROGRESS" →
  Forall (unlisted unique_name) listings →
  nae_monitor_loop unique_name (Some s) sleeps listings
  = NaeStillPolling (Some s) (sleeps + length listings).
Proof.
  intros sleeps Hs HF. revert sleeps.
  induction HF as [|entries rest Hun HF IH]; intros sleeps; simpl.
  { f_equal. lia. }
  rewrite (nae_scan_unlisted _ _ _ Hun).
  destruct Hs as [->| ->]; simpl; rewrite IH; f_equal; lia.
Qed.

(** X21: the NAE job monitor has no exit for an analysis that is not
    listed: when the first listing lacks it, the comparison of the
    unbound [status] raises [UnboundLocalError] before any sleep; when
    it was listed as not started or in progress and is in none of the
    later listings, the monitor keeps the status of the earlier round,
    sleeps and polls again after every one of them. *)
Theorem nae_monitor_unlisted_analysis (unique_name : string)
    (first : list analysis_entry) (later : list (list analysis_entry)) :
  (unlisted unique_name first →
   nae_monitor_analysis_nae unique_name (first :: later)
   = NaeUnboundLocalError 0) ∧
  (∀ s, (s = "ANALYSIS_NOT_STARTED" ∨ s = "ANALYSIS_IN_PROGRESS") →
        nae_scan unique_name first None = (true, Some s) →
        Forall (unlisted unique_name) later →
        nae_monitor_analysis_nae unique_name (first :: later)
        = NaeStillPolling (Some s) (S (length later))).
Proof.
  unfold nae_monitor_analysis_nae. split.
  - intros Hun. simpl. by rewrite (nae_scan_unlisted _ _ _ Hun).
  - intros s Hs Hscan HF. simpl. rewrite Hscan.
    pose proof (nae_monitor_loop_stale unique_name s later 1 Hs HF) as Hl.
    destruct Hs as [->| ->]; simpl; by rewrite Hl.
Qed.

Lemma nae_monitor_unlisted_analysis_witness :
  nae_monitor_analysis_nae "upload-1"
    (other_analysis_listing :: replicate 3 other_analysis_listing)
  = NaeUnboundLocalError 0 ∧
  nae_monitor_analysis_nae "upload-1"
    (not_started_listing "upload-1" :: replicate 7 other_analysis_listing)
  = NaeStillPolling (Some "ANALYSIS_NOT_STARTED") 8.
Proof.
  split.
  - apply (proj1 (nae_monitor_unlisted_analysis "upload-1"
                    other_analysis_listing
                    (replicate 3 other_analysis_listing))).
    repeat constructor. discriminate.
  - apply (proj2 (nae_monitor_unlisted_analysis "upload-1"
                    (not_started_listing "upload-1")
                    (replicate 7 other_analysis_listing))
             "ANALYSIS_NOT_STARTED").
    + by left.
    + reflexivity.
    + repeat constructor; discriminate.
Defined.

Lemma recorded_set_eq name se output :
  recorded name (set ("nae_" ++ name) se output) = event_list se.
Proof. unfold recorded. by rewrite get_set_eq. Qed.

Lemma recorded_set_ne name name' se output :
  name' ≠ name →
  recorded name (set ("nae_" ++ name') se output) = recorded name output.
Proof.
  intros Hne. unfold recorded. rewrite get_set_ne; [done|].
  intros [= H]. done.
Qed.

Lemma details_of_app name evs1 evs2 :
  details_of name (evs1 ++ evs2)
  = (details_of name evs1 ++ details_of name evs2)%list.
Proof. unfold details_of. by rewrite List.filter_app, fmap_app. Qed.

Lemma add_nae_event_recorded (add : pydict smart_event → nae_event → pydict smart_event)
    output ev name :
  add = add_nae_event_first ∨ add = add_nae_event_next →
  recorded name (add output ev)
  = (recorded name output ++ details_of name [ev])%list ∧
  (∀ k, k ∈ keys (add output ev) ↔ k = "nae_" ++ se_name ev ∨ k ∈ keys output).
Proof.
  intros Hadd. unfold details_of. simpl.
  destruct (String.eqb_spec (se_name ev) name) as [<-|Hne].
  - destruct Hadd as [-> | ->];
      unfold add_nae_event_first, add_nae_event_next;
      (split; [by rewrite recorded_set_eq | intros k; apply elem_keys_set]).
  - destruct Hadd as [-> | ->];
      unfold add_nae_event_first, add_nae_event_next;
      (split; [rewrite recorded_set_ne by done; by rewrite app_nil_r
              | intros k; apply elem_keys_set]).
Qed.

Lemma fold_add_nae_recorded (add : pydict smart_event → nae_event → pydict smart_event)
    evs name : ∀ output,
  add = add_nae_event_first ∨ add = add_nae_event_next →
  recorded name (fold_left add evs output)
  = (recorded name output ++ details_of name evs)%list ∧
  (∀ k, k ∈ keys (fold_left add evs output) ↔
        k ∈ keys output ∨ k ∈ (λ ev, "nae_" ++ se_name ev) <$> evs).
Proof.
  intros output Hadd. revert output.
  induction evs as [|ev evs IH]; intros output; simpl.
  { split; [by rewrite app_nil_r|]. intros k. rewrite elem_of_nil. tauto. }
  destruct (IH (add output ev)) as [Hr Hk].
  destruct (add_nae_event_recorded add output ev name Hadd) as [Hr1 Hk1].
  split.
  - rewrite Hr, Hr1, <- app_assoc. f_equal.
    change (ev :: evs) with ([ev] ++ evs)%list. by rewrite details_of_app.
  - intros k. rewrite Hk, Hk1, elem_of_cons. tauto.
Qed.

Lemma page_events_S fetch first n :
  page_events fetch first (S n)
  = (from_option value_data [] (fetch first)
     ++ page_events fetch (first + 1) n)%list.
Proof.
  unfold page_events. rewrite Nat2Z.inj_succ, seqZ_cons by lia. simpl.
  rewrite Z.pred_succ. by replace (Z.succ first) with (first + 1)%Z by lia.
Qed.

Lemma nae_next_pages_all fetch total name : ∀ n fuel current output requested,
  (current + Z.of_nat n = total)%Z →
  (n ≤ fuel)%nat →
  (∀ page, (current ≤ page < total)%Z → is_Some (fetch page)) →
  ∃ output',
    nae_next_pages fuel fetch total current output requested
    = Some {| result := Ok (true, output');
              requested := (requested ++ seqZ current (Z.of_nat n))%list |} ∧
    recorded name output'
    = (recorded name output
       ++ details_of name (page_events fetch current n))%list ∧
    (∀ k, k ∈ keys output' ↔
          k ∈ keys output ∨
          k ∈ (λ ev, "nae_" ++ se_name ev) <$> page_events fetch current n).
Proof.
  induction n as [|n IH]; intros fuel current output requested Htot Hfuel Hok.
  - exists output. split; [|split].
    + assert ((current <? total)%Z = false) as Hlt by (apply Z.ltb_ge; lia).
      destruct fuel; simpl; rewrite Hlt; by rewrite app_nil_r.
    + unfold page_events. simpl. by rewrite app_nil_r.
    + intros k. unfold page_events. simpl. rewrite elem_of_nil. tauto.
  - destruct fuel as [|fuel]; [lia|]. simpl.
    assert ((current <? total)%Z = true) as -> by (apply Z.ltb_lt; lia).
    destruct (Hok current ltac:(lia)) as [response Hresp]. rewrite Hresp.
    destruct (IH fuel (current + 1)%Z
                (fold_left add_nae_event_next (value_data response) output)
                (requested ++ [current])%list)
      as (output' & Hrun & Hrec & Hkeys); [lia | lia | |].
    { intros page Hp. apply Hok. lia. }
    exists output'. split; [|split].
    + rewrite Hrun. do 2 f_equal.
      rewrite Nat2Z.inj_succ, (seqZ_cons current) by lia.
      rewrite <- app_assoc, Z.pred_succ. simpl.
      by replace (Z.succ current) with (current + 1)%Z by lia.
    + rewrite Hrec, page_events_S, Hresp, details_of_app, app_assoc. simpl.
      f_equal.
      by apply (fold_add_nae_recorded add_nae_event_next); right.
    + intros k. rewrite Hkeys, page_events_S, Hresp, fmap_app, elem_of_app.
      simpl.
      rewrite (proj2 (fold_add_nae_recorded add_nae_event_next
                        (value_data response) name output (or_intror eq_refl))).
      tauto.
Qed.

(** X22: when the service answers every page below the page count of its
    first answer, the NAE retrieval returns (with as many rounds as there
    are pages), having requested each of the pages 0, 1, ... once and in
    order; the output has one record per event name of these pages, and
    the record of a name lists the details of all events of that name,
    in the order of the pages: no event is missed. *)
Theorem nae_retrieval_all_pages (fetch : Z → option nae_response)
    (first : nae_response) (fuel : nat) :
  fetch 0%Z = Some first →
  (∀ page, (1 ≤ page < data_summary_total_page_count first)%Z →
           is_Some (fetch page)) →
  (Z.to_nat (data_summary_total_page_count first) ≤ fuel)%nat →
  let pages := Z.to_nat (Z.max 1 (data_summary_total_page_count first)) in
  ∃ output,
    nae_get_smart_events_by_epoch_id fuel fetch
    = Some {| result := Ok (true, output);
              requested := seqZ 0 (Z.of_nat pages) |} ∧
    (∀ name, recorded name output
             = details_of name (page_events fetch 0 pages)) ∧
    (∀ k, k ∈ keys output ↔
          k ∈ (λ ev, "nae_" ++ se_name ev) <$> page_events fetch 0 pages).
Proof.
  intros H0 Hok Hfuel pages. unfold nae_get_smart_events_by_epoch_id.
  rewrite H0.
  set (total := data_summary_total_page_count first) in *.
  set (output0 := fold_left add_nae_event_first (value_data first) []).
  assert (∀ name, recorded name output0 = details_of name (value_data first))
    as Hrec0.
  { intros name. unfold output0.
    by rewrite (proj1 (fold_add_nae_recorded add_nae_event_first
                         (value_data first) name [] (or_introl eq_refl))). }
  assert (∀ k, k ∈ keys output0 ↔
               k ∈ (λ ev, "nae_" ++ se_name ev) <$> value_data first) as Hkeys0.
  { intros k. unfold output0.
    rewrite (proj2 (fold_add_nae_recorded add_nae_event_first
                      (value_data first) "" [] (or_introl eq_refl))).
    simpl. rewrite elem_of_nil. tauto. }
  destruct (Z.ltb_spec 1 total) as [Hlt|Hge].
  - assert (∃ n, pages = S n ∧ (1 + Z.of_nat n = total)%Z) as (n & Hp & Hn).
    { exists (Z.to_nat (total - 1)). unfold pages. split; lia. }
    assert (∀ name, ∃ output,
              nae_next_pages fuel fetch total 1 output0 [0%Z]
              = Some {| result := Ok (true, output);
                        requested := seqZ 0 (Z.of_nat pages) |} ∧
              recorded name output
              = details_of name (page_events fetch 0 pages) ∧
              (∀ k, k ∈ keys output ↔
                    k ∈ (λ ev, "nae_" ++ se_name ev)
                          <$> page_events fetch 0 pages)) as Hall.
    { intros name.
      destruct (nae_next_pages_all fetch total name n fuel 1 output0 [0%Z])
        as (output & Hrun & Hrec & Hkeys); [lia | lia | |].
      { intros page Hpage. apply Hok. lia. }
      exists output. rewrite Hp, page_events_S, H0. split; [|split].
      - rewrite Hrun. do 2 f_equal.
        rewrite Nat2Z.inj_succ, (seqZ_cons 0) by lia. simpl.
        by rewrite Z.pred_succ.
      - by rewrite Hrec, Hrec0, details_of_app.
      - intros k. rewrite Hkeys, Hkeys0, fmap_app, elem_of_app. done. }
    destruct (Hall "") as (output & Hrun & _ & Hkeys).
    exists output. split; [done|]. split; [|done].
    intros name. destruct (Hall name) as (output' & Hrun' & Hrec' & _).
    rewrite Hrun in Hrun'. by injection Hrun' as <-.
  - assert (pages = 1%nat) as -> by (unfold pages; lia).
    exists output0. split; [done|].
    rewrite (page_events_S fetch 0 0), H0.
    change (page_events fetch (0 + 1) 0) with (@nil nae_event).
    rewrite app_nil_r. simpl. done.
Qed.

Lemma nae_retrieval_all_pages_witness :
  ∃ output,
    nae_get_smart_events_by_epoch_id 3 three_pages
    = Some {| result := Ok (true, output); requested := [0; 1; 2]%Z |} ∧
    recorded "OVERLAPPING_SUBNET" output = [JNum 1; JNum 3; JNum 5].
Proof.
  destruct (nae_retrieval_all_pages three_pages
              {| data_summary_total_page_count := 3;
                 value_data := from_option value_data [] (three_pages 0) |} 3
              eq_refl (λ page _, ex_intro _ _ eq_refl) ltac:(simpl; lia))
    as (output & Hrun & Hrec & _).
  exists output. split; [exact Hrun|].
  rewrite (Hrec "OVERLAPPING_SUBNET"). reflexivity.
Defined.

(** ** Details of the NDI smart events *)

Lemma details_added_refl se : details_added se se.
Proof. repeat split. exists []. by rewrite app_nil_r. Qed.

Lemma details_added_trans se0 se1 se2 :
  details_added se0 se1 → details_added se1 se2 → details_added se0 se2.
Proof.
  intros (H1 & H2 & H3 & a1 & H4) (G1 & G2 & G3 & a2 & G4).
  repeat split; try congruence.
  exists (a1 ++ a2)%list. by rewrite G4, H4, app_assoc.
Qed.

Lemma details_added_nonempty se0 se :
  details_added se0 se → event_list se0 ≠ [] → event_list se ≠ [].
Proof.
  intros (_ & _ & _ & a & ->) H. by destruct (event_list se0).
Qed.

Lemma details_step_refl event o : details_step event o o.
Proof.
  split; [done|]. split; [done|]. intros se H. exists se.
  split; [done|apply details_added_refl].
Qed.

Lemma details_step_trans event o0 o1 o2 :
  details_step event o0 o1 → details_step event o1 o2 →
  details_step event o0 o2.
Proof.
  intros (K1 & N1 & E1) (K2 & N2 & E2). split; [congruence|].
  split.
  - intros k Hk. by rewrite N2, N1.
  - intros se Hse. destruct (E1 se Hse) as (se1 & H1 & A1).
    destruct (E2 se1 H1) as (se2 & H2 & A2).
    exists se2. split; [done|]. by eapply details_added_trans.
Qed.

Lemma append_details_step event ds o :
  details_step event o (append_details event ds o).
Proof.
  unfold append_details.
  destruct (get event o) as [se|] eqn:Hget; [|apply details_step_refl].
  split; [|split].
  - apply keys_set_present. by eapply get_Some_keys.
  - intros k Hk. by apply get_set_ne.
  - intros se0 Hse0. rewrite Hget in Hse0. injection Hse0 as <-.
    eexists. split; [apply get_set_eq|].
    repeat split. simpl. by eexists.
Qed.

Lemma detail_pages_step fetch event : ∀ rounds current o o',
  detail_pages rounds fetch event current o = Ok o' →
  details_step event o o'.
Proof.
  induction rounds as [|rounds IH]; intros current o o'; simpl.
  { intros [= <-]. apply details_step_refl. }
  destruct (fetch (current * max_response_count)%Z) as [response|]; [|done].
  intros H. eapply details_step_trans; [apply append_details_step|].
  by eapply IH.
Qed.

Lemma detail_event_step fetch o em event o' em' :
  detail_event fetch (o, em) event = Ok (o', em') →
  details_step event o o' ∧
  (em' = em ∨ em' = (em ++ [event])%list) ∧
  (em' = em → ∃ se, get event o' = Some se ∧ event_list se ≠ []).
Proof.
  unfold detail_event.
  destruct (split_on "nae_" event) as [|? [|event_name ?]]; [done..|].
  destruct (fetch event_name 0%Z) as [response|]; cycle 1.
  { intros [= <- <-]. split; [apply details_step_refl|]. split; [by right|].
    intros H. apply (f_equal length) in H. rewrite length_app in H.
    simpl in H. lia. }
  destruct (d_totalResultsCount response) as [total|]; cycle 1.
  { intros [= <- <-]. split; [apply details_step_refl|]. split; [by right|].
    intros H. apply (f_equal length) in H. rewrite length_app in H.
    simpl in H. lia. }
  cbn zeta.
  pose proof (append_details_step event (d_entries response) o) as Hstep1.
  destruct (get event (append_details event (d_entries response) o))
    as [se|] eqn:Hget; [|done].
  assert (∀ o2, details_step event
                  (append_details event (d_entries response) o) o2 →
                details_step event o o2 ∧
                ((length (event_list se) =? 0)%nat = false →
                 ∃ se2, get event o2 = Some se2 ∧ event_list se2 ≠ []))
    as Hfin.
  { intros o2 Hstep2. split; [by eapply details_step_trans|].
    intros Hlen. destruct Hstep2 as (_ & _ & E2).
    destruct (E2 se Hget) as (se2 & Hget2 & Hadd).
    exists se2. split; [done|]. eapply details_added_nonempty; [done|].
    apply Nat.eqb_neq in Hlen. by destruct (event_list se). }
  destruct (1 <? total_page_count total)%Z.
  - destruct (detail_pages _ _ _ _ _) as [o2| |] eqn:Hpages; simpl; [|done..].
    intros [= <- <-]. apply detail_pages_step in Hpages.
    destruct (Hfin o2 Hpages) as [Hs Hne]. split; [done|].
    destruct (length (event_list se) =? 0)%nat.
    + split; [by right|]. intros H. apply (f_equal length) in H.
      rewrite length_app in H. simpl in H. lia.
    + split; [by left|]. intros _. by apply Hne.
  - simpl. intros [= <- <-].
    destruct (Hfin _ (details_step_refl _ _)) as [Hs Hne]. split; [done|].
    destruct (length (event_list se) =? 0)%nat.
    + split; [by right|]. intros H. apply (f_equal length) in H.
      rewrite length_app in H. simpl in H. lia.
    + split; [by left|]. intros _. by apply Hne.
Qed.

(** What the details loop over [events] does: the keys of the output
    stay, every record gets details added at most, the events without
    details are appended to the list, and the others have a record with
    details. *)
Lemma detail_events_effect fetch events : ∀ o em o' em',
  NoDup events →
  detail_events fetch (o, em) events = Ok (o', em') →
  keys o' = keys o ∧
  (∀ k se, get k o = Some se →
           ∃ se', get k o' = Some se' ∧ details_added se se') ∧
  ∃ added,
    em' = (em ++ added)%list ∧ NoDup added ∧
    (∀ k, k ∈ added → k ∈ events) ∧
    (∀ k, k ∈ events → k ∉ added →
          ∃ se, get k o' = Some se ∧ event_list se ≠ []).
Proof.
  induction events as [|event rest IH]; intros o em o' em' Hnd.
  { simpl. intros [= <- <-]. split; [done|]. split.
    - intros k se H. exists se. split; [done|apply details_added_refl].
    - exists []. rewrite app_nil_r. split; [done|]. split; [constructor|].
      split; intros k H; by apply elem_of_nil in H. }
  change (detail_events fetch (o, em) (event :: rest))
    with (detail_event fetch (o, em) event
            ≫= λ st', detail_events fetch st' rest).
  destruct (detail_event fetch (o, em) event) as [[o1 em1]| |] eqn:E;
    cbn [mbind outcome_bind]; [|done..].
  intros Hrest. apply NoDup_cons in Hnd as [Hnotin Hnd].
  destruct (detail_event_step _ _ _ _ _ _ E) as ((K1 & N1 & E1) & Hem1 & Hne1).
  destruct (IH _ _ _ _ Hnd Hrest)
    as (K2 & A2 & added & -> & Hnd2 & Hsub2 & Hhave2).
  split; [congruence|]. split.
  - intros k se Hget.
    destruct (decide (k = event)) as [->|Hk].
    + destruct (E1 se Hget) as (se1 & Hget1 & Hadd1).
      destruct (A2 _ _ Hget1) as (se2 & Hget2 & Hadd2).
      exists se2. split; [done|]. by eapply details_added_trans.
    + rewrite <- (N1 k Hk) in Hget. by apply A2.
  - destruct Hem1 as [->| ->].
    + exists added. split; [done|]. split; [done|]. split.
      * intros k Hk. right. by apply Hsub2.
      * intros k [->|Hk]%elem_of_cons Hna; [|by apply Hhave2].
        destruct (Hne1 eq_refl) as (se1 & Hget1 & Hlist1).
        destruct (A2 _ _ Hget1) as (se2 & Hget2 & Hadd2).
        exists se2. split; [done|]. by eapply details_added_nonempty.
    + exists (event :: added). rewrite <- app_assoc. split; [done|]. split.
      * apply NoDup_cons. split; [|done]. intros H. by apply Hsub2 in H.
      * split.
        -- intros k [->|Hk]%elem_of_cons; [left|right; by apply Hsub2].
        -- intros k [->|Hk]%elem_of_cons Hna.
           ++ exfalso. apply Hna. left.
           ++ apply Hhave2; [done|]. intros H. apply Hna. by right.
Qed.

Lemma keys_filter {V} (f : string → bool) (d : pydict V) :
  keys (List.filter (λ kv, f kv.1) d) = List.filter f (keys d).
Proof.
  induction d as [|[k v] d IH]; simpl; [done|].
  destruct (f k); simpl; by rewrite IH.
Qed.

Lemma get_filter {V} (f : string → bool) (d : pydict V) k :
  get k (List.filter (λ kv, f kv.1) d) = if f k then get k d else None.
Proof.
  induction d as [|[k' v] d IH]; simpl; [by destruct (f k)|].
  destruct (String.eqb_spec k k') as [->|Hne].
  - destruct (f k') eqn:Hf; simpl; [by rewrite String.eqb_refl|].
    rewrite IH. by rewrite ?Hf.
  - apply String.eqb_neq in Hne.
    destruct (f k') eqn:Hf; simpl; [|done]. by rewrite Hne.
Qed.

Lemma pop_items_effect items : ∀ (o o' : pydict smart_event),
  pop_items items o = Ok o' →
  keys o' = List.filter (λ k, negb (str_in k items)) (keys o) ∧
  ∀ k, get k o' = if str_in k items then None else get k o.
Proof.
  induction items as [|item rest IH]; intros o o'; simpl.
  { intros [= <-]. split; [|done].
    induction (keys o) as [|k l IHl]; simpl; [done|]. by rewrite <- IHl. }
  unfold pop_item. destruct (mem item o); simpl; [|done].
  intros H. destruct (IH _ _ H) as [Hk Hg]. split.
  - rewrite Hk, (keys_filter (λ k, negb (String.eqb k item))).
    clear. induction (keys o) as [|k l IHl]; simpl; [done|].
    destruct (String.eqb k item); simpl; [done|].
    destruct (str_in k rest); simpl; by rewrite IHl.
  - intros k. rewrite Hg, (get_filter (λ k, negb (String.eqb k item))).
    destruct (String.eqb k item); simpl; [|done].
    by destruct (str_in k rest).
Qed.

(** X23: when the details part of the NDI retrieval returns, the events
    it returns and the events it lists as empty are together the events
    of the summary, each once: the returned output holds the summary
    records that are not listed as empty, in their order; every returned
    record has at least one detail, and differs from the summary record
    by the details added only. *)
Theorem ndi_details_partition
    (fetch_details : string → Z → option detail_response)
    (output out : pydict smart_event) (empty_events : list string) :
  NoDup (keys output) →
  ndi_get_smart_event_details fetch_details output
  = Ok (true, out, empty_events) →
  NoDup empty_events ∧
  (∀ k, k ∈ empty_events → k ∈ keys output) ∧
  keys out = List.filter (λ k, negb (str_in k empty_events)) (keys output) ∧
  (∀ k se, get k out = Some se →
           event_list se ≠ [] ∧
           ∃ se0, get k output = Some se0 ∧ details_added se0 se).
Proof.
  intros Hnd. unfold ndi_get_smart_event_details.
  destruct (detail_events fetch_details (output, []) (keys output))
    as [[o1 em]| |] eqn:E; cbn [mbind outcome_bind]; [|done..].
  destruct (pop_items em o1) as [o2| |] eqn:Hpop; cbn [mbind outcome_bind];
    [|done..].
  intros [= <- <-].
  destruct (detail_events_effect _ _ _ _ _ _ Hnd E)
    as (K1 & A1 & added & Hem & Hnd1 & Hsub1 & Hhave1).
  simpl in Hem. subst em.
  destruct (pop_items_effect _ _ _ Hpop) as [K2 G2].
  split; [done|]. split; [done|]. split; [by rewrite K2, K1|].
  intros k se Hget. rewrite G2 in Hget.
  destruct (str_in k added) eqn:Hin; [done|].
  apply str_in_not_elem in Hin.
  assert (k ∈ keys output) as Hk.
  { rewrite <- K1. by eapply get_Some_keys. }
  destruct (Hhave1 k Hk Hin) as (se' & Hget' & Hne).
  rewrite Hget in Hget'. injection Hget' as <-. split; [done|].
  destruct (get_is_Some _ _ Hk) as [se0 Hget0].
  destruct (A1 _ _ Hget0) as (se1 & Hget1 & Hadd).
  rewrite Hget in Hget1. injection Hget1 as <-. by exists se0.
Qed.

Lemma ndi_details_partition_witness :
  ∃ out,
    ndi_get_smart_event_details details_for_first two_summary_events
    = Ok (true, out, ["nae_OVERLAPPING_SUBNET"]) ∧
    keys out = ["nae_EPG_NOT_DEPLOYED"].
Proof.
  eexists. split; [vm_compute; reflexivity|].
  refine (proj1 (proj2 (proj2 (ndi_details_partition details_for_first
            two_summary_events _ ["nae_OVERLAPPING_SUBNET"] _ eq_refl)))).
  apply (bool_decide_unpack _). vm_compute. exact I.
Defined.

(** ** Chunked upload *)

Lemma defined_chunk_size_pos : (0 < defined_chunk_size)%nat.
Proof. unfold defined_chunk_size. lia. Qed.

Section UploadFacts.

Context {byte : Type}.

Lemma read_in_chunks_spec (chunk_size : nat) : (0 < chunk_size)%nat →
  ∀ fuel (file : list byte), (length file < fuel)%nat →
  ∃ chunks,
    read_in_chunks fuel file chunk_size = Some chunks ∧
    mjoin chunks = file ∧
    (∀ i c, chunks !! i = Some c →
            c = take chunk_size (drop (i * chunk_size) file) ∧ c ≠ []) ∧
    (length file ≤ length chunks * chunk_size < length file + chunk_size)%nat.
Proof.
  intros Hcs. induction fuel as [|fuel IH]; intros file Hfuel; [lia|].
  simpl. destruct (take chunk_size file) as [|b data] eqn:Htake.
  - assert (file = []) as ->.
    { destruct file; [done|]. destruct chunk_size; [lia|done]. }
    exists []. split; [done|]. split; [done|]. split; [|simpl; lia].
    intros i c H. by rewrite lookup_nil in H.
  - assert (length (take chunk_size file) = length (b :: data)) as Hlen
      by by rewrite Htake.
    rewrite length_take in Hlen. simpl in Hlen.
    destruct (IH (drop chunk_size file)) as (chunks & -> & Hjoin & Hat & Hcount).
    { rewrite length_drop. lia. }
    exists ((b :: data) :: chunks). split; [done|]. split; [|split].
    + simpl. change (b :: data ++ mjoin chunks)%list
        with ((b :: data) ++ mjoin chunks)%list.
      by rewrite Hjoin, <- Htake, take_drop.
    + intros [|i] c; simpl.
      * intros [= <-]. by rewrite drop_0, Htake.
      * intros H. destruct (Hat i c H) as [-> Hne]. split; [|done].
        rewrite drop_drop. do 2 f_equal; lia.
    + rewrite length_drop in Hcount. simpl length.
      destruct (decide (chunk_size ≤ length file)%nat); [lia|].
      assert (length chunks = 0%nat) as -> by nia. lia.
Qed.

Variable amount_of_chunks : nat → nat.
Variable post_returns : chunk_post byte → bool.

Lemma upload_chunks_posted content_size chunks :
  (∀ m, post_returns m = true) →
  ∀ index offset posted,
  ∃ new,
    upload_chunks amount_of_chunks post_returns content_size chunks
      index offset posted = Ok (posted ++ new)%list ∧
    chunk_data <$> new = chunks ∧
    ∀ i m, new !! i = Some m →
      qqpartindex m = (index + i)%nat ∧
      qqpartbyteoffset m = (offset + length (mjoin (take i chunks)))%nat ∧
      qqchunksize m = length (chunk_data m) ∧
      qqtotalfilesize m = content_size ∧
      qqtotalparts m = amount_of_chunks content_size.
Proof.
  intros Hpost. induction chunks as [|chunk rest IH];
    intros index offset posted; simpl.
  { exists []. rewrite app_nil_r. split; [done|]. split; [done|].
    intros i m H. by rewrite lookup_nil in H. }
  rewrite Hpost.
  destruct (IH (index + 1)%nat (offset + length chunk)%nat
              (posted ++ [ {| qqpartindex := index;
                              qqpartbyteoffset := offset;
                              qqchunksize := length chunk;
                              qqtotalparts := amount_of_chunks content_size;
                              qqtotalfilesize := content_size;
                              chunk_data := chunk |} ])%list)
    as (new & -> & Hdata & Hat).
  eexists (_ :: new). rewrite <- app_assoc. split; [done|]. split.
  { cbn [fmap list_fmap chunk_data]. f_equal. exact Hdata. }
  intros [|i] m; simpl.
  - intros [= <-]. simpl. repeat split; lia.
  - intros H. destruct (Hat i m H) as (H1 & H2 & H3 & H4 & H5).
    rewrite length_app. repeat split; try done; lia.
Qed.

Lemma chunks_offset (chunk_size : nat) (file : list byte) chunks :
  (∀ i c, chunks !! i = Some c →
          c = take chunk_size (drop (i * chunk_size) file) ∧ c ≠ []) →
  ∀ i, (i < length chunks)%nat →
       length (mjoin (take i chunks)) = (i * chunk_size)%nat.
Proof.
  intros Hat. induction i as [|i IH]; intros Hi; [done|].
  destruct (lookup_lt_is_Some_2 chunks i ltac:(lia)) as [c Hc].
  destruct (lookup_lt_is_Some_2 chunks (S i) Hi) as [c' Hc'].
  rewrite (take_S_r _ _ _ Hc), join_app, length_app, IH by lia.
  simpl. rewrite app_nil_r.
  destruct (Hat _ _ Hc) as [-> _]. destruct (Hat _ _ Hc') as [-> Hne].
  assert (S i * chunk_size < length file)%nat.
  { destruct (decide (S i * chunk_size < length file)%nat); [done|].
    exfalso. apply Hne. rewrite drop_ge by lia. by rewrite take_nil. }
  rewrite length_take, length_drop. lia.
Qed.

End UploadFacts.

(** X24: when every post returns, the upload of a file returns (with
    more reads than the file has bytes), having posted the chunks in
    order: their data concatenated is the file, the chunk with index [i]
    is the slice of at most 10000000 bytes at the byte offset
    [i * 10000000] it declares, it is not empty and declares its own
    length and the file size, and the number of chunks is the least that
    holds the file. *)
Theorem nae_upload_file_chunk_reassembles {byte : Type}
    (amount_of_chunks : nat → nat) (post_returns : chunk_post byte → bool)
    (fuel : nat) (file : list byte) :
  (∀ m, post_returns m = true) →
  (length file < fuel)%nat →
  ∃ posted,
    nae_upload_file_chunk amount_of_chunks post_returns fuel file
    = Some (Ok (true, posted)) ∧
    mjoin (chunk_data <$> posted) = file ∧
    (∀ i m, posted !! i = Some m →
       qqpartindex m = i ∧
       qqpartbyteoffset m = (i * defined_chunk_size)%nat ∧
       chunk_data m
       = take defined_chunk_size (drop (qqpartbyteoffset m) file) ∧
       chunk_data m ≠ [] ∧
       qqchunksize m = length (chunk_data m) ∧
       qqtotalfilesize m = length file) ∧
    (length file ≤ length posted * defined_chunk_size
     < length file + defined_chunk_size)%nat.
Proof.
  intros Hpost Hfuel. unfold nae_upload_file_chunk.
  destruct (read_in_chunks_spec defined_chunk_size defined_chunk_size_pos
              fuel file Hfuel) as (chunks & -> & Hjoin & Hat & Hcount).
  destruct (upload_chunks_posted amount_of_chunks post_returns (length file)
              chunks Hpost 0%nat 0%nat []) as (new & Hup & Hdata & Hnew).
  simpl. rewrite Hup. simpl. exists new.
  split; [done|]. split; [by rewrite Hdata|]. split.
  - intros i m Hm. destruct (Hnew i m Hm) as (H1 & H2 & H3 & H4 & _).
    assert (chunks !! i = Some (chunk_data m)) as Hc.
    { rewrite <- Hdata, list_lookup_fmap, Hm. done. }
    assert (i < length chunks)%nat as Hi by by eapply lookup_lt_Some.
    rewrite (chunks_offset defined_chunk_size file chunks Hat i Hi) in H2.
    simpl in H1, H2. destruct (Hat _ _ Hc) as [Hslice Hne].
    rewrite H2. done.
  - by rewrite <- (length_fmap chunk_data), Hdata.
Qed.

Lemma nae_upload_file_chunk_reassembles_witness :
  ∃ posted,
    nae_upload_file_chunk (λ _, 1%nat) (λ _, true) 4 [true; false; true]
    = Some (Ok (true, posted)) ∧
    mjoin (chunk_data <$> posted) = [true; false; true].
Proof.
  destruct (nae_upload_file_chunk_reassembles (λ _, 1%nat) (λ _, true) 4
              [true; false; true] (λ _, eq_refl) ltac:(simpl; lia))
    as (posted & H1 & H2 & _).
  by exists posted.
Defined.

(** ** Telemetry *)

Lemma traverse_Forall {A B} (f : A → outcome B) (P : B → Prop) l : ∀ l',
  (∀ x y, f x = Ok y → P y) →
  traverse f l = Ok l' → Forall P l'.
Proof.
  induction l as [|x l IH]; intros l' Hf; simpl.
  { intros [= <-]. constructor. }
  destruct (f x) as [y| |] eqn:Hx; simpl; [|done..].
  destruct (traverse f l) as [ys| |] eqn:Hl; simpl; [|done..].
  intros [= <-]. constructor; [by eapply Hf | by apply IH].
Qed.

(** The fields written so far are of the sanitised kind. *)
Lemma remove_field_sanitised k sub o o' :
  k = "identifier" ∨ k = "name" ∨ k = "objectValue" →
  remove_field k sub o = Ok o' →
  sanitised_subentry (JDict o) → sanitised_subentry (JDict o').
Proof.
  intros Hk. unfold remove_field, sanitised_subentry.
  destruct (py_in k sub) as [[|]| |]; simpl; [| |done..]; intros [= <-]; [|done].
  intros (o0 & [= <-] & Ho). exists (set k removed o). split; [done|].
  intros k' v [[= -> ->]|Hin]%elem_of_set; [by left | by apply Ho].
Qed.

Lemma copy_field_sanitised k sub o o' :
  k = "object_types" ∨ k = "objectType" →
  copy_field k sub o = Ok o' →
  sanitised_subentry (JDict o) → sanitised_subentry (JDict o').
Proof.
  intros Hk. unfold copy_field, sanitised_subentry.
  destruct (py_in k sub) as [[|]| |]; simpl; [| |done..]; cycle 1.
  { by intros [= <-]. }
  destruct (py_getitem k sub) as [x| |]; simpl; [|done..]. intros [= <-].
  intros (o0 & [= <-] & Ho). exists (set k x o). split; [done|].
  intros k' v [[= -> ->]|Hin]%elem_of_set; [by right | by apply Ho].
Qed.

Lemma sanitise_subentry_sanitised sub out :
  sanitise_subentry sub = Ok out → sanitised_subentry out.
Proof.
  unfold sanitise_subentry.
  destruct (remove_field "identifier" sub []) as [o1| |] eqn:E1;
    simpl; [|done..].
  destruct (copy_field "object_types" sub o1) as [o2| |] eqn:E2;
    simpl; [|done..].
  destruct (copy_field "objectType" sub o2) as [o3| |] eqn:E3;
    simpl; [|done..].
  destruct (remove_field "name" sub o3) as [o4| |] eqn:E4; simpl; [|done..].
  destruct (remove_field "objectValue" sub o4) as [o5| |] eqn:E5;
    simpl; [|done..].
  intros [= <-].
  eapply remove_field_sanitised; [|exact E5|]; [tauto|].
  eapply remove_field_sanitised; [|exact E4|]; [tauto|].
  eapply copy_field_sanitised; [|exact E3|]; [tauto|].
  eapply copy_field_sanitised; [|exact E2|]; [tauto|].
  eapply remove_field_sanitised; [|exact E1|]; [tauto|].
  exists []. split; [done|]. intros k v H. by apply elem_of_nil in H.
Qed.

Lemma sanitise_entry_sanitised entry out :
  sanitise_entry entry = Ok out → sanitised_entry out.
Proof.
  unfold sanitise_entry.
  destruct (py_iter entry) as [subs| |]; simpl; [|done..].
  destruct (traverse sanitise_subentry subs) as [outs| |] eqn:E;
    simpl; [|done..].
  intros [= <-]. exists outs. split; [done|].
  eapply traverse_Forall; [|exact E]. apply sanitise_subentry_sanitised.
Qed.

(** X25: when the sanitiser returns for a message with a template, the
    result has the keys [timestamp], [toolName], [exception] and
    [template] with the values of the message, and at most the key
    [data] besides; for a template whose name starts with [nae] the data
    is a mapping with the one key [event_list], a list of lists of
    mappings that have none but the five known keys, with every
    identifier, name and object value replaced by [<removed>]; for a
    template whose name starts with [vetR] the data is [<removed>], and
    for every other template there is no data. *)
Theorem telemetry_remove_customer_data_sanitised
    (input_data output_data : pydict json) (template : json) :
  get "template" input_data = Some template →
  telemetry_remove_customer_data input_data = Ok output_data →
  ∃ t rest,
    template = JStr t ∧
    output_data
    = ([ ("timestamp", default JNull (get "timestamp" input_data));
         ("toolName", default JNull (get "toolName" input_data));
         ("exception", default JNull (get "exception" input_data));
         ("template", template) ] ++ rest)%list ∧
    if startswith "nae" t then
      ∃ entries, rest = [("data", JDict [("event_list", JList entries)])] ∧
                 Forall sanitised_entry entries
    else if startswith "vetR" t then rest = [("data", removed)]
    else rest = [].
Proof.
  intros Ht. unfold telemetry_remove_customer_data, mem. rewrite Ht. simpl.
  rewrite Ht.
  destruct (get "timestamp" input_data) as [ts|]; simpl; [|done].
  destruct (get "toolName" input_data) as [tn|]; simpl; [|done].
  destruct (get "exception" input_data) as [ex|]; simpl; [|done].
  destruct template as [| | |t| |]; try done.
  destruct (startswith "nae" t) eqn:Hnae.
  - destruct (get "data" input_data) as [data|]; simpl; [|done].
    destruct (py_getitem "event_list" data) as [el| |]; simpl; [|done..].
    destruct (py_iter el) as [ins| |]; simpl; [|done..].
    destruct (traverse sanitise_entry ins) as [outs| |] eqn:E; simpl; [|done..].
    intros [= <-]. exists t. eexists. split; [done|]. split; [done|].
    rewrite Hnae. exists outs. split; [done|].
    eapply traverse_Forall; [|exact E]. apply sanitise_entry_sanitised.
  - destruct (startswith "vetR" t) eqn:Hvetr.
    + intros [= <-]. exists t. eexists. split; [done|]. split; [done|].
      by rewrite Hnae, Hvetr.
    + intros [= <-]. exists t, []. by rewrite Hnae, Hvetr.
Qed.

Lemma telemetry_remove_customer_data_sanitised_witness :
  ∃ t rest,
    JStr "nae_EPG_NOT_DEPLOYED.md" = JStr t ∧
    sanitised_nae_message
    = ([ ("timestamp", default JNull (get "timestamp" nae_telemetry_message));
         ("toolName", default JNull (get "toolName" nae_telemetry_message));
         ("exception", default JNull (get "exception" nae_telemetry_message));
         ("template", JStr "nae_EPG_NOT_DEPLOYED.md") ] ++ rest)%list ∧
    if startswith "nae" t then
      ∃ entries, rest = [("data", JDict [("event_list", JList entries)])] ∧
                 Forall sanitised_entry entries
    else if startswith "vetR" t then rest = [("data", removed)]
    else rest = [].
Proof.
  apply (telemetry_remove_customer_data_sanitised nae_telemetry_message
           sanitised_nae_message (JStr "nae_EPG_NOT_DEPLOYED.md")).
  - reflexivity.
  - vm_compute. reflexivity.
Defined.

(** ** Tasks of the audit report *)

Lemma split_underscore_cons s : ∃ h t, split_underscore s = h :: t.
Proof.
  induction s as [|c s IH]; simpl; [eauto|].
  destruct (Ascii.eqb c "_"); [eauto|].
  destruct IH as (h & t & ->). eauto.
Qed.

Lemma concat_split_underscore s : String.concat "_" (split_underscore s) = s.
Proof.
  induction s as [|c s IH]; [done|]. simpl.
  destruct (split_underscore_cons s) as (h & t & Hs). rewrite Hs in *.
  rewrite <- IH.
  destruct (Ascii.eqb_spec c "_") as [->|Hc]; [done|].
  by destruct t.
Qed.

Lemma path_strings_keys_only (l : list string) :
  path_strings (PKey <$> l) = Some l.
Proof.
  induction l as [|k l IH]; [done|].
  change (path_strings (PKey <$> k :: l))
    with (cons k <$> path_strings (PKey <$> l)).
  by rewrite IH.
Qed.

Lemma table_targets_no_marker :
  Forall (λ src, "actionRecommended" ∉ tgt src) table_sources.
Proof.
  let l := eval vm_compute in table_sources in change table_sources with l.
  repeat constructor;
    (intros H; apply str_in_elem in H; vm_compute in H; discriminate).
Qed.

Lemma table_sources_qualifier :
  Forall (λ src, ∃ q, qualifier src = Some q ∧ tgt src = split_underscore q)
    table_sources.
Proof.
  let l := eval vm_compute in table_sources in change table_sources with l.
  repeat constructor; eexists; (split; [reflexivity|]); reflexivity.
Qed.

Lemma converted_reaches S out src value :
  converted S out →
  (∀ s, s ∈ S.*1 → s ∈ table_sources) →
  (src, value) ∈ S →
  reaches "actionRecommended" (JDict out) (PKey <$> tgt src) value.
Proof.
  intros [Hn Hv Ho] Hsrc Hin.
  assert (src ∈ table_sources) as Ht.
  { apply Hsrc, list_elem_of_fmap. by exists (src, value). }
  assert (∀ s x, get s out = Some x → s ≠ "actionRecommended") as Hsec.
  { intros s x Hx ->.
    destruct (Ho _ _ Hx) as [(src' & Hin' & Ht')|(fs & -> & Hne & _ & Hf)].
    - assert (src' ∈ table_sources) as Hs'.
      { apply Hsrc, list_elem_of_fmap. by exists (src', x). }
      apply (proj1 (Forall_forall _ _) table_targets_no_marker _ Hs').
      rewrite Ht'. left.
    - destruct fs as [|[f y] fs]; [done|].
      destruct (Hf f) as (src' & v & Hin' & Ht'); [left|].
      assert (src' ∈ table_sources) as Hs'.
      { apply Hsrc, list_elem_of_fmap. by exists (src', v). }
      apply (proj1 (Forall_forall _ _) table_targets_no_marker _ Hs').
      rewrite Ht'. left. }
  assert (mem "actionRecommended" out = false) as Hmem.
  { unfold mem. destruct (get "actionRecommended" out) eqn:E; [|done].
    by destruct (Hsec _ _ E). }
  pose proof (Hv _ _ Hin) as Hget.
  destruct (table_targets_shape src Ht) as [(s & Hs)|(s & f & Hs)];
    rewrite Hs in *; simpl in Hget |- *.
  - eapply reaches_key; [done | by apply get_elem | constructor].
  - destruct (get s out) as [[| | | | |sec]|] eqn:Hsecget; try done.
    eapply reaches_key; [done | by apply get_elem |].
    eapply reaches_key; [| by apply get_elem | constructor].
    unfold mem. destruct (get "actionRecommended" sec) eqn:E; [|done].
    exfalso.
    destruct (Ho _ _ Hsecget) as [(src' & Hin' & Ht')|(fs & [= <-] & _ & _ & Hf)].
    + assert (src' ∈ table_sources) as Hs'.
      { apply Hsrc, list_elem_of_fmap. by exists (src', JDict sec). }
      pose proof (table_targets_compatible src src' Ht Hs') as Hc.
      rewrite Hs, Ht' in Hc. by specialize (Hc eq_refl).
    + destruct (Hf "actionRecommended") as (src' & v & Hin' & Ht').
      { by eapply get_Some_keys. }
      assert (src' ∈ table_sources) as Hs'.
      { apply Hsrc, list_elem_of_fmap. by exists (src', v). }
      apply (proj1 (Forall_forall _ _) table_targets_no_marker _ Hs').
      rewrite Ht'. right. left.
Qed.

(** X26: a recommendation of a legacy export is reported under its
    canonical name: when the migration of the export and the analysis of
    the migrated export both return, a legacy value that is a record
    with a true [actionRecommended] and no [error] (and not the
    suppressed BFD recommendation) is in the output of the analysis
    under [vetR_] followed by the qualifier the table gives for its
    legacy location. *)
Theorem legacy_recommendation_reported (vetr_data out output : pydict json)
    (src : source) (value : json) (entry_key : string) :
  NoDup (keys vetr_data) →
  (∀ key children, (key, JDict children) ∈ vetr_data → NoDup (keys children)) →
  vetr_convert_dataformat vetr_data = Ok out →
  vetr_analyse_output (JDict out) = Actions output →
  (src, value) ∈ all_writes vetr_data →
  recommended (PKey <$> tgt src) value entry_key →
  qualifier src = Some entry_key ∧ "vetR_" ++ entry_key ∈ keys output.
Proof.
  intros Hnd Hch Hconv Hout Hin Hrec.
  destruct (convert_keys_Ok_converted _ _ Hnd Hch Hconv) as [Hc Hmig].
  assert (∀ s, s ∈ (all_writes vetr_data).*1 → s ∈ table_sources) as Hsrc.
  { intros s. by apply all_writes_sources. }
  assert (src ∈ table_sources) as Ht.
  { apply Hsrc, list_elem_of_fmap. by exists (src, value). }
  split.
  - destruct (proj1 (Forall_forall _ _) table_sources_qualifier _ Ht)
      as (q & Hq & Htgt).
    destruct Hrec as (e & flag & _ & _ & _ & _ & Hj & _).
    unfold join_path in Hj.
    rewrite path_strings_keys_only, Htgt in Hj. simpl in Hj.
    rewrite concat_split_underscore in Hj. congruence.
  - apply (proj2 (analyse_entries_keys _ _ _ Hout) (PKey <$> tgt src) value);
      [|done].
    destruct Hrec as (e & flag & -> & Hflag & _).
    assert (mem "actionRecommended" e = true) as Hmem
      by (unfold mem; by rewrite Hflag).
    pose proof (converted_reaches (all_writes vetr_data) out src (JDict e)
                  Hc Hsrc Hin) as Hreach.
    apply (walk_complete "actionRecommended" (JDict out) (PKey <$> tgt src)
             (JDict e) e Hreach eq_refl Hmem []).
Qed.

Lemma legacy_recommendation_reported_witness :
  qualifier ("mcp", Some "interface") = Some "access_mcpInterface" ∧
  "vetR_access_mcpInterface"
    ∈ keys [ ("vetR_system_ipAging", JDict [("actionRecommended", JBool true)]);
             ("vetR_access_mcpInterface",
              JDict [("actionRecommended", JBool true)]) ].
Proof.
  eapply (legacy_recommendation_reported legacy_with_recommendations _ _
            ("mcp", Some "interface")
            (JDict [("actionRecommended", JBool true)])).
  - apply (bool_decide_unpack _). vm_compute. exact I.
  - intros key children Hin.
    assert (Forall (λ kv : string * json,
                      match kv.2 with
                      | JDict cs => NoDup (keys cs)
                      | _ => True
                      end) legacy_with_recommendations) as HF.
    { repeat constructor; simpl; try exact I;
        apply (bool_decide_unpack _); vm_compute; exact I. }
    apply (proj1 (Forall_forall _ _) HF _ Hin).
  - vm_compute. reflexivity.
  - vm_compute. reflexivity.
  - vm_compute. right. right. left.
  - exists [("actionRecommended", JBool true)], (JBool true).
    repeat split; try reflexivity. discriminate.
Defined.

Section SsdTasksFacts.

Context {F : Type}.
Variable float : string → option F.
Variable ge_major : F → bool.
Variable ge_critical : F → bool.
Variable jinja : string → ssd_action → jinja_outcome.
Variable get_template_metadata : string → string → option (pydict string).

Lemma ssd_findings_keys ssd_data ssd_findings :
  ssd_analyze_output float ge_major ge_critical ssd_data = Ok ssd_findings →
  ssd_findings = [] ∨ keys ssd_findings = ["ssd_faults"].
Proof.
  intros H.
  destruct (ssd_analyze_output_result float ge_major ge_critical ssd_data)
    as [E|(usage & action & _ & E)]; rewrite E in H; [done|].
  injection H as <-. destruct (actionRecommended _); [by right | by left].
Qed.

End SsdTasksFacts.

(** X27: when the SSD tasks of the report return, their output is empty
    or holds the one rendered finding [ssd_faults]; the finding is
    rendered exactly when the analyzer reported one and [ssd_faults] is
    not in the vetR ignore list, the list the renderer reads for the SSD
    findings as well. *)
Theorem ssd_tasks_rendering {F : Type}
    (float : string → option F) (ge_major ge_critical : F → bool)
    (jinja : string → ssd_action → jinja_outcome)
    (yaml_load : string → yaml_outcome)
    (submit_telemetry : string → string → ssd_action → outcome unit)
    (ssd_data : list string)
    (audit_warning_list audit_ignore_list : pydict (list string))
    (ssd_audit_output : pydict rendered_finding) :
  ssd_tasks float ge_major ge_critical jinja yaml_load submit_telemetry ssd_data
    audit_warning_list audit_ignore_list = Ok ssd_audit_output →
  (∀ k, k ∈ keys ssd_audit_output → k = "ssd_faults") ∧
  ("ssd_faults" ∈ keys ssd_audit_output ↔
   ∃ a ignore_vetR,
     ssd_analyze_output float ge_major ge_critical ssd_data
     = Ok [("ssd_faults", a)] ∧
     get "vetR" audit_ignore_list = Some ignore_vetR ∧
     "ssd_faults" ∉ ignore_vetR).
Proof.
  unfold ssd_tasks.
  destruct (ssd_analyze_output float ge_major ge_critical ssd_data)
    as [ssd_findings| |] eqn:E; cbn [mbind outcome_bind]; [|done..].
  destruct (ssd_findings_keys float ge_major ge_critical _ _ E) as [->|Hk].
  { simpl. intros [= <-]. split.
    - intros k H. by apply elem_of_nil in H.
    - split; [intros H; by apply elem_of_nil in H|].
      by intros (a & l & [=] & _). }
  destruct ssd_findings as [|[k a] [|? ?]]; try done.
  simpl in Hk. injection Hk as ->. cbn [length Nat.eqb].
  destruct (check_audit_warnings _ audit_warning_list) as [[]| |];
    cbn [mbind outcome_bind]; [|done..].
  destruct (get "vetR" audit_ignore_list) as [ignore_vetR|]; [|done].
  intros Hrender.
  assert (∀ k, k ∈ keys ssd_audit_output
               ↔ k ∈ keys [("ssd_faults", a)] ∧ k ∉ ignore_vetR) as Hkeys.
  { intros k. destruct (render_loop_spec _ _ _ _ _ Hrender) as [Hk _].
    rewrite Hk, str_in_not_elem. simpl. rewrite elem_of_nil. tauto. }
  split.
  - intros k Hin. apply Hkeys in Hin as [Hin _].
    simpl in Hin. by apply list_elem_of_singleton in Hin.
  - rewrite Hkeys. simpl. split.
    + intros [_ Hn]. by exists a, ignore_vetR.
    + intros (a' & l & _ & [= <-] & Hn). split; [left|done].
Qed.

Lemma ssd_tasks_rendering_witness :
  "ssd_faults"
    ∈ keys [ ("ssd_faults",
              {| rf_content := Some ssd_content;
                 rf_metadata := JDict [("severity", JStr "critical")];
                 rf_error := None |}) ].
Proof.
  apply (proj2 (proj2 (ssd_tasks_rendering float_decimal ge_80 ge_90
                         ssd_template ssd_yaml_load incognito two_node_report
                         [("ssd", [])] [("vetR", ["vetR_fabric_dom"])]
                         _ eq_refl))).
  eexists _, _. split; [vm_compute; reflexivity|].
  split; [reflexivity|].
  intros H. apply str_in_elem in H. vm_compute in H. discriminate.
Defined.
